(** * caterwaul-regexp: the regular-expression parser of [regexp.js]

    A shallow embedding of [caterwaul.regexp] (src/regexp.js): the parser
    combinators, the grammar built from them, the mutable parse context
    (the registry of capturing groups) and the methods of the resulting
    syntax nodes ([minimum_length], [toString], the flag accessors,
    [match_groups]).

    Conventions of the embedding.
    - A Javascript string is a [string]; one [ascii] stands for one UTF-16
      code unit below 256.
    - A number is an [N]; [Infinity] has a constructor of its own.  The
      numbers the parser builds come from runs of decimal digits.  Unary
      [+] on the run of a bound gives a double: [to_double] rounds the
      integer the run denotes to the nearest double, ties to even, and
      overflows to [Infinity].  The one or two digits of a backreference
      are below 100, where the double is the integer itself.
    - The sums and the products of [minimum_length] are those of [N]; they
      are those of the code as long as they stay below 2^53, and the
      statements about a product say so.
    - A syntax node is a value with an identity: [uid] is the allocation
      stamp of the object, so that two nodes of equal shape can still be
      told apart, as [===] would in Javascript.
      The grammar mutates a node ([it.push], [it.data +=]) only right
      after it has built it, before anything else refers to it, so a node
      is a value here and a mutation gives the updated value.
    - The parse context is threaded explicitly: every parser takes the
      state and returns it, on failure as well as on success, because
      [context.groups.push] is not undone when an alternative fails.
    - The tree library of caterwaul is not part of this repository.  Of it
      the embedding takes [push], which appends its argument as the last
      child as it is given ([undefined] included), and the indexed reads
      [this[k]] and [this.length]. *)

From Stdlib Require Import String Ascii List NArith Arith Lia Bool DecimalString.
Import ListNotations.
Open Scope string_scope.
Set Warnings "-register-all".

(** ** Javascript strings *)

Definition backslash : string := String (ascii_of_nat 92) "".
Definition newline : ascii := ascii_of_nat 10.
Definition carriage_return : ascii := ascii_of_nat 13.

(** [s.charAt(i)] and [s.substr(i, n)]. *)
Definition charAt (s : string) (i : nat) : string := substring i 1 s.
Definition substr (s : string) (i n : nat) : string := substring i n s.

(** [c.indexOf(x)]; [None] stands for -1. *)
Definition indexOf (c x : string) : option nat := index 0 x c.

Definition found (o : option nat) : bool :=
  match o with Some _ => true | None => false end.

(** Line terminators, which [.] does not match in a Javascript regexp. *)
Definition line_terminator (a : ascii) : bool :=
  Ascii.eqb a newline || Ascii.eqb a carriage_return.

Fixpoint string_forall (f : ascii -> bool) (s : string) : bool :=
  match s with
  | EmptyString => true
  | String a rest => f a && string_forall f rest
  end.

Fixpoint string_exists (f : ascii -> bool) (s : string) : bool :=
  match s with
  | EmptyString => false
  | String a rest => f a || string_exists f rest
  end.

Definition starts_with (c : ascii) (s : string) : bool :=
  match s with
  | String a _ => Ascii.eqb a c
  | EmptyString => false
  end.

(** The integer a run of decimal digits denotes. *)
Definition digit_value (a : ascii) : N := (N_of_ascii a - 48)%N.

Fixpoint to_number_from (acc : N) (s : string) : N :=
  match s with
  | EmptyString => acc
  | String a rest => to_number_from (10 * acc + digit_value a)%N rest
  end.

Definition to_number (s : string) : N := to_number_from 0%N s.

(** The double nearest to a non-negative integer, as the integer it is;
    [None] is [Infinity].  Below 2^53 every integer is a double.  Above, a
    double keeps the 53 leading bits: [e] bits are dropped, the rest [q] is
    rounded up when the dropped bits are more than half a unit of [q], or
    are half a unit and [q] is odd (ties to even).  The result overflows
    when it reaches 2^1024. *)
Definition to_double (n : N) : option N :=
  (if n <? 2 ^ 53 then Some n
   else
     let e := N.log2 n - 52 in
     let q := N.shiftr n e in
     let dropped := n - N.shiftl q e in
     let half := 2 ^ (e - 1) in
     let q' := if (half <? dropped) || ((dropped =? half) && N.odd q)
               then q + 1 else q in
     let m := N.shiftl q' e in
     if m <? 2 ^ 1024 then Some m else None)%N.

(** [String(n)] for a non-negative integer; Javascript prints the integers
    below 10^21 in full, as here. *)
Definition number_to_string (n : N) : string :=
  NilZero.string_of_uint (N.to_uint n).

(** ** Syntax nodes *)

(** [data] of a node: the tag or the text of an atom, or a number for the
    leaves under a bounded repetition and under a backreference. *)
Inductive datum : Type :=
| DStr (s : string)
| DNum (n : N)
| DInfinity.

(** A node of [caterwaul.regexp.syntax]: its identity, its [data] and its
    children [this[0] .. this[length - 1]].  [Undefined] is the value
    [undefined], which [node] stores as a child when the registry has no
    entry at the index it is asked for. *)
Inductive node : Type :=
| Undefined
| Node (uid : nat) (data : datum) (children : list node).

Definition data_to_string (d : datum) : string :=
  match d with
  | DStr s => s
  | DNum n => number_to_string n
  | DInfinity => "Infinity"
  end.

Definition datum_eqb (a b : datum) : bool :=
  match a, b with
  | DStr x, DStr y => String.eqb x y
  | DNum x, DNum y => N.eqb x y
  | DInfinity, DInfinity => true
  | _, _ => false
  end.

(** [it.push(x)] *)
Definition push (it x : node) : node :=
  match it with
  | Node u d xs => Node u d (xs ++ [x])
  | Undefined => Undefined
  end.

(** [it.data += x] *)
Definition append_data (it : node) (x : string) : node :=
  match it with
  | Node u d xs => Node u (DStr (data_to_string d ++ x)) xs
  | Undefined => Undefined
  end.

(** ** Parse state, cursors and results *)

(** [context.groups] together with the allocation stamp of the next node. *)
Record state : Type := State { groups : list node; next_uid : nat }.

(** The values parsers return in [v]. *)
Inductive val : Type :=
| VUndefined
| VStr (s : string)
| VNum (n : N)
| VArr (xs : list val)
| VNode (n : node)
| VInfinity.

(** A cursor [{i: ...}], and also a successful result [{v: ..., i: ...}]:
    the combinators pass results on as cursors. *)
Record cursor : Type := Cursor { v : val; i : nat }.

(** What a parser returns: a result, or a falsy value.  The state comes
    back in both cases.  [OutOfFuel] is not a Javascript outcome: it marks
    a recursion that the fuel of the embedding did not cover. *)
Inductive reply : Type :=
| Success (r : cursor) (st : state)
| Failure (st : state)
| OutOfFuel.

Definition parser : Type := cursor -> state -> reply.

(** Reading the values: [_[k]], [_.join('')], a node, a string.  In the
    grammar these readers meet values of the shape they read; their other
    cases are not reached. *)
Definition at_ (x : val) (k : nat) : val :=
  match x with
  | VArr xs => nth k xs VUndefined
  | _ => VUndefined
  end.

Definition val_to_string (x : val) : string :=
  match x with
  | VStr s => s
  | VNum n => number_to_string n
  | VInfinity => "Infinity"
  | _ => ""
  end.

Definition join_strings (x : val) : string :=
  match x with
  | VArr xs => fold_right (fun y acc => val_to_string y ++ acc) "" xs
  | _ => ""
  end.

Definition as_node (x : val) : node :=
  match x with
  | VNode n => n
  | _ => Undefined
  end.

Definition as_datum (x : val) : datum :=
  match x with
  | VNum n => DNum n
  | VInfinity => DInfinity
  | y => DStr (val_to_string y)
  end.

(** Unary [+] on a run of decimal digits: the double nearest to the
    integer the run denotes. *)
Definition unary_plus (t : string) : val :=
  match to_double (to_number t) with
  | Some n => VNum n
  | None => VInfinity
  end.

(** The functions given to [map] allocate nodes and may register a group:
    they run in the state. *)
Definition M (A : Type) : Type := state -> A * state.

Definition ret {A : Type} (a : A) : M A := fun st => (a, st).

Definition bind {A B : Type} (m : M A) (k : A -> M B) : M B :=
  fun st => let (a, st1) := m st in k a st1.

Notation "x <- m ;; k" := (bind m (fun x => k))
  (at level 61, m at next level, right associativity).

Definition action : Type := val -> M val.

(** [node(data, child, ...)]: a new node, with the next stamp. *)
Definition node_ (d : datum) (xs : list node) : M node :=
  fun st => (Node (next_uid st) d xs, State (groups st) (S (next_uid st))).

(** [add_group(node) = context.groups.push(node)] *)
Definition add_group (n : node) : M unit :=
  fun st => (tt, State (groups st ++ [n]) (next_uid st)).

(** [context.groups[k]] *)
Definition group_at (k : N) : M node :=
  fun st => (nth (N.to_nat k) (groups st) Undefined, st).

(** [node] used as the function of a [map]: a leaf holding the value. *)
Definition leaf : action :=
  fun x => n <- node_ (as_datum x) [] ;; ret (VNode n).

(** ** The parser combinators *)

Section Parse.

(** The pattern text, [s = pieces[1]]. *)
Variable s : string.

(** [char(c)(p) = p.i < s.length && c.indexOf(s.charAt(p.i)) !== -1 &&
    {v: s.charAt(p.i), i: p.i + 1}] *)
Definition char (c : string) : parser := fun p st =>
  if (i p <? String.length s)%nat && found (indexOf c (charAt s (i p)))
  then Success (Cursor (VStr (charAt s (i p))) (i p + 1)) st
  else Failure st.

(** [string(cs)(p) = p.i < s.length && s.substr(p.i, cs.length) === cs &&
    {v: s.substr(p.i, cs.length), i: p.i + cs.length}] *)
Definition string_ (cs : string) : parser := fun p st =>
  if (i p <? String.length s)%nat && String.eqb (substr s (i p) (String.length cs)) cs
  then Success (Cursor (VStr (substr s (i p) (String.length cs))) (i p + String.length cs)) st
  else Failure st.

(** [not(n, f)(p) = p.i >= s.length || f(p) ? false :
    {v: s.substr(p.i, n), i: p.i + n}] *)
Definition not_ (n : nat) (f : parser) : parser := fun p st =>
  if (String.length s <=? i p)%nat then Failure st
  else match f p st with
       | Success _ st1 => Failure st1
       | Failure st1 => Success (Cursor (VStr (substr s (i p) n)) (i p + n)) st1
       | OutOfFuel => OutOfFuel
       end.

(** [any(n)(p) = p.i < s.length && {v: s.substr(p.i, n), i: p.i + n}] *)
Definition any (n : nat) : parser := fun p st =>
  if (i p <? String.length s)%nat
  then Success (Cursor (VStr (substr s (i p) n)) (i p + n)) st
  else Failure st.

(** [alt(ps = arguments)(p) = ps |[x(p)] |seq]: the value of the first
    parser that succeeds.  Each parser is run on [p] anew, and the state is
    the one the parsers tried before have left. *)
Fixpoint alt (ps : list parser) (p : cursor) (st : state) : reply :=
  match ps with
  | [] => Failure st
  | x :: rest =>
      match x p st with
      | Success r st1 => Success r st1
      | Failure st1 => alt rest p st1
      | OutOfFuel => OutOfFuel
      end
  end.

(** The unfold [p /~![f(x) || null]] behind [many]: [p], [f(p)],
    [f(f(p))], ... up to the first failure.  [budget] bounds the number
    of steps; [None] is a run the budget did not cover. *)
Fixpoint unfold (f : parser) (budget : nat) (x : cursor) (st : state)
  : option (list cursor * state) :=
  match f x st with
  | Success y st1 =>
      match budget with
      | 0 => None
      | S b =>
          match unfold f b y st1 with
          | Some (rest, st2) => Some (x :: rest, st2)
          | None => None
          end
      end
  | Failure st1 => Some ([x], st1)
  | OutOfFuel => None
  end.

(** [many(f)(p) = p /~![f(x) || null] -seq -re-
    {v: it.slice(1) *[x.v] -seq, i: it[it.length - 1].i} /when [it.length > 1]] *)
Definition many (f : parser) : parser := fun p st =>
  match unfold f (String.length s) p st with
  | Some (it, st1) =>
      if (1 <? List.length it)%nat
      then Success (Cursor (VArr (List.map v (tl it))) (i (last it p))) st1
      else Failure st1
  | None => OutOfFuel
  end.

(** [join(ps = arguments)(p) = ps /[p][x0 && x(x0) -se [it && ns.push(it.v)]]
    -seq -re- {v: ns, i: it.i} /when.it -where [ns = []]]: the fold, with the
    cursor [x0] and the values [ns] gathered so far. *)
Fixpoint join_from (ps : list parser) (x0 : cursor) (ns : list val) (st : state)
  : reply :=
  match ps with
  | [] => Success (Cursor (VArr ns) (i x0)) st
  | x :: rest =>
      match x x0 st with
      | Success it st1 => join_from rest it (ns ++ [v it]) st1
      | Failure st1 => Failure st1
      | OutOfFuel => OutOfFuel
      end
  end.

Definition join (ps : list parser) : parser := fun p st => join_from ps p [] st.

(** [zero(p) = p] *)
Definition zero : parser := fun p st => Success p st.

(** [map(parser, f)(p) = {v: f(result.v), i: result.i} -when.result
    -where [result = parser(p)]] *)
Definition map (parser_ : parser) (f : action) : parser := fun p st =>
  match parser_ p st with
  | Success result st1 =>
      let (y, st2) := f (v result) st1 in Success (Cursor y (i result)) st2
  | Failure st1 => Failure st1
  | OutOfFuel => OutOfFuel
  end.

Definition ident : parser :=
  char "0123456789ABCDEFGHIJKLMNOPQRSTUVWXYZabcdefghijklmnopqrstuvwxyz_".
Definition digit : parser := char "0123456789".
Definition hex : parser := char "0123456789ABCDEFabcdef".
(** [number = many(digit) /-map/ "+_.join('')".qf] *)
Definition number : parser :=
  map (many digit) (fun x => ret (unary_plus (join_strings x))).

(** [end(p) = p.i === s.length && p] *)
Definition end_ : parser := fun p st =>
  if (i p =? String.length s)%nat then Success p st else Failure st.


(** *** The grammar *)

(** [settings.atom] *)
Variable settings_atom : string.

(** [star = char('*') /-map/ node], and likewise [plus] and
    [question_mark]. *)
Definition star : parser := map (char "*") leaf.
Definition plus : parser := map (char "+") leaf.
Definition question_mark : parser := map (char "?") leaf.

(** The three forms of [repetition]: [{n}] gives
    [node('{', node(_[1]), node(_[1]))], [{n,}] gives
    [node('{', node(_[1]), node(Infinity))] and [{n,m}] gives
    [node('{', node(_[1]), node(_[3]))]. *)
Definition repetition : parser :=
  alt [map (join [char "{"; number; char "}"])
         (fun x => lo <- node_ (as_datum (at_ x 1)) [] ;;
                   hi <- node_ (as_datum (at_ x 1)) [] ;;
                   n <- node_ (DStr "{") [lo; hi] ;; ret (VNode n));
       map (join [char "{"; number; char ","; char "}"])
         (fun x => lo <- node_ (as_datum (at_ x 1)) [] ;;
                   hi <- node_ DInfinity [] ;;
                   n <- node_ (DStr "{") [lo; hi] ;; ret (VNode n));
       map (join [char "{"; number; char ","; number; char "}"])
         (fun x => lo <- node_ (as_datum (at_ x 1)) [] ;;
                   hi <- node_ (as_datum (at_ x 3)) [] ;;
                   n <- node_ (DStr "{") [lo; hi] ;; ret (VNode n))].

(** The question mark is left out on purpose: it cannot be non-greedy. *)
Definition modifier : parser := alt [star; plus; repetition].

Definition non_greedy : parser := char "?".

(** [modifiers = map(modifier /-join/ non_greedy, "_[0] -se [it.data += _[1]]".qf)
    /modifier /~alt/question_mark] *)
Definition modifiers : parser :=
  alt [map (join [modifier; non_greedy])
         (fun x => ret (VNode (append_data (as_node (at_ x 0))
                                           (val_to_string (at_ x 1)))));
       modifier;
       question_mark].

(** [term = map(atom /-join/ modifiers, "_[1] -se- it.push(_[0])") /-alt/ atom] *)
Definition term_rule (atom : parser) : parser :=
  alt [map (join [atom; modifiers])
         (fun x => ret (VNode (push (as_node (at_ x 1)) (as_node (at_ x 0)))));
       atom].

(** [no_pipes = map(term /-join/ no_pipes, "node(',', _[0], _[1])".qf) /-alt/ term] *)
Definition no_pipes_rule (term no_pipes : parser) : parser :=
  alt [map (join [term; no_pipes])
         (fun x => n <- node_ (DStr ",") [as_node (at_ x 0); as_node (at_ x 1)] ;;
                   ret (VNode n));
       term].

(** [toplevel = map(no_pipes /char('|') /~join/toplevel, "node('|', _[0], _[2])".qf)
    /-alt/ no_pipes] *)
Definition toplevel_rule (no_pipes toplevel : parser) : parser :=
  alt [map (join [no_pipes; char "|"; toplevel])
         (fun x => n <- node_ (DStr "|") [as_node (at_ x 0); as_node (at_ x 2)] ;;
                   ret (VNode n));
       no_pipes].

(** Character classes.  [each] is a range [any(1) /char('-') /~join/any(1)],
    an escaped pair [char('\\') /-join/ any(1)] or one character
    [not(1, char(']'))]. *)
Definition each : parser :=
  alt [map (join [any 1; char "-"; any 1])
         (fun x => a <- node_ (as_datum (at_ x 0)) [] ;;
                   b <- node_ (as_datum (at_ x 2)) [] ;;
                   n <- node_ (DStr "-") [a; b] ;; ret (VNode n));
       map (join [char backslash; any 1])
         (fun x => n <- node_ (DStr (join_strings x)) [] ;; ret (VNode n));
       map (not_ 1 (char "]")) leaf].

(** [character_class = map(each /-join/ character_class,
    "node(',', _[0], _[1])".qf) /-alt/ each] *)
Definition character_class_rule (character_class : parser) : parser :=
  alt [map (join [each; character_class])
         (fun x => n <- node_ (DStr ",") [as_node (at_ x 0); as_node (at_ x 1)] ;;
                   ret (VNode n));
       each].

Fixpoint character_class_fuel (fuel : nat) (p : cursor) (st : state) {struct fuel}
  : reply :=
  match fuel with
  | 0 => OutOfFuel
  | S k => character_class_rule (character_class_fuel k) p st
  end.

(** Every round of [character_class] consumes a character, so the length
    of the pattern bounds its recursion. *)
Definition character_class : parser := character_class_fuel (S (String.length s)).

Definition character_not_in : parser :=
  map (join [string_ "[^"; character_class; string_ "]"])
    (fun x => n <- node_ (DStr "[^") [as_node (at_ x 1)] ;; ret (VNode n)).

Definition character_in : parser :=
  map (join [string_ "["; character_class; string_ "]"])
    (fun x => n <- node_ (DStr "[") [as_node (at_ x 1)] ;; ret (VNode n)).

Definition zero_width : parser := map (char "^$") leaf.

Definition escaped : parser :=
  map (join [char backslash;
             char ("BbWwSsDdfnrtv0*+.?|()[]{}" ++ backslash ++ "$^")])
    (fun x => n <- node_ (DStr (join_strings x)) [] ;; ret (VNode n)).

Definition escaped_slash : parser :=
  map (string_ (backslash ++ "/"))
    (fun _ => n <- node_ (DStr "/") [] ;; ret (VNode n)).

Definition control : parser :=
  map (join [string_ (backslash ++ "c"); any 1])
    (fun x => n <- node_ (DStr (join_strings x)) [] ;; ret (VNode n)).

Definition hex_code : parser :=
  map (join [string_ (backslash ++ "x"); hex; hex])
    (fun x => n <- node_ (DStr (join_strings x)) [] ;; ret (VNode n)).

Definition unicode : parser :=
  map (join [string_ (backslash ++ "u"); hex; hex; hex; hex])
    (fun x => n <- node_ (DStr (join_strings x)) [] ;; ret (VNode n)).

(** [node('\\', node(n), context.groups[n])] *)
Definition backreference_node (n : N) : M node :=
  ordinal <- node_ (DNum n) [] ;;
  target <- group_at n ;;
  node_ (DStr backslash) [ordinal; target].

(** [single_digit_backreference = map(char('\\') /-join/ digit,
    given.xs in node('\\', node(+xs[1]), context.groups[+xs[1]]))] *)
Definition single_digit_backreference : parser :=
  map (join [char backslash; digit])
    (fun xs => n <- backreference_node (to_number (val_to_string (at_ xs 1))) ;;
               ret (VNode n)).

(** [map(char('\\') /digit /~join/digit, "+'#{_[1]}#{_[2]}'".qf)] *)
Definition two_digit_ordinal : parser :=
  map (join [char backslash; digit; digit])
    (fun x => ret (VNum (to_number (val_to_string (at_ x 1) ++
                                     val_to_string (at_ x 2))))).

(** [backreference(p) = two_digit_ordinal(p) -re [it && it.v <=
    context.groups.length ? {v: node('\\', node(it.v), context.groups[it.v]),
    i: it.i} : single_digit_backreference(p)]].  The comment of the source:
    is the backreference within bounds?  If not, then reject the second
    digit. *)
Definition backreference : parser := fun p st =>
  match two_digit_ordinal p st with
  | Success it st1 =>
      match v it with
      | VNum n =>
          if (n <=? N.of_nat (List.length (groups st1)))%N
          then let (b, st2) := backreference_node n st1 in
               Success (Cursor (VNode b) (i it)) st2
          else single_digit_backreference p st1
      | _ => single_digit_backreference p st1
      end
  | Failure st1 => single_digit_backreference p st1
  | OutOfFuel => OutOfFuel
  end.

Definition dot : parser := map (char ".") leaf.
(** [other = not(1, char(')|+*?{')) /-map/ node] *)
Definition other : parser := map (not_ 1 (char ")|+*?{")) leaf.

Definition word_mode : bool := String.eqb settings_atom "word".

(** [maybe_word = settings.atom === 'word' ?
    map(many(ident), "node(_.join(''))".qf) /-alt/ other : other] *)
Definition maybe_word : parser :=
  if word_mode
  then alt [map (many ident)
              (fun x => n <- node_ (DStr (join_strings x)) [] ;; ret (VNode n));
            other]
  else other.

(** [maybe_munch_spaces = settings.atom === 'word' ?
    many(char(' ')) /-alt/ zero : zero] *)
Definition maybe_munch_spaces : parser :=
  if word_mode then alt [many (char " "); zero] else zero.

Section Atom.

(** [toplevel], as the rules of [atom] see it. *)
Variable toplevel : parser.

Definition positive_lookahead : parser :=
  map (join [string_ "(?="; toplevel; string_ ")"])
    (fun x => n <- node_ (DStr "(?=") [as_node (at_ x 1)] ;; ret (VNode n)).

Definition negative_lookahead : parser :=
  map (join [string_ "(?!"; toplevel; string_ ")"])
    (fun x => n <- node_ (DStr "(?!") [as_node (at_ x 1)] ;; ret (VNode n)).

Definition forgetful_group : parser :=
  map (join [string_ "(?:"; toplevel; string_ ")"])
    (fun x => n <- node_ (DStr "(?:") [as_node (at_ x 1)] ;; ret (VNode n)).

(** ["node('(', _[1]) -se- add_group(it)"] *)
Definition group : parser :=
  map (join [string_ "("; toplevel; string_ ")"])
    (fun x => n <- node_ (DStr "(") [as_node (at_ x 1)] ;;
              _ <- add_group n ;; ret (VNode n)).

(** [base = map(maybe_munch_spaces /-join/ alt(positive_lookahead, ...,
    maybe_word), "_[1]".qf)] *)
Definition base : parser :=
  map (join [maybe_munch_spaces;
             alt [positive_lookahead; negative_lookahead; forgetful_group; group;
                  character_not_in; character_in; zero_width; escaped;
                  escaped_slash; control; hex_code; unicode; backreference;
                  dot; maybe_word]])
    (fun x => ret (at_ x 1)).

End Atom.

(** The recursive rules.  In the source [toplevel], [term] and [atom]
    are declared forward and call one another through the variables;
    here every such call takes one unit of [fuel]. *)
Fixpoint toplevel (fuel : nat) (p : cursor) (st : state) {struct fuel} : reply :=
  match fuel with
  | 0 => OutOfFuel
  | S k => toplevel_rule (no_pipes k) (toplevel k) p st
  end
with no_pipes (fuel : nat) (p : cursor) (st : state) {struct fuel} : reply :=
  match fuel with
  | 0 => OutOfFuel
  | S k => no_pipes_rule (term k) (no_pipes k) p st
  end
with term (fuel : nat) (p : cursor) (st : state) {struct fuel} : reply :=
  match fuel with
  | 0 => OutOfFuel
  | S k => term_rule (atom k) p st
  end
with atom (fuel : nat) (p : cursor) (st : state) {struct fuel} : reply :=
  match fuel with
  | 0 => OutOfFuel
  | S k => base (toplevel k) p st
  end.

End Parse.

(** ** The methods of the syntax nodes, [regexp_methods] *)

(** [String(this.data)], the text the regular expressions of the methods
    are tested against, and [this.length]. *)
Definition text (n : node) : string :=
  match n with
  | Node _ d _ => data_to_string d
  | Undefined => ""
  end.

Definition arity (n : node) : nat :=
  match n with
  | Node _ _ xs => List.length xs
  | Undefined => 0
  end.

(** The predicates test a regular expression against the data.  Without
    the [m] flag [^] and [$] stand for the two ends of the text, so an
    expression that lists its texts is an equality with one of them, and
    [/^\(/] or [/^\[/] is a test of the first character.
    - [is_positive_lookahead: /^\(\?=$/], [is_negative_lookahead: /^\(\?!$/]
    - [is_zero_width: /^[\^\$]$|^\\[Bb]$/], or one of the lookaheads
    - [is_one_or_more: /^\+\??$/], [is_zero_or_more: /^\*\??$/],
      [is_optional: /^\?$/]
    - [is_repetition: /^[\+\*\{]\??$|^\?$/]
    - [is_character_class: /^\[/], [is_any_group: /^\(/],
      [is_group: /^\($/], [is_forgetful: /^\(\?:$/]
    - [is_backreference: /^\\$/]
    - [is_range: /^-$/], [is_disjunction: /^\|$/] and [is_join: /^,$/],
      each with [this.length === 2]
    - [is_atom: ! this.length] *)
Definition is_positive_lookahead (n : node) : bool := String.eqb (text n) "(?=".
Definition is_negative_lookahead (n : node) : bool := String.eqb (text n) "(?!".

Definition is_zero_width (n : node) : bool :=
  String.eqb (text n) "^" || String.eqb (text n) "$" ||
  String.eqb (text n) (backslash ++ "B") || String.eqb (text n) (backslash ++ "b") ||
  is_positive_lookahead n || is_negative_lookahead n.

Definition is_one_or_more (n : node) : bool :=
  String.eqb (text n) "+" || String.eqb (text n) "+?".
Definition is_zero_or_more (n : node) : bool :=
  String.eqb (text n) "*" || String.eqb (text n) "*?".
Definition is_optional (n : node) : bool := String.eqb (text n) "?".

Definition is_repetition (n : node) : bool :=
  String.eqb (text n) "+" || String.eqb (text n) "*" || String.eqb (text n) "{" ||
  String.eqb (text n) "+?" || String.eqb (text n) "*?" || String.eqb (text n) "{?" ||
  String.eqb (text n) "?".

(** [is_non_greedy: /.\?$/]: the text ends with a question mark that
    follows a character other than a line terminator. *)
Fixpoint ends_lazy (t : string) : bool :=
  match t with
  | String a rest =>
      (negb (line_terminator a) && String.eqb rest "?") || ends_lazy rest
  | EmptyString => false
  end.

Definition is_non_greedy (n : node) : bool := ends_lazy (text n).

Definition starts_with_brace (n : node) : bool := starts_with "{" (text n).

Definition is_character_class (n : node) : bool := starts_with "[" (text n).

(** [/^\\.+$/]: a backslash, then one or more characters other than line
    terminators, up to the end. *)
Definition is_single_escape (n : node) : bool :=
  match text n with
  | String a (String b rest) =>
      Ascii.eqb a (ascii_of_nat 92) &&
      negb (string_exists line_terminator (String b rest))
  | _ => false
  end.

Definition is_range (n : node) : bool :=
  String.eqb (text n) "-" && (arity n =? 2)%nat.
Definition is_atom (n : node) : bool := (arity n =? 0)%nat.
Definition is_any_group (n : node) : bool := starts_with "(" (text n).
Definition is_group (n : node) : bool := String.eqb (text n) "(".
Definition is_forgetful (n : node) : bool := String.eqb (text n) "(?:".
Definition is_backreference (n : node) : bool := String.eqb (text n) backslash.
Definition is_disjunction (n : node) : bool :=
  String.eqb (text n) "|" && (arity n =? 2)%nat.
Definition is_join (n : node) : bool :=
  String.eqb (text n) "," && (arity n =? 2)%nat.

(** [this[k]]; [Undefined] past the last child. *)
Definition child (n : node) (k : nat) : node :=
  match n with
  | Node _ _ xs => nth k xs Undefined
  | Undefined => Undefined
  end.

(** [x.data]; [None] is the TypeError of reading a property of [undefined]. *)
Definition data_of (n : node) : option datum :=
  match n with
  | Node _ d _ => Some d
  | Undefined => None
  end.

(** [repeated_child() = /^\{/.test(this.data) ? this[2] : this[0]] *)
Definition repeated_child (n : node) : node :=
  if starts_with_brace n then child n 2 else child n 0.

(** [lower_limit] and [upper_limit]; [None] is a raised error. *)
Definition lower_limit (n : node) : option datum :=
  if is_one_or_more n then Some (DNum 1)
  else if is_zero_or_more n || is_optional n then Some (DNum 0)
  else if starts_with_brace n then data_of (child n 0)
  else None.

Definition upper_limit (n : node) : option datum :=
  if is_zero_or_more n || is_one_or_more n then Some DInfinity
  else if is_optional n then Some (DNum 1)
  else if starts_with_brace n then data_of (child n 1)
  else None.

(** [/^\w{2,}$/] *)
Definition word_char (a : ascii) : bool :=
  found (indexOf "0123456789ABCDEFGHIJKLMNOPQRSTUVWXYZabcdefghijklmnopqrstuvwxyz_"
           (String a "")).

Definition is_long_word (t : string) : bool :=
  (2 <=? String.length t)%nat && string_forall word_char t.

Definition option_bind {A B : Type} (o : option A) (k : A -> option B) : option B :=
  match o with Some a => k a | None => None end.

Definition times (limit : option datum) (len : option N) : option N :=
  match limit, len with
  | Some (DNum k), Some l => Some (k * l)%N
  | _, _ => None
  end.

(** [minimum_length].  [None] stands for every outcome that is not a
    non-negative integer: a TypeError ([this[k]] is [undefined]) or a value
    that is not a finite number.  Limits held as strings do not come out of
    the parser and are outside the embedding. *)
Fixpoint minimum_length (n : node) : option N :=
  match n with
  | Undefined => None
  | Node _ d xs =>
      let this0 := match xs with c :: _ => minimum_length c | _ => None end in
      let this1 := match xs with _ :: c :: _ => minimum_length c | _ => None end in
      let this2 := match xs with _ :: _ :: c :: _ => minimum_length c | _ => None end in
      if is_zero_width n then Some 0%N
      else if is_single_escape n || is_character_class n then Some 1%N
      else if is_repetition n
           then times (lower_limit n) (if starts_with_brace n then this2 else this0)
      else if is_group n || is_forgetful n then this0
      else if is_backreference n then this1
      else if is_disjunction n
           then option_bind this0 (fun a => option_bind this1 (fun b => Some (N.min a b)))
      else if is_join n
           then option_bind this0 (fun a => option_bind this1 (fun b => Some (a + b)%N))
      else match d with
           | DStr t => Some (N.of_nat (String.length t))
           | _ => None
           end
  end.

(** The bounds of a bounded repetition, as [toString] prints them. *)
Definition bounds_to_string (n : node) : option string :=
  option_bind (data_of (child n 0)) (fun lo =>
  option_bind (data_of (child n 1)) (fun hi =>
    if datum_eqb lo hi then Some ("{" ++ data_to_string lo ++ "}")
    else if datum_eqb hi DInfinity then Some ("{" ++ data_to_string lo ++ ",}")
    else Some ("{" ++ data_to_string lo ++ "," ++ data_to_string hi ++ "}"))).

(** [toString]; [None] is a TypeError. *)
Fixpoint toString (n : node) : option string :=
  match n with
  | Undefined => None
  | Node _ d xs =>
      let this0 := match xs with c :: _ => toString c | _ => None end in
      let this1 := match xs with _ :: c :: _ => toString c | _ => None end in
      let this2 := match xs with _ :: _ :: c :: _ => toString c | _ => None end in
      if is_any_group n then option_bind this0 (fun a => Some (text n ++ a ++ ")"))
      else if is_character_class n
           then option_bind this0 (fun a => Some (text n ++ a ++ "]"))
      else if is_range n
           then option_bind this0 (fun a => option_bind this1 (fun b =>
                  Some (a ++ "-" ++ b)))
      else if is_zero_or_more n || is_one_or_more n || is_optional n
           then option_bind this0 (fun a => Some (a ++ text n))
      else if is_repetition n
           then option_bind this2 (fun a => option_bind (bounds_to_string n) (fun b =>
                  Some (a ++ b)))
      else if is_zero_width n then Some (text n)
      else if is_backreference n
           then option_bind (data_of (child n 0)) (fun o =>
                  Some (backslash ++ data_to_string o))
      else if is_disjunction n
           then option_bind this0 (fun a => option_bind this1 (fun b =>
                  Some (a ++ "|" ++ b)))
      else if is_join n
           then option_bind this0 (fun a => option_bind this1 (fun b => Some (a ++ b)))
      else if is_atom n
           then if is_long_word (text n) then Some ("(?:" ++ text n ++ ")")
                else Some (text n)
      else Some (text n)
  end.

(** ** The entry point, [regexp_parse] *)

Record flags : Type := Flags { flags_i : bool; flags_m : bool; flags_g : bool }.

(** [context = {groups: [], flags: flags}], as it stands when the parse
    returns. *)
Record context : Type := Context { context_groups : list node; context_flags : flags }.

(** The root node with the context that every node of the parse refers to. *)
Record tree : Type := Tree { root : node; tree_context : context }.

(** [i()], [m()], [g()] and [match_groups()]. *)
Definition method_i (t : tree) : bool := flags_i (context_flags (tree_context t)).
Definition method_m (t : tree) : bool := flags_m (context_flags (tree_context t)).
Definition method_g (t : tree) : bool := flags_g (context_flags (tree_context t)).
Definition match_groups (t : tree) : list node := context_groups (tree_context t).

(** The last ["/"] of a string: what comes before it and what comes after. *)
Fixpoint split_last_slash (t : string) : option (string * string) :=
  match t with
  | EmptyString => None
  | String a rest =>
      match split_last_slash rest with
      | Some (before, after) => Some (String a before, after)
      | None => if Ascii.eqb a "/" then Some (EmptyString, rest) else None
      end
  end.

Definition gim (a : ascii) : bool :=
  Ascii.eqb a "g" || Ascii.eqb a "i" || Ascii.eqb a "m".

(** [exec] of the first regular expression of [pieces] (a slash, a greedy
    run of characters other than line terminators, a slash, flags among g,
    i and m up to the end): the two captures.  The greedy run stops at the
    last slash, since no slash can stand among the flags. *)
Definition exec_delimited (r : string) : option (string * string) :=
  match r with
  | String a rest =>
      if Ascii.eqb a "/" then
        match split_last_slash rest with
        | Some (body, suffix) =>
            if string_forall gim suffix && negb (string_exists line_terminator body)
            then Some (body, suffix) else None
        | None => None
        end
      else None
  | EmptyString => None
  end.

(** [exec] of the second regular expression of [pieces] (any run of
    characters other than line terminators, from start to end): the capture. *)
Definition exec_bare (r : string) : option string :=
  if string_exists line_terminator r then None else Some r.

(** [pieces[1]] and [pieces[2]]; the latter is [undefined] ([None]) when
    the second expression matched.  The outer [None] is [pieces = null]. *)
Definition pieces (r : string) : option (string * option string) :=
  match exec_delimited r with
  | Some (body, suffix) => Some (body, Some suffix)
  | None =>
      match exec_bare r with
      | Some body => Some (body, None)
      | None => None
      end
  end.

(** [/c/.test(it)]: [test] converts its argument to a string first. *)
Definition to_string_or_undefined (it : option string) : string :=
  match it with
  | Some t => t
  | None => "undefined"
  end.

Definition test_contains (c : ascii) (it : option string) : bool :=
  string_exists (Ascii.eqb c) (to_string_or_undefined it).

Definition flags_of (it : option string) : flags :=
  Flags (test_contains "i" it) (test_contains "m" it) (test_contains "g" it).

(** [{atom: 'character'} /-$.merge/ options], read at [atom]. *)
Definition settings_atom_of (options : option string) : string :=
  match options with
  | Some a => a
  | None => "character"
  end.

(** What a call of [regexp_parse] does. *)
Inductive outcome : Type :=
| Returns (t : tree)
| Raises (message : string)
| RaisesTypeError
| FuelExhausted.

Definition failed_to_parse (r : string) : string :=
  "caterwaul.regexp(): failed to parse " ++ r.

(** Four recursive calls are made at most before a character is consumed. *)
Definition fuel_for (s : string) : nat := 4 * String.length s + 4.

Definition initial_state : state := State [] 0.
Definition initial_cursor : cursor := Cursor VUndefined 0.

Definition regexp_parse (r : string) (options : option string) : outcome :=
  match pieces r with
  | None => RaisesTypeError
  | Some (s, suffix) =>
      match join [toplevel s (settings_atom_of options) (fuel_for s); end_ s]
              initial_cursor initial_state with
      | Success it st =>
          Returns (Tree (as_node (at_ (v it) 0)) (Context (groups st) (flags_of suffix)))
      | Failure _ => Raises (failed_to_parse r)
      | OutOfFuel => FuelExhausted
      end
  end.


(** * The vocabulary of the properties *)

Local Open Scope nat_scope.

(** [covers s k P lo]: at every cursor from [lo] to the end of the pattern
    [s], [P] gives a Javascript outcome (it does not run out of fuel), and
    a result of [P] lies at least [k] characters further, within the
    pattern. *)
Definition covers (s : string) (k : nat) (P : parser) (lo : nat) : Prop :=
  forall p st, lo <= i p <= String.length s ->
    P p st <> OutOfFuel /\
    forall r st', P p st = Success r st' -> i p + k <= i r <= String.length s.

(** The sequence of a [join], from any list of values gathered so far. *)
Definition covers_seq (s : string) (k : nat) (ps : list parser) (lo : nat) : Prop :=
  forall ns, covers s k (fun p st => join_from ps p ns st) lo.

(** [stops s P]: at a cursor at or past the end of the pattern, [P] fails. *)
Definition stops (s : string) (P : parser) : Prop :=
  forall p st, String.length s <= i p -> exists st', P p st = Failure st'.

(** [refines P Q]: wherever [P] gives a Javascript outcome, [Q] gives the
    same one. *)
Definition refines (P Q : parser) : Prop :=
  forall p st, P p st <> OutOfFuel -> Q p st = P p st.

(** [stateless P]: [P] hands the state back as it received it. *)
Definition stateless (P : parser) : Prop :=
  forall p st,
    match P p st with
    | Success _ st' => st' = st
    | Failure st' => st' = st
    | OutOfFuel => True
    end.

Definition is_slash (a : ascii) : bool := Ascii.eqb a "/".

(** [extends st st']: the registry of [st'] is the one of [st] with nodes
    appended. *)
Definition extends (st st' : state) : Prop :=
  exists more, groups st' = (groups st ++ more)%list.

(** [growing P]: whatever [P] does, fail or succeed, it only appends to
    the registry. *)
Definition growing (P : parser) : Prop :=
  forall p st,
    match P p st with
    | Success _ st' => extends st st'
    | Failure st' => extends st st'
    | OutOfFuel => True
    end.

Definition growing_action (f : action) : Prop :=
  forall x st, extends st (snd (f x st)).

(** [n[k1][k2]...]: the node reached from [n] through the children. *)
Definition descend (n : node) (path : list nat) : node := fold_left child path n.

(** What [toString] prints for a node; the empty string when it raises. *)
Definition printed (n : node) : string :=
  match toString n with
  | Some t => t
  | None => ""
  end.

(** The strings of a list, each kept where it occurs first. *)
Fixpoint first_occurrences (seen xs : list string) : list string :=
  match xs with
  | [] => []
  | x :: rest =>
      if existsb (String.eqb x) seen then first_occurrences seen rest
      else x :: first_occurrences (x :: seen) rest
  end.

(** The capturing groups of a derivation: the nodes tagged with an opening
    parenthesis that hold a body, read through the children; the group a
    backreference links to is not part of the derivation at that place. *)
Fixpoint capturing_groups (n : node) : list node :=
  match n with
  | Undefined => []
  | Node _ _ xs =>
      if is_backreference n then []
      else (if is_group n && (arity n =? 1) then [n] else [])
             ++ flat_map capturing_groups xs
  end.

(** The identity of a node. *)
Definition uid_of (n : node) : option nat :=
  match n with
  | Node u _ _ => Some u
  | Undefined => None
  end.

(** [preserves Q P]: a property [Q] of the state that holds before [P]
    runs holds after it, whether [P] fails or succeeds. *)
Definition preserves (Q : state -> Prop) (P : parser) : Prop :=
  forall p st, Q st ->
    match P p st with
    | Success _ st' => Q st'
    | Failure st' => Q st'
    | OutOfFuel => True
    end.

Definition preserves_action (Q : state -> Prop) (f : action) : Prop :=
  forall x st, Q st -> Q (snd (f x st)).

(** [dead P]: [P] fails wherever it is tried, and hands the state back. *)
Definition dead (P : parser) : Prop := forall p st, P p st = Failure st.

(** A node of a capturing group: the data is an opening parenthesis and
    there is one child, the body. *)
Definition group_node (n : node) : bool := is_group n && (arity n =? 1).

(** The characters the grammar gives a meaning to, and the slash of the
    delimited form. *)
Definition special_characters : string := "()[]{}|+*?.^$/" ++ backslash.

Definition special (c : ascii) : bool :=
  string_exists (Ascii.eqb c) special_characters.

(** An ordinary character: not a special one and not a line terminator. *)
Definition ordinary (c : ascii) : bool := negb (special c) && negb (line_terminator c).

(** [literal t n]: [n] is the tree of the characters of [t], one leaf for
    each, joined to the right. *)
Fixpoint literal (t : string) (n : node) : Prop :=
  match t with
  | EmptyString => False
  | String c rest =>
      match rest with
      | EmptyString => exists u, n = Node u (DStr (String c "")) []
      | String _ _ =>
          exists u u1 n',
            n = Node u (DStr ",") [Node u1 (DStr (String c "")) []; n'] /\
            literal rest n'
      end
  end.

(** The text of [s] from the index [k] on. *)
Definition suffix (s : string) (k : nat) : string :=
  substring k (String.length s - k) s.

(** [inert s k]: at the index [k] the pattern has ended, or it has an
    ordinary character. *)
Definition inert (s : string) (k : nat) : Prop :=
  String.length s <= k \/ exists c, charAt s k = String c "" /\ ordinary c = true.

(** [yields R P]: the values of the results of [P] satisfy [R]. *)
Definition yields (R : val -> Prop) (P : parser) : Prop :=
  forall p st r st', P p st = Success r st' -> R (v r).

(** The leaves that hold the bounds of a bounded repetition: a number, or
    [Infinity], which is the upper bound left open and also the value of a
    run of digits that overflows. *)
Definition lower_leaf (n : node) : bool :=
  match n with
  | Node _ (DNum _) [] => true
  | Node _ DInfinity [] => true
  | _ => false
  end.

Definition upper_leaf (n : node) : bool :=
  match n with
  | Node _ (DNum _) [] => true
  | Node _ DInfinity [] => true
  | _ => false
  end.

(** The nodes [modifier] builds, before the body is pushed: a star or a
    plus without children, or an opening brace over the two bounds. *)
Definition plain_quantifier (q : node) : bool :=
  match q with
  | Node _ (DStr d) [] => String.eqb d "*" || String.eqb d "+"
  | Node _ (DStr d) [lo; hi] => String.eqb d "{" && lower_leaf lo && upper_leaf hi
  | _ => false
  end.

(** The nodes [modifiers] builds: those of [modifier], with a question
    mark appended to the data or not, and the lone question mark. *)
Definition quantifier (q : node) : bool :=
  match q with
  | Node _ (DStr d) [] =>
      String.eqb d "*" || String.eqb d "+" || String.eqb d "?" ||
      String.eqb d "*?" || String.eqb d "+?"
  | Node _ (DStr d) [lo; hi] =>
      (String.eqb d "{" || String.eqb d "{?") && lower_leaf lo && upper_leaf hi
  | _ => false
  end.

(** [reads_last s cs P]: the last character a result of [P] has read, the
    one before its cursor, is one of [cs]. *)
Definition reads_last (s cs : string) (P : parser) : Prop :=
  forall p st r st', P p st = Success r st' ->
    exists c, charAt s (i r - 1) = String c "" /\
              string_exists (Ascii.eqb c) cs = true.

(** A value that is a syntax node, and not [undefined]. *)
Definition proper (x : val) : Prop :=
  exists u d xs, x = VNode (Node u d xs).

(** [reads_text s P]: the value of a result of [P] is the text of the
    pattern between the cursor [P] was given and the one it returns. *)
Definition reads_text (s : string) (P : parser) : Prop :=
  forall p st r st', P p st = Success r st' ->
    i p <= i r /\ val_to_string (v r) = substring (i p) (i r - i p) s.

(** A decimal digit; its value is its code less 48, the code of ["0"]. *)
Definition decimal (c : ascii) : bool :=
  string_exists (Ascii.eqb c) "0123456789".

(** * Properties of the parser *)

(** ** The fuel covers the recursion of the grammar *)

Section Coverage.

Variable s : string.
Variable settings_atom : string.

(** A failure is a Javascript outcome and carries no result. *)
Ltac no_result :=
  split; [discriminate | let E := fresh in intros ? ? E; discriminate E].

Lemma covers_weaken (k k' : nat) (P : parser) (lo lo' : nat) :
  k' <= k -> lo <= lo' -> covers s k P lo -> covers s k' P lo'.
Proof.
  intros Hk Hlo H p st Hp.
  destruct (H p st) as [H1 H2]; [lia|].
  split; [exact H1|].
  intros r st' E. specialize (H2 r st' E). lia.
Qed.

Lemma covers_beyond (k : nat) (P : parser) (lo : nat) :
  String.length s < lo -> covers s k P lo.
Proof. intros H p st Hp. lia. Qed.

Lemma substring_length_le (t : string) (n m : nat) :
  String.length (substring n m t) <= String.length t - n.
Proof.
  revert n m. induction t as [|a t IH]; intros n m.
  - destruct n, m; simpl; lia.
  - destruct n as [|n].
    + destruct m as [|m]; simpl; [lia|]. specialize (IH 0 m). lia.
    + simpl. apply IH.
Qed.

Lemma char_covers (c : string) (lo : nat) : covers s 1 (char s c) lo.
Proof.
  intros p st Hp. unfold char.
  destruct ((i p <? String.length s) && _) eqn:E; [|no_result].
  split; [discriminate|].
  intros r st' H. inversion H; subst; simpl.
  apply andb_prop in E as [E _]. apply Nat.ltb_lt in E. lia.
Qed.

Lemma string_covers (cs : string) (lo : nat) :
  1 <= String.length cs -> covers s 1 (string_ s cs) lo.
Proof.
  intros Hcs p st Hp. unfold string_.
  destruct ((i p <? String.length s) && _) eqn:E; [|no_result].
  split; [discriminate|].
  intros r st' H. inversion H; subst; simpl.
  apply andb_prop in E as [E1 E2]. apply Nat.ltb_lt in E1.
  apply String.eqb_eq in E2.
  pose proof (substring_length_le s (i p) (String.length cs)) as L.
  unfold substr in E2. rewrite E2 in L. lia.
Qed.

Lemma any_covers (lo : nat) : covers s 1 (any s 1) lo.
Proof.
  intros p st Hp. unfold any.
  destruct (i p <? String.length s) eqn:E; [|no_result].
  split; [discriminate|].
  intros r st' H. inversion H; subst; simpl.
  apply Nat.ltb_lt in E. lia.
Qed.

Lemma not_covers (f : parser) (lo : nat) :
  covers s 0 f lo -> covers s 1 (not_ s 1 f) lo.
Proof.
  intros Hf p st Hp. unfold not_.
  destruct (String.length s <=? i p) eqn:E; [no_result|].
  apply Nat.leb_gt in E.
  destruct (Hf p st Hp) as [H1 _].
  destruct (f p st) as [r1 st1|st1|]; [no_result| |now elim H1].
  split; [discriminate|].
  intros r st' H. inversion H; subst; simpl. lia.
Qed.

Lemma zero_covers (lo : nat) : covers s 0 zero lo.
Proof.
  intros p st Hp. unfold zero. split; [discriminate|].
  intros r st' H. inversion H; subst. lia.
Qed.

Lemma alt_covers (k : nat) (ps : list parser) (lo : nat) :
  Forall (fun P => covers s k P lo) ps -> covers s k (alt ps) lo.
Proof.
  induction 1 as [|P ps HP _ IH]; intros p st Hp; simpl.
  - no_result.
  - destruct (HP p st Hp) as [H1 H2].
    destruct (P p st) as [r1 st1|st1|]; [|apply IH; exact Hp|now elim H1].
    split; [discriminate|]. intros r st' E. inversion E; subst. exact (H2 _ _ eq_refl).
Qed.

Lemma map_covers (k : nat) (P : parser) (f : action) (lo : nat) :
  covers s k P lo -> covers s k (map P f) lo.
Proof.
  intros HP p st Hp. unfold map.
  destruct (HP p st Hp) as [H1 H2].
  destruct (P p st) as [r1 st1|st1|]; [|no_result|now elim H1].
  destruct (f (v r1) st1) as [y st2].
  split; [discriminate|]. intros r st' E. inversion E; subst; simpl.
  exact (H2 _ _ eq_refl).
Qed.

Lemma covers_seq_nil (lo : nat) : covers_seq s 0 [] lo.
Proof.
  intros ns p st Hp; simpl. split; [discriminate|].
  intros r st' E. inversion E; subst; simpl. lia.
Qed.

Lemma covers_seq_cons (a b : nat) (P : parser) (rest : list parser) (lo : nat) :
  covers s a P lo -> covers_seq s b rest (lo + a) ->
  covers_seq s (a + b) (P :: rest) lo.
Proof.
  intros HP Hrest ns p st Hp; simpl.
  destruct (HP p st Hp) as [H1 H2].
  destruct (P p st) as [r1 st1|st1|]; [|no_result|now elim H1].
  specialize (H2 r1 st1 eq_refl).
  destruct (Hrest (ns ++ [v r1])%list r1 st1) as [H3 H4]; [lia|].
  split; [exact H3|].
  intros r st' E. specialize (H4 r st' E). lia.
Qed.

Lemma covers_seq_weaken (k k' : nat) (ps : list parser) (lo lo' : nat) :
  k' <= k -> lo <= lo' -> covers_seq s k ps lo -> covers_seq s k' ps lo'.
Proof. intros Hk Hlo H ns. eapply covers_weaken; eauto. Qed.

(** The two shapes of sequence in the grammar: the first parser moves
    the cursor, or it may leave it in place. *)
Lemma covers_seq_step (P : parser) (rest : list parser) (lo : nat) :
  covers s 1 P lo -> covers_seq s 0 rest (S lo) -> covers_seq s 1 (P :: rest) lo.
Proof.
  intros HP Hrest.
  apply (covers_seq_cons 1 0); [exact HP|].
  replace (lo + 1) with (S lo) by lia. exact Hrest.
Qed.

Lemma covers_seq_stay (k : nat) (P : parser) (rest : list parser) (lo : nat) :
  covers s 0 P lo -> covers_seq s k rest lo -> covers_seq s k (P :: rest) lo.
Proof.
  intros HP Hrest.
  apply (covers_seq_cons 0 k); [exact HP|].
  replace (lo + 0) with lo by lia. exact Hrest.
Qed.

Lemma join_covers (k : nat) (ps : list parser) (lo : nat) :
  covers_seq s k ps lo -> covers s k (join ps) lo.
Proof. intros H. exact (H []). Qed.

(** [many]: the unfold stops s within the budget. *)
Lemma unfold_covers (f : parser) (lo : nat) :
  covers s 1 f lo ->
  forall budget x st, lo <= i x <= String.length s ->
    String.length s - i x <= budget ->
    exists rest st',
      unfold f budget x st = Some (x :: rest, st') /\
      (forall d, i x <= i (last (x :: rest) d) <= String.length s) /\
      (rest <> [] -> forall d, i x + 1 <= i (last (x :: rest) d)).
Proof.
  intros Hf. induction budget as [|b IH]; intros x st Hx Hb; simpl.
  - destruct (Hf x st Hx) as [H1 H2].
    destruct (f x st) as [y st1|st1|]; [|exists [], st1|now elim H1].
    + specialize (H2 y st1 eq_refl). lia.
    + repeat split; simpl; try lia. intros H; contradiction.
  - destruct (Hf x st Hx) as [H1 H2].
    destruct (f x st) as [y st1|st1|]; [|exists [], st1|now elim H1].
    + specialize (H2 y st1 eq_refl).
      destruct (IH y st1) as (rest & st' & E & L1 & L2); [lia|lia|].
      rewrite E. exists (y :: rest), st'.
      split; [reflexivity|]. split.
      * intros d. specialize (L1 d).
        change (last (x :: y :: rest) d) with (last (y :: rest) d). lia.
      * intros _ d. specialize (L1 d).
        change (last (x :: y :: rest) d) with (last (y :: rest) d). lia.
    + repeat split; simpl; try lia. intros H; contradiction.
Qed.

Lemma many_covers (f : parser) (lo : nat) :
  covers s 1 f lo -> covers s 1 (many s f) lo.
Proof.
  intros Hf p st Hp. unfold many.
  destruct (unfold_covers f lo Hf (String.length s) p st Hp)
    as (rest & st' & E & L1 & L2); [lia|].
  rewrite E. destruct rest as [|y rest].
  - simpl. no_result.
  - specialize (L1 p). specialize (L2 ltac:(discriminate) p).
    simpl in *. split; [discriminate|].
    intros r st'' H. inversion H; subst. simpl. lia.
Qed.

Lemma covers_seq_rest (ps : list parser) (lo : nat) :
  Forall (fun P => covers s 0 P lo) ps -> covers_seq s 0 ps lo.
Proof.
  induction 1 as [|P ps HP _ IH].
  - apply covers_seq_nil.
  - now apply covers_seq_stay.
Qed.

Lemma covers_relax (P : parser) (lo : nat) : covers s 1 P lo -> covers s 0 P lo.
Proof. apply covers_weaken; lia. Qed.

(** The rules of the grammar, by their structure. *)
Ltac cover_step :=
  match goal with
  | H : covers s ?k ?P ?lo |- covers s ?k ?P ?lo => exact H
  | |- covers s 1 (char _ _) _ => apply char_covers
  | |- covers s 1 (any _ 1) _ => apply any_covers
  | |- covers s 0 zero _ => apply zero_covers
  | |- covers s 1 (string_ _ _) _ => apply string_covers; simpl; lia
  | |- covers s 1 (many _ _) _ => apply many_covers
  | |- covers s 1 (not_ _ 1 _) _ => apply not_covers
  | |- covers s _ (map _ _) _ => apply map_covers
  | |- covers s _ (alt _) _ => apply alt_covers
  | |- covers s 1 (join (_ :: _)) _ =>
      apply join_covers; apply covers_seq_step; [|apply covers_seq_rest]
  | |- Forall _ (_ :: _) => apply Forall_cons
  | |- Forall _ [] => apply Forall_nil
  | |- covers s 0 _ _ => apply covers_relax
  end.

Ltac cover :=
  repeat first
    [ cover_step
    | progress unfold ident, digit, hex, number, star, plus, question_mark,
        repetition, modifier, non_greedy, modifiers, each, zero_width,
        escaped, escaped_slash, control, hex_code, unicode,
        single_digit_backreference, dot, other ].

Lemma modifiers_covers (lo : nat) : covers s 1 (modifiers s) lo.
Proof. cover. Qed.

Lemma each_covers (lo : nat) : covers s 1 (each s) lo.
Proof. cover. Qed.

Lemma character_class_fuel_covers (fuel lo : nat) :
  (lo <= String.length s -> String.length s - lo < fuel) ->
  covers s 1 (character_class_fuel s fuel) lo.
Proof.
  revert lo. induction fuel as [|k IH]; intros lo Hf.
  - apply covers_beyond. lia.
  - assert (Hrec : covers s 1 (character_class_fuel s k) (S lo))
      by (apply IH; lia).
    pose proof (each_covers lo) as He.
    change (character_class_fuel s (S k))
      with (character_class_rule s (character_class_fuel s k)).
    unfold character_class_rule. cover.
Qed.

Lemma character_class_covers (lo : nat) : covers s 1 (character_class s) lo.
Proof. apply character_class_fuel_covers. lia. Qed.

Lemma single_digit_backreference_covers (lo : nat) :
  covers s 1 (single_digit_backreference s) lo.
Proof. cover. Qed.

Lemma backreference_covers (lo : nat) : covers s 1 (backreference s) lo.
Proof.
  intros p st Hp. unfold backreference.
  assert (H2d : covers s 1 (two_digit_ordinal s) lo)
    by (unfold two_digit_ordinal; cover).
  destruct (H2d p st Hp) as [H1 H2].
  pose proof (single_digit_backreference_covers lo p) as Hs.
  destruct (two_digit_ordinal s p st) as [it st1|st1|];
    [| now apply Hs | now elim H1].
  specialize (H2 it st1 eq_refl).
  destruct (v it); try now apply Hs.
  destruct (n <=? N.of_nat (List.length (groups st1)))%N; [|now apply Hs].
  destruct (backreference_node n st1) as [b st2].
  split; [discriminate|]. intros r st' E. inversion E; subst. exact H2.
Qed.

Lemma maybe_word_covers (lo : nat) : covers s 1 (maybe_word s settings_atom) lo.
Proof. unfold maybe_word. destruct (word_mode settings_atom); cover. Qed.

Lemma maybe_munch_spaces_covers (lo : nat) :
  covers s 0 (maybe_munch_spaces s settings_atom) lo.
Proof.
  unfold maybe_munch_spaces. destruct (word_mode settings_atom); cover.
Qed.

Lemma base_covers (toplevel_ : parser) (lo : nat) :
  covers s 1 toplevel_ (S lo) -> covers s 1 (base s settings_atom toplevel_) lo.
Proof.
  intros Ht. unfold base.
  apply map_covers, join_covers.
  apply covers_seq_stay; [apply maybe_munch_spaces_covers|].
  apply (covers_seq_cons 1 0); [|apply covers_seq_nil].
  pose proof (character_class_covers (S lo)) as Hc.
  pose proof (backreference_covers lo) as Hb.
  pose proof (maybe_word_covers lo) as Hw.
  unfold positive_lookahead, negative_lookahead, forgetful_group, group,
    character_not_in, character_in.
  cover.
Qed.

(** Four units of fuel for every character left, and four more. *)
Lemma grammar_covers (fuel lo : nat) :
  (lo <= String.length s -> 4 * (String.length s - lo) < fuel ->
     covers s 1 (atom s settings_atom fuel) lo) /\
  (lo <= String.length s -> 4 * (String.length s - lo) + 1 < fuel ->
     covers s 1 (term s settings_atom fuel) lo) /\
  (lo <= String.length s -> 4 * (String.length s - lo) + 2 < fuel ->
     covers s 1 (no_pipes s settings_atom fuel) lo) /\
  (lo <= String.length s -> 4 * (String.length s - lo) + 3 < fuel ->
     covers s 1 (toplevel s settings_atom fuel) lo).
Proof.
  revert lo. induction fuel as [|k IH]; intros lo.
  - split; [|split; [|split]]; intros; lia.
  - assert (Hin : forall lo', lo' <= String.length s \/ String.length s < lo')
      by (intros; lia).
    split; [|split; [|split]]; intros Hlo Hf.
    + change (atom s settings_atom (S k))
        with (base s settings_atom (toplevel s settings_atom k)).
      apply base_covers.
      destruct (Hin (S lo)); [|now apply covers_beyond].
      apply IH; lia.
    + change (term s settings_atom (S k))
        with (term_rule s (atom s settings_atom k)).
      assert (Ha : covers s 1 (atom s settings_atom k) lo) by (apply IH; lia).
      pose proof (modifiers_covers (S lo)) as Hm.
      unfold term_rule. cover.
    + change (no_pipes s settings_atom (S k))
        with (no_pipes_rule (term s settings_atom k) (no_pipes s settings_atom k)).
      assert (Ha : covers s 1 (term s settings_atom k) lo) by (apply IH; lia).
      assert (Hb : covers s 1 (no_pipes s settings_atom k) (S lo)).
      { destruct (Hin (S lo)); [|now apply covers_beyond]. apply IH; lia. }
      unfold no_pipes_rule. cover.
    + change (toplevel s settings_atom (S k))
        with (toplevel_rule s (no_pipes s settings_atom k)
                (toplevel s settings_atom k)).
      assert (Ha : covers s 1 (no_pipes s settings_atom k) lo) by (apply IH; lia).
      assert (Hb : covers s 1 (toplevel s settings_atom k) (S lo)).
      { destruct (Hin (S lo)); [|now apply covers_beyond]. apply IH; lia. }
      unfold toplevel_rule. cover.
Qed.

Lemma toplevel_covers : covers s 1 (toplevel s settings_atom (fuel_for s)) 0.
Proof. apply grammar_covers; unfold fuel_for; lia. Qed.

End Coverage.

(** [regexp_parse] always has a Javascript outcome. *)
Lemma regexp_parse_total (r : string) (options : option string) :
  regexp_parse r options <> FuelExhausted.
Proof.
  unfold regexp_parse.
  destruct (pieces r) as [[s suffix]|]; [|discriminate].
  unfold join; simpl.
  destruct (toplevel_covers s (settings_atom_of options)
              initial_cursor initial_state) as [H1 _]; [simpl; lia|].
  destruct (toplevel _ _ _ _ _) as [it st|st|]; [|discriminate|now elim H1].
  unfold end_. destruct (i it =? String.length s); discriminate.
Qed.

(** ** More fuel does not change an outcome *)

Section Fuel.

Variable s : string.
Variable settings_atom : string.

Lemma refines_refl (P : parser) : refines P P.
Proof. intros p st _. reflexivity. Qed.

Lemma alt_refines (ps qs : list parser) :
  Forall2 refines ps qs -> refines (alt ps) (alt qs).
Proof.
  induction 1 as [|P Q ps qs HPQ _ IH]; intros p st H; simpl in *.
  - reflexivity.
  - specialize (HPQ p st).
    destruct (P p st) as [r st1|st1|].
    + rewrite HPQ by discriminate. reflexivity.
    + rewrite HPQ by discriminate. now apply IH.
    + now elim H.
Qed.

Lemma join_from_refines (ps qs : list parser) :
  Forall2 refines ps qs ->
  forall ns, refines (fun p st => join_from ps p ns st)
                     (fun p st => join_from qs p ns st).
Proof.
  induction 1 as [|P Q ps qs HPQ _ IH]; intros ns p st H; simpl in *.
  - reflexivity.
  - specialize (HPQ p st).
    destruct (P p st) as [r st1|st1|].
    + rewrite HPQ by discriminate. now apply IH.
    + rewrite HPQ by discriminate. reflexivity.
    + now elim H.
Qed.

Lemma join_refines (ps qs : list parser) :
  Forall2 refines ps qs -> refines (join ps) (join qs).
Proof. intros H. exact (join_from_refines ps qs H []). Qed.

Lemma map_refines (P Q : parser) (f : action) :
  refines P Q -> refines (map P f) (map Q f).
Proof.
  intros HPQ p st H. unfold map in *. specialize (HPQ p st).
  destruct (P p st) as [r st1|st1|].
  - rewrite HPQ by discriminate. reflexivity.
  - rewrite HPQ by discriminate. reflexivity.
  - now elim H.
Qed.

Ltac refine_step :=
  match goal with
  | H : refines ?P ?Q |- refines ?P ?Q => exact H
  | |- refines (map _ _) (map _ _) => apply map_refines
  | |- refines (join _) (join _) => apply join_refines
  | |- refines (alt _) (alt _) => apply alt_refines
  | |- Forall2 _ (_ :: _) (_ :: _) => apply Forall2_cons
  | |- Forall2 _ [] [] => apply Forall2_nil
  | |- refines ?P ?P => apply refines_refl
  end.

Lemma base_refines (T T' : parser) :
  refines T T' -> refines (base s settings_atom T) (base s settings_atom T').
Proof.
  intros H.
  unfold base, positive_lookahead, negative_lookahead, forgetful_group, group.
  repeat refine_step.
Qed.

Lemma grammar_refines (fuel fuel' : nat) :
  fuel <= fuel' ->
  refines (atom s settings_atom fuel) (atom s settings_atom fuel') /\
  refines (term s settings_atom fuel) (term s settings_atom fuel') /\
  refines (no_pipes s settings_atom fuel) (no_pipes s settings_atom fuel') /\
  refines (toplevel s settings_atom fuel) (toplevel s settings_atom fuel').
Proof.
  revert fuel'. induction fuel as [|k IH]; intros fuel' Hle.
  - repeat split; intros p st H; now elim H.
  - destruct fuel' as [|k']; [lia|].
    destruct (IH k' ltac:(lia)) as (Ha & Ht & Hn & Hp).
    split; [|split; [|split]].
    + change (refines (base s settings_atom (toplevel s settings_atom k))
                      (base s settings_atom (toplevel s settings_atom k'))).
      now apply base_refines.
    + change (refines (term_rule s (atom s settings_atom k))
                      (term_rule s (atom s settings_atom k'))).
      unfold term_rule. repeat refine_step.
    + change (refines (no_pipes_rule (term s settings_atom k)
                                     (no_pipes s settings_atom k))
                      (no_pipes_rule (term s settings_atom k')
                                     (no_pipes s settings_atom k'))).
      unfold no_pipes_rule. repeat refine_step.
    + change (refines (toplevel_rule s (no_pipes s settings_atom k)
                                       (toplevel s settings_atom k))
                      (toplevel_rule s (no_pipes s settings_atom k')
                                       (toplevel s settings_atom k'))).
      unfold toplevel_rule. repeat refine_step.
Qed.

(** Whatever [toplevel] returns with some fuel, it returns with the fuel
    of [regexp_parse]. *)
Lemma toplevel_fuel (fuel : nat) (p : cursor) (st : state) :
  i p <= String.length s ->
  toplevel s settings_atom fuel p st <> OutOfFuel ->
  toplevel s settings_atom fuel p st
    = toplevel s settings_atom (fuel_for s) p st.
Proof.
  intros Hp H.
  destruct (Nat.le_ge_cases fuel (fuel_for s)) as [L|L].
  - symmetry. now apply (grammar_refines fuel (fuel_for s) L).
  - apply (grammar_refines (fuel_for s) fuel L).
    destruct (grammar_covers s settings_atom (fuel_for s) (i p))
      as (_ & _ & _ & C).
    apply C; unfold fuel_for; lia.
Qed.

End Fuel.

(** ** At the end of the pattern every rule fails *)

Section AtEnd.

Variable s : string.
Variable settings_atom : string.

Lemma char_stops (c : string) : stops s (char s c).
Proof.
  intros p st Hp. unfold char.
  replace (i p <? String.length s) with false
    by (symmetry; apply Nat.ltb_ge; exact Hp).
  now exists st.
Qed.

Lemma string_stops (cs : string) : stops s (string_ s cs).
Proof.
  intros p st Hp. unfold string_.
  replace (i p <? String.length s) with false
    by (symmetry; apply Nat.ltb_ge; exact Hp).
  now exists st.
Qed.

Lemma any_stops (n : nat) : stops s (any s n).
Proof.
  intros p st Hp. unfold any.
  replace (i p <? String.length s) with false
    by (symmetry; apply Nat.ltb_ge; exact Hp).
  now exists st.
Qed.

Lemma not_stops (n : nat) (f : parser) : stops s (not_ s n f).
Proof.
  intros p st Hp. unfold not_.
  replace (String.length s <=? i p) with true
    by (symmetry; apply Nat.leb_le; exact Hp).
  now exists st.
Qed.

Lemma map_stops (P : parser) (f : action) : stops s P -> stops s (map P f).
Proof.
  intros HP p st Hp. unfold map.
  destruct (HP p st Hp) as [st' E]. rewrite E. now exists st'.
Qed.

Lemma join_stops (P : parser) (rest : list parser) :
  stops s P -> stops s (join (P :: rest)).
Proof.
  intros HP p st Hp. unfold join; simpl.
  destruct (HP p st Hp) as [st' E]. rewrite E. now exists st'.
Qed.

Lemma alt_stops (ps : list parser) : Forall (stops s) ps -> stops s (alt ps).
Proof.
  induction 1 as [|P ps HP _ IH]; intros p st Hp; simpl.
  - now exists st.
  - destruct (HP p st Hp) as [st' E]. rewrite E. now apply IH.
Qed.

Lemma many_stops (f : parser) : stops s f -> stops s (many s f).
Proof.
  intros Hf p st Hp. unfold many.
  destruct (Hf p st Hp) as [st' E].
  assert (U : unfold f (String.length s) p st = Some ([p], st'))
    by (destruct (String.length s); simpl; now rewrite E).
  rewrite U. now exists st'.
Qed.

Ltac stop_step :=
  match goal with
  | H : stops s ?P |- stops s ?P => exact H
  | |- stops s (char _ _) => apply char_stops
  | |- stops s (string_ _ _) => apply string_stops
  | |- stops s (any _ _) => apply any_stops
  | |- stops s (not_ _ _ _) => apply not_stops
  | |- stops s (many _ _) => apply many_stops
  | |- stops s (map _ _) => apply map_stops
  | |- stops s (join (_ :: _)) => apply join_stops
  | |- stops s (alt _) => apply alt_stops
  | |- Forall _ (_ :: _) => apply Forall_cons
  | |- Forall _ [] => apply Forall_nil
  end.

Ltac stop :=
  repeat first
    [ stop_step
    | progress unfold ident, digit, hex, number, star, plus, question_mark,
        zero_width, escaped, escaped_slash, control, hex_code, unicode,
        single_digit_backreference, dot, other, character_not_in,
        character_in, positive_lookahead, negative_lookahead,
        forgetful_group, group ].

Lemma backreference_stops : stops s (backreference s).
Proof.
  intros p st Hp. unfold backreference.
  assert (H2d : stops s (two_digit_ordinal s))
    by (unfold two_digit_ordinal; stop).
  destruct (H2d p st Hp) as [st1 E]. rewrite E.
  assert (Hs : stops s (single_digit_backreference s)) by stop.
  exact (Hs p st1 Hp).
Qed.

Lemma maybe_word_stops : stops s (maybe_word s settings_atom).
Proof. unfold maybe_word. destruct (word_mode settings_atom); stop. Qed.

(** [maybe_munch_spaces] leaves a cursor at the end where it is. *)
Lemma maybe_munch_spaces_passes (p : cursor) (st : state) :
  String.length s <= i p ->
  exists st', maybe_munch_spaces s settings_atom p st = Success p st'.
Proof.
  intros Hp. unfold maybe_munch_spaces.
  destruct (word_mode settings_atom); [|now exists st].
  assert (Hm : stops s (many s (char s " "))) by stop.
  destruct (Hm p st Hp) as [st' E]. simpl. rewrite E. now exists st'.
Qed.

(** Every alternative of [atom] asks for a character. *)
Lemma base_stops (toplevel_ : parser) : stops s (base s settings_atom toplevel_).
Proof.
  intros p st Hp. unfold base, map, join; simpl.
  destruct (maybe_munch_spaces_passes p st Hp) as [st1 E]. rewrite E.
  pose proof backreference_stops as Hb.
  pose proof maybe_word_stops as Hw.
  assert (Ha : stops s
            (alt [positive_lookahead s toplevel_; negative_lookahead s toplevel_;
                  forgetful_group s toplevel_; group s toplevel_;
                  character_not_in s; character_in s; zero_width s; escaped s;
                  escaped_slash s; control s; hex_code s; unicode s;
                  backreference s; dot s; maybe_word s settings_atom]))
    by stop.
  destruct (Ha p st1 Hp) as [st2 E2].
  simpl in E2. rewrite E2. now exists st2.
Qed.

Lemma toplevel_stops (fuel : nat) :
  4 <= fuel -> stops s (toplevel s settings_atom fuel).
Proof.
  intros Hf.
  destruct fuel as [|[|[|[|k]]]]; try lia.
  pose proof (base_stops (toplevel s settings_atom k)) as Ha.
  change (stops s (atom s settings_atom (S k))) in Ha.
  assert (Ht : stops s (term s settings_atom (S (S k))))
    by (change (stops s (term_rule s (atom s settings_atom (S k))));
        unfold term_rule; stop).
  assert (Hn : stops s (no_pipes s settings_atom (S (S (S k)))))
    by (change (stops s (no_pipes_rule (term s settings_atom (S (S k)))
                         (no_pipes s settings_atom (S (S k)))));
        unfold no_pipes_rule; stop).
  change (stops s (toplevel_rule s (no_pipes s settings_atom (S (S (S k))))
                   (toplevel s settings_atom (S (S (S k)))))).
  unfold toplevel_rule. stop.
Qed.

End AtEnd.

(** ** The two forms of the input *)

Lemma split_last_slash_none (t : string) :
  split_last_slash t = None <-> string_exists is_slash t = false.
Proof.
  induction t as [|a t IH]; simpl; [tauto|].
  destruct (split_last_slash t) as [[before after]|].
  - assert (E : string_exists is_slash t = true).
    { destruct (string_exists is_slash t); [reflexivity|].
      destruct IH as [_ IH]. discriminate (IH eq_refl). }
    rewrite E, orb_true_r. split; discriminate.
  - destruct IH as [IH _]. rewrite (IH eq_refl), orb_false_r.
    unfold is_slash.
    destruct (Ascii.eqb a "/"); split; intros H; try discriminate H; reflexivity.
Qed.

Lemma split_last_slash_spec (t before after : string) :
  split_last_slash t = Some (before, after) <->
  t = before ++ String "/" after /\ string_exists is_slash after = false.
Proof.
  revert before after. induction t as [|a t IH]; intros before after; simpl.
  - split; [discriminate|]. intros [E _]. destruct before; discriminate E.
  - destruct (split_last_slash t) as [[b1 a1]|] eqn:S.
    + destruct (proj1 (IH b1 a1) eq_refl) as [Et Ea].
      split.
      * intros H. inversion H; subst before after.
        split; [simpl; congruence|exact Ea].
      * intros [E Ha]. destruct before as [|c before]; simpl in E.
        -- inversion E; subst after.
           apply split_last_slash_none in Ha. congruence.
        -- inversion E as [[Ec Et']].
           pose proof (proj2 (IH before after) (conj Et' Ha)) as S'.
           congruence.
    + pose proof (proj1 (split_last_slash_none t) S) as N.
      destruct (Ascii.eqb a "/") eqn:A.
      * apply Ascii.eqb_eq in A. subst a. split.
        -- intros H. inversion H; subst before after.
           split; [reflexivity|exact N].
        -- intros [E Ha]. destruct before as [|c before]; simpl in E.
           ++ inversion E; subst after. reflexivity.
           ++ inversion E as [[Ec Et']].
              pose proof (proj2 (IH before after) (conj Et' Ha)) as S'.
              discriminate S'.
      * split; [discriminate|].
        intros [E Ha]. destruct before as [|c before]; simpl in E.
        -- inversion E as [[Ec Et']]. subst a.
           rewrite Ascii.eqb_refl in A. discriminate A.
        -- inversion E as [[Ec Et']].
           pose proof (proj2 (IH before after) (conj Et' Ha)) as S'.
           discriminate S'.
Qed.

Lemma flags_hold_no_slash (t : string) :
  string_forall gim t = true -> string_exists is_slash t = false.
Proof.
  induction t as [|a t IH]; simpl; [reflexivity|].
  intros H. apply andb_prop in H as [G H]. rewrite (IH H), orb_false_r.
  unfold gim in G. unfold is_slash.
  destruct (Ascii.eqb a "/") eqn:A; [|reflexivity].
  apply Ascii.eqb_eq in A. subst a. discriminate G.
Qed.

(** [exec_delimited] matches the inputs of the form [/pattern/flags]: a
    slash, a pattern without line terminators, a slash, flags among g, i
    and m; the captures are the pattern and the flags. *)
Lemma exec_delimited_spec (r body suffix : string) :
  exec_delimited r = Some (body, suffix) <->
  r = String "/" (body ++ String "/" suffix) /\
  string_forall gim suffix = true /\
  string_exists line_terminator body = false.
Proof.
  unfold exec_delimited. destruct r as [|a rest].
  - split; [discriminate|]. intros [E _]. discriminate E.
  - destruct (Ascii.eqb a "/") eqn:A.
    + apply Ascii.eqb_eq in A. subst a.
      destruct (split_last_slash rest) as [[b1 a1]|] eqn:S.
      * apply split_last_slash_spec in S as [Er Ea].
        destruct (string_forall gim a1 && negb (string_exists line_terminator b1))
          eqn:C.
        -- apply andb_prop in C as [C1 C2]. apply negb_true_iff in C2.
           split.
           ++ intros H. inversion H; subst. repeat split; assumption.
           ++ intros (E & G & L). inversion E as [E'].
              assert (S' : split_last_slash rest = Some (body, suffix))
                by (apply split_last_slash_spec; split;
                    [congruence|now apply flags_hold_no_slash]).
              assert (S'' : split_last_slash rest = Some (b1, a1))
                by (apply split_last_slash_spec; now split).
              congruence.
        -- split; [discriminate|].
           intros (E & G & L). inversion E as [E'].
           assert (S' : split_last_slash rest = Some (body, suffix))
             by (apply split_last_slash_spec; split;
                 [congruence|now apply flags_hold_no_slash]).
           assert (S'' : split_last_slash rest = Some (b1, a1))
             by (apply split_last_slash_spec; now split).
           rewrite S' in S''. inversion S''; subst b1 a1.
           rewrite G, L in C. discriminate C.
      * split; [discriminate|].
        intros (E & G & L). inversion E as [E'].
        assert (S' : split_last_slash rest = Some (body, suffix))
          by (apply split_last_slash_spec; split;
              [congruence|now apply flags_hold_no_slash]).
        congruence.
    + split; [discriminate|].
      intros (E & _). inversion E; subst a. discriminate A.
Qed.

(** ** Backreferences *)

Lemma char_stateless (s c : string) : stateless (char s c).
Proof. intros p st. unfold char. now destruct (_ && _). Qed.

Lemma join_from_stateless (ps : list parser) :
  Forall stateless ps ->
  forall ns, stateless (fun p st => join_from ps p ns st).
Proof.
  induction 1 as [|P ps HP _ IH]; intros ns p st; simpl; [reflexivity|].
  specialize (HP p st).
  destruct (P p st) as [r st1|st1|]; [|exact HP|exact I].
  subst st1. apply IH.
Qed.

Lemma join_stateless (ps : list parser) :
  Forall stateless ps -> stateless (join ps).
Proof. intros H. exact (join_from_stateless ps H []). Qed.

(** What [backreference_node] builds: the node links to the entry of the
    registry at index [n], counted from zero; the registry is left as it
    was. *)
Lemma backreference_node_spec (n : N) (st : state) :
  backreference_node n st =
    (Node (S (next_uid st)) (DStr backslash)
       [Node (next_uid st) (DNum n) []; nth (N.to_nat n) (groups st) Undefined],
     State (groups st) (S (S (next_uid st)))).
Proof. reflexivity. Qed.

(** Every backreference the parser accepts, on either reading, is such a
    node: for the ordinal [n] it holds [context.groups[n]], the entry
    after the n-th one, or [undefined] when the registry has [n] entries
    or fewer. *)
Lemma backreference_links (s : string) (p it : cursor) (st st' : state) :
  backreference s p st = Success it st' ->
  exists n,
    v it = VNode (Node (S (next_uid st)) (DStr backslash)
                    [Node (next_uid st) (DNum n) [];
                     nth (N.to_nat n) (groups st) Undefined]) /\
    groups st' = groups st.
Proof.
  assert (Single : forall it1 st1,
            single_digit_backreference s p st = Success it1 st1 ->
            exists n,
              v it1 = VNode (Node (S (next_uid st)) (DStr backslash)
                               [Node (next_uid st) (DNum n) [];
                                nth (N.to_nat n) (groups st) Undefined]) /\
              groups st1 = groups st).
  { intros it1 st1. unfold single_digit_backreference, map.
    pose proof (join_stateless [char s backslash; digit s]
                  ltac:(repeat constructor; apply char_stateless) p st) as J.
    destruct (join _ p st) as [r st2|st2|]; try discriminate.
    subst st2. intros H. inversion H; subst.
    eexists. split; reflexivity. }
  unfold backreference, two_digit_ordinal, map.
  pose proof (join_stateless [char s backslash; digit s; digit s]
                ltac:(repeat constructor; apply char_stateless) p st) as J.
  destruct (join _ p st) as [r st2|st2|]; try discriminate.
  - subst st2. cbn [ret v i].
    destruct (_ <=? _)%N; [|apply Single].
    intros H. inversion H; subst. eexists. split; reflexivity.
  - subst st2. apply Single.
Qed.

Lemma char_result (s c : string) (p r : cursor) (st st' : state) :
  char s c p st = Success r st' -> i r = i p + 1 /\ st' = st.
Proof.
  unfold char. destruct (_ && _); [|discriminate].
  intros H. inversion H; subst. now split.
Qed.

(** The rule of the two-digit reading.  Where a backslash and two digits
    stand, of value [n]: [backreference] takes all three characters, with
    ordinal [n], when [n] is at most the length of the registry (which
    counts every node registered so far, those of abandoned alternatives
    among them); otherwise it takes the backslash and the first digit
    only. *)
Lemma two_digit_reading (s : string) (p r : cursor) (st st1 : state) :
  two_digit_ordinal s p st = Success r st1 ->
  exists n it st',
    v r = VNum n /\ i r = i p + 3 /\
    backreference s p st = Success it st' /\
    if (n <=? N.of_nat (List.length (groups st)))%N
    then i it = i p + 3 /\ data_of (child (as_node (v it)) 0) = Some (DNum n)
    else i it = i p + 2.
Proof.
  intros H. unfold backreference. rewrite H.
  unfold two_digit_ordinal, map, join in H. cbn [join_from] in H.
  destruct (char s backslash p st) as [r1 st2|st2|] eqn:C1; try discriminate H.
  destruct (digit s r1 st2) as [r2 st3|st3|] eqn:C2; try discriminate H.
  destruct (digit s r2 st3) as [r3 st4|st4|] eqn:C3; try discriminate H.
  unfold digit in C2, C3.
  destruct (char_result _ _ _ _ _ _ C1) as [I1 S1].
  destruct (char_result _ _ _ _ _ _ C2) as [I2 S2].
  destruct (char_result _ _ _ _ _ _ C3) as [I3 S3]. subst st2 st3 st4.
  cbn [ret] in H. inversion H; subst r st1. cbn [v i].
  exists (to_number (val_to_string (v r2) ++ val_to_string (v r3))).
  destruct (_ <=? _)%N.
  - eexists. eexists.
    split; [reflexivity|]. split; [lia|].
    split; [reflexivity|]. cbn [v i]. split; [lia|reflexivity].
  - unfold single_digit_backreference, map, join. cbn [join_from].
    unfold digit. rewrite C1, C2.
    eexists. eexists.
    split; [reflexivity|]. split; [lia|].
    split; [reflexivity|]. cbn [v i]. lia.
Qed.

(** ** The registry is append-only *)

Section Registry.

Variable s : string.
Variable settings_atom : string.

Lemma extends_refl (st : state) : extends st st.
Proof. exists []. now rewrite app_nil_r. Qed.

Lemma extends_trans (a b c : state) : extends a b -> extends b c -> extends a c.
Proof.
  intros [m1 E1] [m2 E2]. exists (m1 ++ m2)%list.
  now rewrite E2, E1, app_assoc.
Qed.

Lemma char_growing (c : string) : growing (char s c).
Proof. intros p st. unfold char. destruct (_ && _); apply extends_refl. Qed.

Lemma string_growing (cs : string) : growing (string_ s cs).
Proof. intros p st. unfold string_. destruct (_ && _); apply extends_refl. Qed.

Lemma any_growing (n : nat) : growing (any s n).
Proof. intros p st. unfold any. destruct (_ <? _); apply extends_refl. Qed.

Lemma zero_growing : growing zero.
Proof. intros p st. apply extends_refl. Qed.

Lemma not_growing (n : nat) (f : parser) : growing f -> growing (not_ s n f).
Proof.
  intros Hf p st. unfold not_.
  destruct (_ <=? _); [apply extends_refl|].
  specialize (Hf p st). now destruct (f p st).
Qed.

Lemma alt_growing (ps : list parser) : Forall growing ps -> growing (alt ps).
Proof.
  induction 1 as [|P ps HP _ IH]; intros p st; simpl.
  - apply extends_refl.
  - specialize (HP p st). destruct (P p st) as [r st1|st1|]; [exact HP| |exact I].
    specialize (IH p st1).
    destruct (alt ps p st1); try exact I; eapply extends_trans; eauto.
Qed.

Lemma join_from_growing (ps : list parser) :
  Forall growing ps -> forall ns, growing (fun p st => join_from ps p ns st).
Proof.
  induction 1 as [|P ps HP _ IH]; intros ns p st; simpl.
  - apply extends_refl.
  - specialize (HP p st). destruct (P p st) as [r st1|st1|]; [|exact HP|exact I].
    specialize (IH (ns ++ [v r])%list r st1). cbv beta in IH.
    destruct (join_from ps r _ st1); try exact I; eapply extends_trans; eauto.
Qed.

Lemma join_growing (ps : list parser) : Forall growing ps -> growing (join ps).
Proof. intros H. exact (join_from_growing ps H []). Qed.

Lemma map_growing (P : parser) (f : action) :
  growing P -> growing_action f -> growing (map P f).
Proof.
  intros HP Hf p st. unfold map. specialize (HP p st).
  destruct (P p st) as [r st1|st1|]; [|exact HP|exact I].
  specialize (Hf (v r) st1). destruct (f (v r) st1) as [y st2].
  eapply extends_trans; eauto.
Qed.

Lemma unfold_growing (f : parser) :
  growing f ->
  forall budget x st,
    match unfold f budget x st with
    | Some (_, st') => extends st st'
    | None => True
    end.
Proof.
  intros Hf. induction budget as [|b IH]; intros x st; simpl;
    specialize (Hf x st); destruct (f x st) as [y st1|st1|]; try exact I;
    try exact Hf.
  specialize (IH y st1).
  destruct (unfold f b y st1) as [[rest st2]|]; [|exact I].
  eapply extends_trans; eauto.
Qed.

Lemma many_growing (f : parser) : growing f -> growing (many s f).
Proof.
  intros Hf p st. unfold many.
  pose proof (unfold_growing f Hf (String.length s) p st) as U.
  destruct (unfold _ _ _ _) as [[it st1]|]; [|exact I].
  now destruct (1 <? _).
Qed.

(** The actions of the grammar leave the registry alone, but for the one
    of [group], which appends the node it has built. *)
Ltac action_grows :=
  unfold growing_action, extends; intros ? ?; simpl;
  first [exists []; now rewrite app_nil_r | eexists; reflexivity].

Ltac grow_step :=
  match goal with
  | H : growing ?P |- growing ?P => exact H
  | |- growing (char _ _) => apply char_growing
  | |- growing (string_ _ _) => apply string_growing
  | |- growing (any _ _) => apply any_growing
  | |- growing zero => apply zero_growing
  | |- growing (not_ _ _ _) => apply not_growing
  | |- growing (many _ _) => apply many_growing
  | |- growing (map _ _) => apply map_growing
  | |- growing (join _) => apply join_growing
  | |- growing (alt _) => apply alt_growing
  | |- Forall _ (_ :: _) => apply Forall_cons
  | |- Forall _ [] => apply Forall_nil
  | |- growing_action _ => action_grows
  end.

Ltac grow :=
  repeat first
    [ grow_step
    | progress unfold ident, digit, hex, number, star, plus, question_mark,
        repetition, modifier, non_greedy, modifiers, each, zero_width,
        escaped, escaped_slash, control, hex_code, unicode,
        single_digit_backreference, two_digit_ordinal, dot, other,
        character_not_in, character_in, positive_lookahead,
        negative_lookahead, forgetful_group, group ].

Lemma character_class_growing : growing (character_class s).
Proof.
  unfold character_class. generalize (S (String.length s)) as fuel.
  induction fuel as [|k IH]; [intros p st; exact I|].
  change (growing (character_class_rule s (character_class_fuel s k))).
  unfold character_class_rule. grow.
Qed.

Lemma backreference_growing : growing (backreference s).
Proof.
  intros p st. unfold backreference.
  assert (H2 : growing (two_digit_ordinal s)) by grow.
  assert (H1 : growing (single_digit_backreference s)) by grow.
  specialize (H2 p st).
  destruct (two_digit_ordinal s p st) as [it st1|st1|]; [| |exact I].
  - assert (Hs : match single_digit_backreference s p st1 with
                 | Success _ st' => extends st st'
                 | Failure st' => extends st st'
                 | OutOfFuel => True
                 end).
    { specialize (H1 p st1).
      destruct (single_digit_backreference s p st1); try exact I;
        eapply extends_trans; eauto. }
    destruct (v it); try exact Hs.
    destruct (_ <=? _)%N; [|exact Hs].
    rewrite backreference_node_spec.
    eapply extends_trans; [exact H2|]. exists []. simpl. now rewrite app_nil_r.
  - specialize (H1 p st1).
    destruct (single_digit_backreference s p st1); try exact I;
      eapply extends_trans; eauto.
Qed.

Lemma base_growing (toplevel_ : parser) :
  growing toplevel_ -> growing (base s settings_atom toplevel_).
Proof.
  intros Ht. pose proof character_class_growing as Hc.
  pose proof backreference_growing as Hb.
  unfold base, maybe_munch_spaces, maybe_word.
  destruct (word_mode settings_atom); grow.
Qed.

(** [groups] is append-only during a parse: every rule, whether it fails
    or succeeds, hands back the registry it received with nodes appended. *)
Lemma grammar_growing (fuel : nat) :
  growing (atom s settings_atom fuel) /\
  growing (term s settings_atom fuel) /\
  growing (no_pipes s settings_atom fuel) /\
  growing (toplevel s settings_atom fuel).
Proof.
  induction fuel as [|k (Ha & Ht & Hn & Hp)].
  - repeat split; intros p st; exact I.
  - split; [|split; [|split]].
    + change (growing (base s settings_atom (toplevel s settings_atom k))).
      now apply base_growing.
    + change (growing (term_rule s (atom s settings_atom k))).
      unfold term_rule. grow.
    + change (growing (no_pipes_rule (term s settings_atom k)
                         (no_pipes s settings_atom k))).
      unfold no_pipes_rule. grow.
    + change (growing (toplevel_rule s (no_pipes s settings_atom k)
                         (toplevel s settings_atom k))).
      unfold toplevel_rule. grow.
Qed.

End Registry.

(** ** The examples of the documentation *)

(** The README: [caterwaul.regexp(/foo(bar)\1+(?!bif)/).minimum_length()]
    is 9. *)
Example readme_minimum_length :
  exists t,
    regexp_parse ("/foo(bar)" ++ backslash ++ "1+(?!bif)/") None = Returns t /\
    minimum_length (root t) = Some 9%N.
Proof. eexists. split; vm_compute; reflexivity. Qed.

(** The header of [regexp.js]: [/foo/] has minimum length 3 and no match
    group; [/foo/i] has [i()] and [/^foo/m] has [m()]. *)
Example header_examples :
  (exists t, regexp_parse "/foo/" None = Returns t /\
             minimum_length (root t) = Some 3%N /\ match_groups t = []) /\
  (exists t, regexp_parse "/foo/i" None = Returns t /\ method_i t = true) /\
  (exists t, regexp_parse "/^foo/m" None = Returns t /\ method_m t = true).
Proof.
  repeat split; eexists; (split; [vm_compute; reflexivity|]);
    vm_compute; repeat split; reflexivity.
Qed.

(** The string primitives. *)
Example string_primitives :
  charAt "abc" 1 = "b" /\ charAt "abc" 3 = "" /\
  substr "abcdef" 2 3 = "cde" /\ substr "abc" 2 5 = "c" /\
  indexOf "0123456789" "7" = Some 7 /\ indexOf "0123456789" "a" = None /\
  to_number "007" = 7%N /\ number_to_string 10 = "10" /\
  number_to_string 0 = "0".
Proof. repeat split; reflexivity. Qed.

(** ** The claims *)

(** C1 (the code departs from the claim).  The claim: an accepted
    backreference with ordinal n links to the n-th capturing group
    registered so far, counted from one.  The code links to
    [context.groups[n]], counted from zero: in ["(a)*(b)\1"] the
    backreference [\1] has the group [(b)] as its second child, which is
    the entry at index 1 of the registry, while the first group is [(a)]. *)
Theorem C1_backreference_binds_following_entry :
  exists t,
    regexp_parse ("(a)*(b)" ++ backslash ++ "1") None = Returns t /\
    let reference := descend (root t) [1; 1] in
    is_backreference reference = true /\
    data_of (child reference 0) = Some (DNum 1) /\
    child reference 1 = nth 1 (match_groups t) Undefined /\
    toString (child reference 1) = Some "(b)" /\
    toString (nth 0 (match_groups t) Undefined) = Some "(a)".
Proof.
  eexists. split; [vm_compute; reflexivity|].
  vm_compute. repeat split; reflexivity.
Qed.

(** In ["(a)(b)\1"] the second child of the backreference prints as
    [(a)], yet it is not the node of the first group of the tree: it is the
    entry at index 1 of the registry, left there by an alternative that was
    given up, and a different object. *)
Lemma backreference_links_to_an_abandoned_node :
  exists t,
    regexp_parse ("(a)(b)" ++ backslash ++ "1") None = Returns t /\
    let reference := descend (root t) [1; 1] in
    let first_group := child (root t) 0 in
    is_backreference reference = true /\
    child reference 1 = nth 1 (match_groups t) Undefined /\
    toString (child reference 1) = Some "(a)" /\
    toString first_group = Some "(a)" /\
    uid_of (child reference 1) <> uid_of first_group /\
    uid_of (child reference 1) <> uid_of (nth 0 (match_groups t) Undefined).
Proof.
  eexists. split; [vm_compute; reflexivity|].
  vm_compute. repeat split; try reflexivity; discriminate.
Qed.

(** C2 (counterexample).  [match_groups()] of ["((a)(b))"] is not a
    sequence of three nodes. *)
Lemma C2_registry_is_not_a_triple :
  ~ exists t outer inner_a inner_b,
      regexp_parse "((a)(b))" None = Returns t /\
      match_groups t = [outer; inner_a; inner_b].
Proof.
  intros (t & outer & inner_a & inner_b & H & M).
  vm_compute in H. inversion H; subst. discriminate M.
Qed.

(** C2 (amended).  Parsing ["((a)(b))"]: in [match_groups()] the nested
    groups register before the group that encloses them.  Listing every
    group where it is registered first gives inner-a, inner-b, outer; the
    outer group, which is the root of the tree, is the last entry. *)
Theorem C2_nested_groups_register_first :
  exists t,
    regexp_parse "((a)(b))" None = Returns t /\
    first_occurrences [] (List.map printed (match_groups t))
      = ["(a)"; "(b)"; "((a)(b))"] /\
    last (match_groups t) Undefined = root t /\
    toString (root t) = Some "((a)(b))".
Proof.
  eexists. split; [vm_compute; reflexivity|].
  vm_compute. repeat split; reflexivity.
Qed.

(** C3 (the code departs from the claim).  The claim: alternatives that
    fail leave nothing in the registry, which ends with one entry for each
    capturing group of the accepted derivation.  The code does not undo
    [add_group] when an alternative fails: after parsing ["(a)"], whose
    derivation has one capturing group, the registry holds eight nodes, all
    of them printing as [(a)], eight different objects of which only the
    last one is in the tree. *)
Theorem C3_abandoned_alternatives_leave_entries :
  exists t,
    regexp_parse "(a)" None = Returns t /\
    List.length (capturing_groups (root t)) = 1 /\
    List.length (match_groups t) = 8 /\
    List.map printed (match_groups t)
      = ["(a)"; "(a)"; "(a)"; "(a)"; "(a)"; "(a)"; "(a)"; "(a)"] /\
    NoDup (List.map uid_of (match_groups t)) /\
    last (match_groups t) Undefined = root t.
Proof.
  eexists. split; [vm_compute; reflexivity|].
  vm_compute. repeat split; try reflexivity.
  repeat (constructor; [simpl; intuition discriminate|]). constructor.
Qed.

(** C4 (the code departs from the claim).  The claim: the string printed
    by [toString] parses again, with equal [minimum_length] and equal group
    count.  On the tree of the class ["[(]"] [toString] raises: the class
    holds the leaf ["("], which [is_any_group] takes for a group without
    looking at its arity, as [is_range], [is_disjunction] and [is_join] do.
    An escaped slash is kept as the bare atom ["/"] and printed without its
    backslash: the tree of two escaped slashes has minimum length 2 and
    prints as ["//"], which is the delimited form of the empty pattern and
    does not parse; the tree of [\/a\/] has minimum length 3, prints as
    ["/a/"], and that parses to a tree of minimum length 1. *)
Theorem C4_printed_trees_do_not_round_trip :
  (exists t,
     regexp_parse "[(]" None = Returns t /\
     minimum_length (root t) = Some 1%N /\
     is_character_class (root t) = true /\
     text (child (root t) 0) = "(" /\ is_atom (child (root t) 0) = true /\
     toString (root t) = None) /\
  (exists t,
     regexp_parse (backslash ++ "/" ++ backslash ++ "/") None = Returns t /\
     minimum_length (root t) = Some 2%N /\
     toString (root t) = Some "//" /\
     regexp_parse "//" None = Raises (failed_to_parse "//")) /\
  (exists t t',
     regexp_parse (backslash ++ "/a" ++ backslash ++ "/") None = Returns t /\
     minimum_length (root t) = Some 3%N /\
     toString (root t) = Some "/a/" /\
     regexp_parse "/a/" None = Returns t' /\
     minimum_length (root t') = Some 1%N).
Proof.
  split; [|split].
  - eexists. split; [vm_compute; reflexivity|].
    vm_compute. repeat split; reflexivity.
  - eexists. split; [vm_compute; reflexivity|].
    vm_compute. repeat split; reflexivity.
  - eexists. eexists. split; [vm_compute; reflexivity|].
    split; [vm_compute; reflexivity|].
    split; [vm_compute; reflexivity|].
    split; vm_compute; reflexivity.
Qed.

(** C5 (counterexample).  Parsing ["(a"] does not fail. *)
Lemma C5_unterminated_group_is_accepted :
  ~ exists message, regexp_parse "(a" None = Raises message.
Proof. intros (message & H). vm_compute in H. discriminate H. Qed.

(** A derivation that consumes the pattern to its end, with whatever fuel,
    is the one [toplevel] finds with the fuel of [regexp_parse]. *)
Lemma full_derivation_fuel (s settings_atom : string) :
  (exists fuel it st,
     toplevel s settings_atom fuel initial_cursor initial_state = Success it st /\
     i it = String.length s) <->
  (exists it st,
     toplevel s settings_atom (fuel_for s) initial_cursor initial_state
       = Success it st /\
     i it = String.length s).
Proof.
  split.
  - intros (fuel & it & st & S & L). exists it, st. split; [|exact L].
    rewrite <- S. symmetry. apply toplevel_fuel; [simpl; lia|].
    rewrite S. discriminate.
  - intros (it & st & S & L). now exists (fuel_for s), it, st.
Qed.

(** The parse fails, with the error that names the input, exactly when
    the input has a pattern and [toplevel] does not end at its end. *)
Lemma regexp_parse_raises_iff (r : string) (options : option string) :
  regexp_parse r options = Raises (failed_to_parse r) <->
  exists s suffix,
    pieces r = Some (s, suffix) /\
    ~ exists fuel it st,
        toplevel s (settings_atom_of options) fuel
          initial_cursor initial_state = Success it st /\
        i it = String.length s.
Proof.
  unfold regexp_parse.
  destruct (pieces r) as [[s suffix]|].
  - unfold join; simpl.
    destruct (toplevel_covers s (settings_atom_of options)
                initial_cursor initial_state) as [H1 _]; [simpl; lia|].
    destruct (toplevel _ _ _ _ _) as [it st|st|] eqn:T; [| |now elim H1].
    + unfold end_. destruct (i it =? String.length s) eqn:E; simpl.
      * split; [discriminate|].
        intros (s' & suffix' & P & N). inversion P; subst s' suffix'.
        exfalso. apply N. exists (fuel_for s), it, st.
        apply Nat.eqb_eq in E. now split.
      * split; [|reflexivity].
        intros _. exists s, suffix. split; [reflexivity|].
        intros F. apply full_derivation_fuel in F.
        destruct F as (it' & st' & S' & L).
        rewrite T in S'. inversion S'; subst.
        apply Nat.eqb_neq in E. contradiction.
    + split; [|reflexivity].
      intros _. exists s, suffix. split; [reflexivity|].
      intros F. apply full_derivation_fuel in F.
      destruct F as (it' & st' & S' & _).
      rewrite T in S'. discriminate S'.
  - split; [discriminate|].
    intros (s & suffix & P & _). discriminate P.
Qed.

(** C5 (amended).  The parse raises the error that names the input exactly
    when the derivation the parser settles on does not consume the pattern
    to its end; ["a)"] fails; ["(a"] does not: the parenthesis is taken by
    the catch-all atom, and the tree joins the atoms ["("] and ["a"]. *)
Theorem C5_failure_surface :
  (forall r options,
     regexp_parse r options = Raises (failed_to_parse r) <->
     exists s suffix,
       pieces r = Some (s, suffix) /\
       ~ exists fuel it st,
           toplevel s (settings_atom_of options) fuel
             initial_cursor initial_state = Success it st /\
           i it = String.length s) /\
  regexp_parse "a)" None = Raises (failed_to_parse "a)") /\
  exists t,
    regexp_parse "(a" None = Returns t /\
    is_join (root t) = true /\
    text (child (root t) 0) = "(" /\ is_atom (child (root t) 0) = true /\
    text (child (root t) 1) = "a" /\ is_atom (child (root t) 1) = true.
Proof.
  split; [exact regexp_parse_raises_iff|].
  split; [vm_compute; reflexivity|].
  eexists. split; [vm_compute; reflexivity|].
  vm_compute. repeat split; reflexivity.
Qed.

Lemma C5_failure_surface_witness :
  (exists s suffix,
     pieces "a|" = Some (s, suffix) /\
     ~ exists fuel it st,
         toplevel s (settings_atom_of None) fuel
           initial_cursor initial_state = Success it st /\
         i it = String.length s) /\
  regexp_parse "a|" None = Raises (failed_to_parse "a|").
Proof.
  assert (H : exists s suffix,
     pieces "a|" = Some (s, suffix) /\
     ~ exists fuel it st,
         toplevel s (settings_atom_of None) fuel
           initial_cursor initial_state = Success it st /\
         i it = String.length s).
  { exists "a|", None. split; [reflexivity|].
    intros F. apply full_derivation_fuel in F.
    destruct F as (it & st & S & L). vm_compute in S. inversion S; subst.
    discriminate L. }
  split; [exact H|].
  exact (proj2 (proj1 C5_failure_surface "a|" None) H).
Defined.

(** The flags of a pattern that is not in the delimited form: [pieces[2]]
    is [undefined], and [test] reads it as the string ["undefined"], which
    holds an [i] and neither [m] nor [g]. *)
Lemma bare_pattern_flags (r : string) (options : option string) (t : tree) :
  exec_delimited r = None ->
  regexp_parse r options = Returns t ->
  method_i t = true /\ method_m t = false /\ method_g t = false.
Proof.
  intros D H. unfold regexp_parse, pieces in H. rewrite D in H.
  destruct (exec_bare r) as [body|]; [|discriminate H].
  destruct (join _ _ _) as [it st|st|]; try discriminate H.
  inversion H; subst. repeat split.
Qed.

(** C6 (the code departs from the claim).  The claim: an input that is not
    in the delimited form gives a tree whose [i()], [m()] and [g()] are all
    false.  For the bare input ["abc"] the code returns a tree whose [i()]
    is true. *)
Theorem C6_bare_pattern_reports_ignore_case :
  exists t,
    regexp_parse "abc" None = Returns t /\
    exec_delimited "abc" = None /\
    method_i t = true /\ method_m t = false /\ method_g t = false.
Proof.
  eexists. split; [vm_compute; reflexivity|].
  vm_compute. repeat split; reflexivity.
Qed.

(** C7 (the code departs from the claim).  The claim: the two-digit
    reading is accepted exactly when its value is at most the number of
    capturing groups completed so far, and with eleven groups [\10] is
    group ten.  The code compares the value with the length of the
    registry, which also holds the nodes of abandoned alternatives, and
    then reads the registry from index zero: after five groups [\10] is
    accepted as a reference with ordinal 10, linked to a node of the first
    group; after eleven groups [\10] is linked to the sixth group, [(f)];
    after three groups [\10] is again accepted with ordinal 10, linked to
    the third group.  After one group the two-digit reading is rejected:
    [\1] is a reference and ["0"] an atom that follows it. *)
Theorem C7_two_digit_bound_counts_every_registration :
  (exists t,
     regexp_parse ("(a)(b)(c)(d)(e)" ++ backslash ++ "10") None = Returns t /\
     List.length (capturing_groups (root t)) = 5 /\
     let reference := descend (root t) [1; 1; 1; 1; 1] in
     is_backreference reference = true /\
     data_of (child reference 0) = Some (DNum 10) /\
     toString (child reference 1) = Some "(a)") /\
  (exists t,
     regexp_parse ("(a)(b)(c)(d)(e)(f)(g)(h)(i)(j)(k)" ++ backslash ++ "10") None
       = Returns t /\
     List.length (capturing_groups (root t)) = 11 /\
     let reference := descend (root t) [1; 1; 1; 1; 1; 1; 1; 1; 1; 1; 1] in
     is_backreference reference = true /\
     data_of (child reference 0) = Some (DNum 10) /\
     toString (child reference 1) = Some "(f)") /\
  (exists t,
     regexp_parse ("(a)(b)(c)" ++ backslash ++ "10") None = Returns t /\
     List.length (capturing_groups (root t)) = 3 /\
     let reference := descend (root t) [1; 1; 1] in
     is_backreference reference = true /\
     data_of (child reference 0) = Some (DNum 10) /\
     toString (child reference 1) = Some "(c)") /\
  (exists t,
     regexp_parse ("(a)" ++ backslash ++ "10") None = Returns t /\
     let reference := descend (root t) [1; 0] in
     is_backreference reference = true /\
     data_of (child reference 0) = Some (DNum 1) /\
     toString (child reference 1) = Some "(a)" /\
     text (descend (root t) [1; 1]) = "0" /\
     is_atom (descend (root t) [1; 1]) = true).
Proof.
  split; [|split; [|split]].
  - eexists. split; [vm_compute; reflexivity|].
    vm_compute. repeat split; reflexivity.
  - eexists. split; [vm_compute; reflexivity|].
    vm_compute. repeat split; reflexivity.
  - eexists. split; [vm_compute; reflexivity|].
    vm_compute. repeat split; reflexivity.
  - eexists. split; [vm_compute; reflexivity|].
    vm_compute. repeat split; reflexivity.
Qed.

(** C8 (the code departs from the claim).  The claim: on [\1] with no
    group completed the backreference alternative fails and the parse gives
    the literal atom ["1"].  The header of the source says that digits
    which would form a number larger than the number of seen groups are
    discarded, and the two-digit reading checks that bound; the
    single-digit reading checks none.  The code accepts [\1]: the tree is
    a backreference node, not the atom ["1"]; its first child is the leaf
    of the ordinal 1, its second child [this[1]] is [undefined] since the
    registry is empty, and [minimum_length()] raises on it. *)
Theorem C8_reference_without_group_is_accepted :
  exists t,
    regexp_parse (backslash ++ "1") None = Returns t /\
    match_groups t = [] /\
    (exists it st,
       backreference (backslash ++ "1") initial_cursor initial_state
         = Success it st /\ i it = 2) /\
    is_backreference (root t) = true /\
    (~ exists u, root t = Node u (DStr "1") []) /\
    data_of (child (root t) 0) = Some (DNum 1) /\
    is_atom (child (root t) 0) = true /\
    child (root t) 1 = Undefined /\
    minimum_length (root t) = None.
Proof.
  eexists. split; [vm_compute; reflexivity|].
  split; [reflexivity|].
  split; [eexists; eexists; split; vm_compute; reflexivity|].
  split; [reflexivity|].
  split; [intros [u H]; discriminate H|].
  vm_compute. repeat split; reflexivity.
Qed.

(** ** Minimum length *)

Lemma minimum_length_child (xs : list node) (k : nat) :
  match nth_error xs k with
  | Some c => minimum_length c
  | None => None
  end = minimum_length (nth k xs Undefined).
Proof.
  revert k. induction xs as [|x xs IH]; intros [|k]; simpl; try reflexivity.
  apply IH.
Qed.




(** ** The empty pattern *)

(** C10.  Parsing the empty pattern raises the error of a failed parse,
    whatever the options: that is the empty input, and also an input such
    as ["//"] whose delimiters enclose nothing.  Every alternative of
    [atom] asks for a character ([base_stops]). *)
Theorem C10_empty_pattern_fails (r : string) (options suffix : option string) :
  pieces r = Some ("", suffix) ->
  regexp_parse r options = Raises (failed_to_parse r).
Proof.
  intros P. unfold regexp_parse. rewrite P.
  destruct (toplevel_stops "" (settings_atom_of options) (fuel_for "")
              ltac:(unfold fuel_for; simpl; lia) initial_cursor initial_state)
    as [st E]; [simpl; lia|].
  unfold join; cbn [join_from]. rewrite E. reflexivity.
Qed.

Lemma C10_empty_pattern_fails_witness :
  (pieces "//" = Some ("", Some "") /\
   regexp_parse "//" None = Raises (failed_to_parse "//")) /\
  (pieces "" = Some ("", None) /\
   regexp_parse "" (Some "word") = Raises (failed_to_parse "")).
Proof.
  split; (split; [reflexivity|]).
  - exact (C10_empty_pattern_fails "//" None (Some "") eq_refl).
  - exact (C10_empty_pattern_fails "" (Some "word") None eq_refl).
Defined.

(** * Further properties of the code *)

(** ** Properties of the state that every rule preserves *)

Section Invariant.

Variable s : string.
Variable settings_atom : string.
Variable Q : state -> Prop.

(** [Q] looks at the registry only. *)
Hypothesis Q_registry : forall st st', groups st' = groups st -> Q st -> Q st'.

Lemma char_preserves (c : string) : preserves Q (char s c).
Proof. intros p st H. unfold char. now destruct (_ && _). Qed.

Lemma string_preserves (cs : string) : preserves Q (string_ s cs).
Proof. intros p st H. unfold string_. now destruct (_ && _). Qed.

Lemma any_preserves (n : nat) : preserves Q (any s n).
Proof. intros p st H. unfold any. now destruct (_ <? _). Qed.

Lemma zero_preserves : preserves Q zero.
Proof. intros p st H. exact H. Qed.

Lemma not_preserves (n : nat) (f : parser) :
  preserves Q f -> preserves Q (not_ s n f).
Proof.
  intros Hf p st H. unfold not_. destruct (_ <=? _); [exact H|].
  specialize (Hf p st H). now destruct (f p st).
Qed.

Lemma alt_preserves (ps : list parser) :
  Forall (preserves Q) ps -> preserves Q (alt ps).
Proof.
  induction 1 as [|P ps HP _ IH]; intros p st H; simpl; [exact H|].
  specialize (HP p st H).
  destruct (P p st) as [r st1|st1|]; [exact HP| |exact I].
  exact (IH p st1 HP).
Qed.

Lemma join_from_preserves (ps : list parser) :
  Forall (preserves Q) ps ->
  forall ns, preserves Q (fun p st => join_from ps p ns st).
Proof.
  induction 1 as [|P ps HP _ IH]; intros ns p st H; simpl; [exact H|].
  specialize (HP p st H).
  destruct (P p st) as [r st1|st1|]; [|exact HP|exact I].
  exact (IH (ns ++ [v r])%list r st1 HP).
Qed.

Lemma join_preserves (ps : list parser) :
  Forall (preserves Q) ps -> preserves Q (join ps).
Proof. intros H. exact (join_from_preserves ps H []). Qed.

Lemma map_preserves (P : parser) (f : action) :
  preserves Q P -> preserves_action Q f -> preserves Q (map P f).
Proof.
  intros HP Hf p st H. unfold map. specialize (HP p st H).
  destruct (P p st) as [r st1|st1|]; [|exact HP|exact I].
  specialize (Hf (v r) st1 HP). now destruct (f (v r) st1).
Qed.

(** A [map] over a sequence whose first parser is dead never runs its
    action. *)
Lemma map_join_dead (P : parser) (rest : list parser) (f : action) :
  dead P -> preserves Q (map (join (P :: rest)) f).
Proof.
  intros HP p st H. unfold map, join; simpl. now rewrite HP.
Qed.

Lemma unfold_preserves (f : parser) :
  preserves Q f ->
  forall budget x st, Q st ->
    match unfold f budget x st with
    | Some (_, st') => Q st'
    | None => True
    end.
Proof.
  intros Hf. induction budget as [|b IH]; intros x st H; simpl;
    specialize (Hf x st H); destruct (f x st) as [y st1|st1|]; try exact I;
    try exact Hf.
  specialize (IH y st1 Hf).
  now destruct (unfold f b y st1) as [[rest st2]|].
Qed.

Lemma many_preserves (f : parser) : preserves Q f -> preserves Q (many s f).
Proof.
  intros Hf p st H. unfold many.
  pose proof (unfold_preserves f Hf (String.length s) p st H) as U.
  destruct (unfold _ _ _ _) as [[it st1]|]; [|exact I].
  now destruct (1 <? _).
Qed.

(** The actions that build nodes without registering them. *)
Ltac action_keeps :=
  unfold preserves_action; intros ? ? ?; simpl;
  match goal with H : Q _ |- _ => revert H; apply Q_registry; reflexivity end.

Ltac keep_step :=
  match goal with
  | H : preserves Q ?P |- preserves Q ?P => exact H
  | |- preserves Q (char _ _) => apply char_preserves
  | |- preserves Q (string_ _ _) => apply string_preserves
  | |- preserves Q (any _ _) => apply any_preserves
  | |- preserves Q zero => apply zero_preserves
  | |- preserves Q (not_ _ _ _) => apply not_preserves
  | |- preserves Q (many _ _) => apply many_preserves
  | |- preserves Q (map _ _) => apply map_preserves
  | |- preserves Q (join _) => apply join_preserves
  | |- preserves Q (alt _) => apply alt_preserves
  | |- Forall _ (_ :: _) => apply Forall_cons
  | |- Forall _ [] => apply Forall_nil
  | |- preserves_action Q _ => action_keeps
  end.

Ltac keep :=
  repeat first
    [ keep_step
    | progress unfold ident, digit, hex, number, star, plus, question_mark,
        repetition, modifier, non_greedy, modifiers, each, zero_width,
        escaped, escaped_slash, control, hex_code, unicode,
        single_digit_backreference, two_digit_ordinal, dot, other,
        character_not_in, character_in, positive_lookahead,
        negative_lookahead, forgetful_group ].

Lemma character_class_preserves : preserves Q (character_class s).
Proof.
  unfold character_class. generalize (S (String.length s)) as fuel.
  induction fuel as [|k IH]; [intros p st H; exact I|].
  change (preserves Q (character_class_rule s (character_class_fuel s k))).
  unfold character_class_rule. keep.
Qed.

Lemma backreference_preserves : preserves Q (backreference s).
Proof.
  intros p st H. unfold backreference.
  assert (H2 : preserves Q (two_digit_ordinal s)) by keep.
  assert (H1 : preserves Q (single_digit_backreference s)) by keep.
  specialize (H2 p st H).
  destruct (two_digit_ordinal s p st) as [it st1|st1|]; [| |exact I].
  - pose proof (H1 p st1 H2) as Hs.
    destruct (v it); try exact Hs.
    destruct (_ <=? _)%N; [|exact Hs].
    rewrite backreference_node_spec.
    revert H2. apply Q_registry. reflexivity.
  - exact (H1 p st1 H2).
Qed.

(** All of [atom] but the capturing group, whose action registers. *)
Lemma base_preserves (toplevel_ : parser) :
  preserves Q toplevel_ ->
  preserves Q (group s toplevel_) ->
  preserves Q (base s settings_atom toplevel_).
Proof.
  intros Ht Hg. pose proof character_class_preserves as Hc.
  pose proof backreference_preserves as Hb.
  unfold base, maybe_munch_spaces, maybe_word.
  destruct (word_mode settings_atom); keep.
Qed.

(** The whole grammar preserves [Q] as soon as the rule of the capturing
    group does, whatever [toplevel] it is given. *)
Lemma grammar_preserves :
  (forall T, preserves Q T -> preserves Q (group s T)) ->
  forall fuel,
    preserves Q (atom s settings_atom fuel) /\
    preserves Q (term s settings_atom fuel) /\
    preserves Q (no_pipes s settings_atom fuel) /\
    preserves Q (toplevel s settings_atom fuel).
Proof.
  intros Hgroup. induction fuel as [|k (Ha & Ht & Hn & Hp)].
  - repeat split; intros p st H; exact I.
  - split; [|split; [|split]].
    + change (preserves Q (base s settings_atom (toplevel s settings_atom k))).
      apply base_preserves; [exact Hp|now apply Hgroup].
    + change (preserves Q (term_rule s (atom s settings_atom k))).
      unfold term_rule. keep.
    + change (preserves Q (no_pipes_rule (term s settings_atom k)
                             (no_pipes s settings_atom k))).
      unfold no_pipes_rule. keep.
    + change (preserves Q (toplevel_rule s (no_pipes s settings_atom k)
                             (toplevel s settings_atom k))).
      unfold toplevel_rule. keep.
Qed.

End Invariant.

(** ** What the registry holds *)

Lemma string_exists_app (f : ascii -> bool) (a b : string) :
  string_exists f (a ++ b) = string_exists f a || string_exists f b.
Proof.
  induction a as [|c a IH]; simpl; [reflexivity|].
  now rewrite IH, orb_assoc.
Qed.

(** The first character of a piece of [t] is a character of [t]. *)
Lemma substring_head (t : string) (k n : nat) (c : ascii) (rest : string) :
  substring k n t = String c rest -> string_exists (Ascii.eqb c) t = true.
Proof.
  revert k n. induction t as [|a t IH]; intros k n H.
  - destruct k, n; discriminate H.
  - destruct k as [|k].
    + destruct n as [|n]; [discriminate H|].
      simpl in H. inversion H; subst. simpl. now rewrite Ascii.eqb_refl.
    + simpl in H. simpl. rewrite (IH k n H). apply orb_true_r.
Qed.

(** A literal that starts with a character the pattern does not have
    matches nowhere. *)
Lemma string_dead (s : string) (c : ascii) (rest : string) :
  string_exists (Ascii.eqb c) s = false -> dead (string_ s (String c rest)).
Proof.
  intros H p st. unfold string_.
  destruct (i p <? String.length s); [|reflexivity]. simpl andb.
  destruct (String.eqb _ _) eqn:E; [|reflexivity].
  apply String.eqb_eq in E. apply substring_head in E. congruence.
Qed.

(** The pattern of an input holds no character that the input does not. *)
Lemma pieces_characters (r s : string) (suffix : option string) (c : ascii) :
  pieces r = Some (s, suffix) ->
  string_exists (Ascii.eqb c) r = false ->
  string_exists (Ascii.eqb c) s = false.
Proof.
  unfold pieces. intros P H.
  destruct (exec_delimited r) as [[body fl]|] eqn:D.
  - inversion P; subst. apply exec_delimited_spec in D as (E & _ & _).
    subst r. simpl in H. apply orb_false_iff in H as [_ H].
    rewrite string_exists_app in H. now apply orb_false_iff in H as [H _].
  - unfold exec_bare in P. destruct (string_exists line_terminator r);
      [discriminate P|]. inversion P; subst. exact H.
Qed.

(** What [regexp_parse] returns, read off its definition. *)
Lemma regexp_parse_returns (r : string) (options : option string) (t : tree) :
  regexp_parse r options = Returns t ->
  exists s suffix it st,
    pieces r = Some (s, suffix) /\
    toplevel s (settings_atom_of options) (fuel_for s)
      initial_cursor initial_state = Success it st /\
    i it = String.length s /\
    t = Tree (as_node (v it)) (Context (groups st) (flags_of suffix)).
Proof.
  unfold regexp_parse. destruct (pieces r) as [[s suffix]|]; [|discriminate].
  unfold join; cbn [join_from].
  destruct (toplevel s _ _ _ _) as [it st|st|] eqn:T; try discriminate.
  unfold end_. destruct (i it =? String.length s) eqn:E; try discriminate.
  cbn [join_from v at_ nth app]. intros H. inversion H; subst.
  exists s, suffix, it, st. apply Nat.eqb_eq in E.
  split; [reflexivity|]. split; [exact T|]. split; [exact E|reflexivity].
Qed.

(** X1.  [context.groups] is append-only: from any cursor and any state,
    [toplevel] hands back the registry it received with nodes appended at
    its end, when it fails as well as when it succeeds. *)
Theorem X1_registry_is_append_only
    (s settings_atom : string) (fuel : nat) (p : cursor) (st : state) :
  match toplevel s settings_atom fuel p st with
  | Success _ st' => exists more, groups st' = (groups st ++ more)%list
  | Failure st' => exists more, groups st' = (groups st ++ more)%list
  | OutOfFuel => True
  end.
Proof.
  destruct (grammar_growing s settings_atom fuel) as (_ & _ & _ & H).
  exact (H p st).
Qed.

(** X2.  Every node of [match_groups()] is the node of a capturing group:
    its data is an opening parenthesis and it has one child. *)
Theorem X2_registry_holds_group_nodes
    (r : string) (options : option string) (t : tree) :
  regexp_parse r options = Returns t ->
  Forall (fun g => group_node g = true) (match_groups t).
Proof.
  intros H. apply regexp_parse_returns in H as (s & suffix & it & st & _ & T & _ & E).
  subst t. cbn [match_groups tree_context context_groups].
  set (Q := fun st : state => Forall (fun g => group_node g = true) (groups st)).
  assert (Qr : forall st1 st2, groups st2 = groups st1 -> Q st1 -> Q st2)
    by (unfold Q; intros st1 st2 E H; now rewrite E).
  assert (G : forall P, preserves Q P -> preserves Q (group s P)).
  { intros P HT. unfold group.
    apply map_preserves.
    - apply join_preserves. repeat apply Forall_cons; try apply Forall_nil;
        [apply string_preserves|exact HT|apply string_preserves].
    - intros x st1 H. unfold Q in *. simpl.
      apply Forall_app. split; [exact H|]. now constructor. }
  destruct (grammar_preserves s (settings_atom_of options) Q Qr G (fuel_for s))
    as (_ & _ & _ & H).
  specialize (H initial_cursor initial_state (Forall_nil _)).
  rewrite T in H. exact H.
Qed.

Lemma X2_registry_holds_group_nodes_witness :
  exists t,
    regexp_parse "((a)|b)(c)" None = Returns t /\
    Forall (fun g => group_node g = true) (match_groups t).
Proof.
  eexists. split; [vm_compute; reflexivity|].
  apply (X2_registry_holds_group_nodes "((a)|b)(c)" None).
  vm_compute. reflexivity.
Defined.

(** X3.  An input without an opening parenthesis registers no group:
    [match_groups()] of its tree is empty. *)
Theorem X3_no_parenthesis_no_group
    (r : string) (options : option string) (t : tree) :
  string_exists (Ascii.eqb "(") r = false ->
  regexp_parse r options = Returns t ->
  match_groups t = [].
Proof.
  intros N H.
  apply regexp_parse_returns in H as (s & suffix & it & st & P & T & _ & E).
  subst t. cbn [match_groups tree_context context_groups].
  pose proof (pieces_characters r s suffix "(" P N) as Ns.
  set (Q := fun st : state => groups st = []).
  assert (Qr : forall st1 st2, groups st2 = groups st1 -> Q st1 -> Q st2)
    by (unfold Q; intros st1 st2 E H; now rewrite E).
  assert (G : forall P', preserves Q P' -> preserves Q (group s P')).
  { intros P' _. unfold group. apply map_join_dead. now apply string_dead. }
  destruct (grammar_preserves s (settings_atom_of options) Q Qr G (fuel_for s))
    as (_ & _ & _ & H).
  specialize (H initial_cursor initial_state eq_refl).
  rewrite T in H. exact H.
Qed.

Lemma X3_no_parenthesis_no_group_witness :
  exists t,
    string_exists (Ascii.eqb "(") "/[a-z]+|x{2,}/i" = false /\
    regexp_parse "/[a-z]+|x{2,}/i" None = Returns t /\
    match_groups t = [].
Proof.
  eexists. split; [reflexivity|]. split; [vm_compute; reflexivity|].
  apply (X3_no_parenthesis_no_group "/[a-z]+|x{2,}/i" None);
    vm_compute; reflexivity.
Defined.

(** ** Cursors *)

(** X6.  A result of [toplevel] lies within the pattern and strictly after
    the cursor it started from: no rule succeeds without consuming a
    character, and none reads past the end. *)
Theorem X6_toplevel_consumes_within_the_pattern
    (s settings_atom : string) (fuel : nat) (p r : cursor) (st st' : state) :
  i p <= String.length s ->
  toplevel s settings_atom fuel p st = Success r st' ->
  i p < i r <= String.length s.
Proof.
  intros Hp H.
  assert (E : toplevel s settings_atom (fuel_for s) p st = Success r st').
  { rewrite <- H. symmetry. apply toplevel_fuel; [exact Hp|].
    rewrite H. discriminate. }
  destruct (toplevel_covers s settings_atom p st) as [_ C]; [lia|].
  specialize (C r st' E). lia.
Qed.

Lemma X6_toplevel_consumes_within_the_pattern_witness :
  exists r st',
    toplevel "ab|c" "character" 20 (Cursor VUndefined 1) initial_state
      = Success r st' /\
    1 < i r <= 4.
Proof.
  eexists. eexists. split; [vm_compute; reflexivity|].
  eapply (X6_toplevel_consumes_within_the_pattern "ab|c" "character" 20
            (Cursor VUndefined 1) _ initial_state);
    [simpl; lia|vm_compute; reflexivity].
Defined.

(** ** The forms of the input *)

Lemma pieces_none (r : string) :
  pieces r = None <-> string_exists line_terminator r = true.
Proof.
  unfold pieces, exec_bare.
  destruct (exec_delimited r) as [[body fl]|] eqn:D.
  - split; [discriminate|]. intros H.
    apply exec_delimited_spec in D as (E & G & L). subst r.
    simpl in H. rewrite string_exists_app in H. simpl in H.
    rewrite L in H. simpl in H.
    assert (F : string_exists line_terminator fl = false).
    { clear - G. induction fl as [|a fl IH]; simpl; [reflexivity|].
      simpl in G. apply andb_prop in G as [Ga G]. rewrite (IH G), orb_false_r.
      unfold gim in Ga. unfold line_terminator, newline, carriage_return.
      repeat (apply orb_prop in Ga; destruct Ga as [Ga|Ga]);
        apply Ascii.eqb_eq in Ga; subst a; reflexivity. }
    rewrite F in H. discriminate H.
  - destruct (string_exists line_terminator r); split; congruence.
Qed.

(** X7.  An input that holds a line terminator matches neither regular
    expression of [pieces], and [regexp_parse] raises a TypeError on
    [pieces[1]] instead of the error of a failed parse; an input without
    line terminators never does. *)
Theorem X7_line_terminator_raises_type_error
    (r : string) (options : option string) :
  regexp_parse r options = RaisesTypeError <->
  string_exists line_terminator r = true.
Proof.
  rewrite <- pieces_none. unfold regexp_parse.
  destruct (pieces r) as [[s suffix]|]; [|tauto].
  split; [|discriminate].
  destruct (join _ _ _); discriminate.
Qed.

Lemma X7_line_terminator_raises_type_error_witness :
  string_exists line_terminator (String "a" (String newline "b")) = true /\
  regexp_parse (String "a" (String newline "b")) None = RaisesTypeError.
Proof.
  split; [reflexivity|].
  apply (proj2 (X7_line_terminator_raises_type_error
                  (String "a" (String newline "b")) None)).
  reflexivity.
Defined.

(** X8.  The delimiters and the flags are taken off before parsing.  For a
    [body] without line terminators that is not itself of the delimited
    form, and flags among g, i and m: the input [/body/flags] parses as
    the input [body] does on its own, to the same root and the same
    registry, and the flags decide [i()], [m()] and [g()]; when [body]
    fails, so does the delimited input.  (A [body] that is itself of the
    delimited form is stripped once more when it is given on its own.) *)
Theorem X8_delimiters_are_stripped
    (body fl : string) (options : option string) :
  string_forall gim fl = true ->
  string_exists line_terminator body = false ->
  exec_delimited body = None ->
  (forall t, regexp_parse body options = Returns t ->
     exists t',
       regexp_parse (String "/" (body ++ String "/" fl)) options = Returns t' /\
       root t' = root t /\ match_groups t' = match_groups t /\
       method_i t' = string_exists (Ascii.eqb "i") fl /\
       method_m t' = string_exists (Ascii.eqb "m") fl /\
       method_g t' = string_exists (Ascii.eqb "g") fl) /\
  (regexp_parse body options = Raises (failed_to_parse body) ->
   regexp_parse (String "/" (body ++ String "/" fl)) options
     = Raises (failed_to_parse (String "/" (body ++ String "/" fl)))).
Proof.
  intros G L D.
  assert (P1 : pieces (String "/" (body ++ String "/" fl)) = Some (body, Some fl)).
  { unfold pieces.
    rewrite (proj2 (exec_delimited_spec _ body fl) (conj eq_refl (conj G L))).
    reflexivity. }
  assert (P2 : pieces body = Some (body, None)).
  { unfold pieces, exec_bare. now rewrite D, L. }
  unfold regexp_parse. rewrite P1, P2.
  destruct (join _ _ _) as [it st|st|]; split; try discriminate.
  - intros t H. inversion H; subst. eexists. split; [reflexivity|].
    repeat split.
  - intros _. reflexivity.
Qed.

Lemma X8_delimiters_are_stripped_witness :
  exists t t',
    regexp_parse "(a)+b" None = Returns t /\
    regexp_parse "/(a)+b/gi" None = Returns t' /\
    root t' = root t /\ match_groups t' = match_groups t /\
    method_i t' = true /\ method_m t' = false /\ method_g t' = true.
Proof.
  destruct (X8_delimiters_are_stripped "(a)+b" "gi" None
              eq_refl eq_refl eq_refl) as [R _].
  eexists. destruct (R _ ltac:(vm_compute; reflexivity))
    as (t' & P & Er & Eg & Fi & Fm & Fg).
  exists t'. split; [vm_compute; reflexivity|].
  split; [exact P|]. repeat split; assumption.
Defined.

(** X9.  [pieces] takes an input for the delimited form exactly when it is
    a slash, a pattern without line terminators, a slash and then flags
    among g, i and m; the pattern runs up to the last slash of the input,
    so a slash inside the pattern belongs to it. *)
Theorem X9_delimited_form (r body fl : string) :
  exec_delimited r = Some (body, fl) <->
  r = String "/" (body ++ String "/" fl) /\
  string_forall gim fl = true /\
  string_exists line_terminator body = false.
Proof. exact (exec_delimited_spec r body fl). Qed.

Lemma X9_delimited_form_witness :
  exec_delimited "/a/b/gi" = Some ("a/b", "gi").
Proof.
  apply (proj2 (X9_delimited_form "/a/b/gi" "a/b" "gi")).
  repeat split.
Defined.

(** ** Patterns of ordinary characters *)

Lemma found_indexOf_char (cs : string) (c : ascii) :
  found (indexOf cs (String c "")) = string_exists (Ascii.eqb c) cs.
Proof.
  unfold indexOf. induction cs as [|b cs IH]; [reflexivity|].
  cbn [index prefix string_exists].
  destruct (ascii_dec c b) as [E|E].
  - subst b. rewrite Ascii.eqb_refl. now destruct cs.
  - apply Ascii.eqb_neq in E. rewrite E. cbn [orb]. rewrite <- IH.
    now destruct (index 0 (String c "") cs).
Qed.

(** The character at an index and the pieces that start there. *)
Lemma substring_step (t : string) (k n : nat) (c : ascii) :
  charAt t k = String c "" ->
  substring k (S n) t = String c (substring (S k) n t).
Proof.
  unfold charAt. revert k. induction t as [|a t IH]; intros k H.
  - destruct k; discriminate H.
  - destruct k as [|k].
    + simpl in H. inversion H; subst. reflexivity.
    + simpl in H. simpl. now apply IH.
Qed.

Lemma charAt_within (t : string) (k : nat) :
  k < String.length t -> exists c, charAt t k = String c "".
Proof.
  unfold charAt. revert k. induction t as [|a t IH]; intros k H; [simpl in H; lia|].
  destruct k as [|k].
  - exists a. simpl. now destruct t.
  - simpl in H. simpl. apply IH. lia.
Qed.

Lemma charAt_forall (f : ascii -> bool) (t : string) (k : nat) (c : ascii) :
  string_forall f t = true -> charAt t k = String c "" -> f c = true.
Proof.
  unfold charAt. revert k. induction t as [|a t IH]; intros k F H.
  - destruct k; discriminate H.
  - simpl in F. apply andb_prop in F as [Fa F]. destruct k as [|k].
    + simpl in H. inversion H; subst. exact Fa.
    + simpl in H. now apply (IH k).
Qed.

Lemma suffix_step (t : string) (k : nat) (c : ascii) :
  k < String.length t -> charAt t k = String c "" ->
  suffix t k = String c (suffix t (S k)).
Proof.
  intros L H. unfold suffix.
  replace (String.length t - k) with (S (String.length t - S k)) by lia.
  now apply substring_step.
Qed.

Lemma suffix_zero (t : string) : suffix t 0 = t.
Proof.
  unfold suffix. rewrite Nat.sub_0_r.
  induction t as [|a t IH]; [reflexivity|]. simpl. now rewrite IH.
Qed.

Lemma suffix_end (t : string) : suffix t (String.length t) = "".
Proof.
  unfold suffix. rewrite Nat.sub_diag.
  induction t as [|a t IH]; [reflexivity|]. simpl. exact IH.
Qed.

Lemma ordinary_not_special (c x : ascii) :
  ordinary c = true -> special x = true -> Ascii.eqb c x = false.
Proof.
  unfold ordinary. intros O S. apply andb_prop in O as [O _].
  apply negb_true_iff in O.
  destruct (Ascii.eqb c x) eqn:E; [|reflexivity].
  apply Ascii.eqb_eq in E. subst x. congruence.
Qed.

Lemma ordinary_outside (c : ascii) (cs : string) :
  ordinary c = true -> string_forall special cs = true ->
  string_exists (Ascii.eqb c) cs = false.
Proof.
  intros O. induction cs as [|x cs IH]; simpl; [reflexivity|].
  intros H. apply andb_prop in H as [Hx H].
  now rewrite (ordinary_not_special c x O Hx), (IH H).
Qed.

Section Ordinary.

Variable s : string.
Variable settings_atom : string.
Hypothesis character_mode : word_mode settings_atom = false.

(** At an inert index nothing that starts with a special character is
    read. *)
Lemma char_inert (cs : string) (p : cursor) (st : state) :
  inert s (i p) -> string_forall special cs = true ->
  char s cs p st = Failure st.
Proof.
  intros [E|(c & C & O)] S; unfold char.
  - replace (i p <? String.length s) with false
      by (symmetry; apply Nat.ltb_ge; exact E). reflexivity.
  - rewrite C, found_indexOf_char, (ordinary_outside c cs O S).
    now rewrite andb_false_r.
Qed.

Lemma string_inert (x : ascii) (rest : string) (p : cursor) (st : state) :
  inert s (i p) -> special x = true ->
  string_ s (String x rest) p st = Failure st.
Proof.
  intros [E|(c & C & O)] S; unfold string_.
  - replace (i p <? String.length s) with false
      by (symmetry; apply Nat.ltb_ge; exact E). reflexivity.
  - unfold substr. cbn [String.length]. rewrite (substring_step s (i p) _ c C).
    cbn [String.eqb]. rewrite (ordinary_not_special c x O S).
    now rewrite andb_false_r.
Qed.

Lemma map_join_fails (P : parser) (rest : list parser) (f : action)
    (p : cursor) (st : state) :
  P p st = Failure st -> map (join (P :: rest)) f p st = Failure st.
Proof. intros H. unfold map, join; simpl. now rewrite H. Qed.

Lemma map_fails (P : parser) (f : action) (p : cursor) (st : state) :
  P p st = Failure st -> map P f p st = Failure st.
Proof. intros H. unfold map. now rewrite H. Qed.

Lemma alt_skip (P : parser) (rest : list parser) (p : cursor) (st : state) :
  P p st = Failure st -> alt (P :: rest) p st = alt rest p st.
Proof. intros H. simpl. now rewrite H. Qed.

(** No quantifier is read at an inert index. *)
Lemma modifiers_inert (p : cursor) (st : state) :
  inert s (i p) -> modifiers s p st = Failure st.
Proof.
  intros H.
  assert (St : star s p st = Failure st)
    by (apply map_fails, char_inert; [exact H|reflexivity]).
  assert (Pl : plus s p st = Failure st)
    by (apply map_fails, char_inert; [exact H|reflexivity]).
  assert (Qm : question_mark s p st = Failure st)
    by (apply map_fails, char_inert; [exact H|reflexivity]).
  assert (Re : repetition s p st = Failure st).
  { unfold repetition.
    rewrite !alt_skip by (apply map_join_fails, char_inert;
                          [exact H|reflexivity]).
    reflexivity. }
  assert (Mo : modifier s p st = Failure st).
  { unfold modifier. now rewrite !alt_skip by assumption. }
  unfold modifiers.
  rewrite alt_skip by (now apply map_join_fails).
  now rewrite !alt_skip by assumption.
Qed.

(** At an ordinary character [atom] falls through to the catch-all rule
    and returns the leaf of that character. *)
Lemma atom_ordinary (fuel : nat) (p : cursor) (st : state) (c : ascii) :
  charAt s (i p) = String c "" -> ordinary c = true ->
  atom s settings_atom (S fuel) p st
    = Success (Cursor (VNode (Node (next_uid st) (DStr (String c "")) []))
                 (i p + 1))
        (State (groups st) (S (next_uid st))).
Proof.
  intros C O.
  assert (H : inert s (i p)) by (right; now exists c).
  assert (L : i p < String.length s).
  { destruct (Nat.lt_ge_cases (i p) (String.length s)) as [L|L]; [exact L|].
    unfold charAt in C. pose proof (substring_length_le s (i p) 1) as B.
    rewrite C in B. simpl in B. lia. }
  change (atom s settings_atom (S fuel))
    with (base s settings_atom (toplevel s settings_atom fuel)).
  unfold base, maybe_munch_spaces, maybe_word. rewrite character_mode.
  unfold map at 1. unfold join. cbn [join_from zero].
  unfold positive_lookahead, negative_lookahead, forgetful_group, group,
    character_not_in, character_in.
  rewrite !alt_skip
    by (apply map_join_fails, string_inert; [exact H|reflexivity]).
  unfold zero_width. rewrite alt_skip
    by (apply map_fails, char_inert; [exact H|reflexivity]).
  unfold escaped. rewrite alt_skip
    by (apply map_join_fails, char_inert; [exact H|reflexivity]).
  unfold escaped_slash. rewrite alt_skip
    by (apply map_fails, string_inert; [exact H|reflexivity]).
  unfold control, hex_code, unicode. rewrite !alt_skip
    by (apply map_join_fails, string_inert; [exact H|reflexivity]).
  rewrite alt_skip.
  2:{ unfold backreference, two_digit_ordinal.
      rewrite map_join_fails by (apply char_inert; [exact H|reflexivity]).
      unfold single_digit_backreference.
      apply map_join_fails, char_inert; [exact H|reflexivity]. }
  unfold dot. rewrite alt_skip
    by (apply map_fails, char_inert; [exact H|reflexivity]).
  cbn [alt]. unfold other, map, not_.
  replace (String.length s <=? i p) with false
    by (symmetry; apply Nat.leb_gt; exact L).
  rewrite char_inert by (try exact H; reflexivity).
  unfold substr. fold (charAt s (i p)). rewrite C. reflexivity.
Qed.

(** A term at an ordinary character that no quantifier follows is that
    leaf; the first alternative has built one leaf in vain. *)
Lemma term_ordinary (fuel : nat) (p : cursor) (st : state) (c : ascii) :
  charAt s (i p) = String c "" -> ordinary c = true ->
  inert s (i p + 1) ->
  exists u st',
    term s settings_atom (S (S fuel)) p st
      = Success (Cursor (VNode (Node u (DStr (String c "")) [])) (i p + 1)) st'.
Proof.
  intros C O N.
  change (term s settings_atom (S (S fuel)))
    with (term_rule s (atom s settings_atom (S fuel))).
  unfold term_rule. cbn [alt]. unfold map at 1. unfold join. cbn [join_from].
  rewrite (atom_ordinary fuel p st c C O).
  rewrite modifiers_inert by exact N.
  rewrite (atom_ordinary fuel p _ c C O).
  eexists. eexists. reflexivity.
Qed.

Lemma no_pipes_stops (fuel : nat) :
  3 <= fuel -> stops s (no_pipes s settings_atom fuel).
Proof.
  intros Hf. destruct fuel as [|[|[|k]]]; try lia.
  pose proof (base_stops s settings_atom (toplevel s settings_atom k)) as Ha.
  change (stops s (atom s settings_atom (S k))) in Ha.
  assert (Ht : stops s (term s settings_atom (S (S k)))).
  { change (stops s (term_rule s (atom s settings_atom (S k)))).
    unfold term_rule. apply alt_stops.
    repeat apply Forall_cons; try apply Forall_nil; [|exact Ha].
    now apply map_stops, join_stops. }
  change (stops s (no_pipes_rule (term s settings_atom (S (S k)))
                     (no_pipes s settings_atom (S (S k))))).
  unfold no_pipes_rule. apply alt_stops.
  repeat apply Forall_cons; try apply Forall_nil; [|exact Ht].
  now apply map_stops, join_stops.
Qed.

(** From an index on which only ordinary characters follow, [no_pipes]
    reads them all and returns their tree. *)
Lemma no_pipes_ordinary (n : nat) :
  forall fuel p st,
    string_forall ordinary s = true ->
    i p + S n = String.length s ->
    n + 4 <= fuel ->
    exists t st',
      no_pipes s settings_atom fuel p st
        = Success (Cursor (VNode t) (String.length s)) st' /\
      literal (suffix s (i p)) t.
Proof.
  induction n as [|n IH]; intros fuel p st A L F.
  - destruct fuel as [|[|[|[|k]]]]; try lia.
    destruct (charAt_within s (i p) ltac:(lia)) as [c C].
    pose proof (charAt_forall ordinary s (i p) c A C) as O.
    assert (N : inert s (i p + 1)) by (left; lia).
    change (no_pipes s settings_atom (S (S (S (S k)))))
      with (no_pipes_rule (term s settings_atom (S (S (S k))))
              (no_pipes s settings_atom (S (S (S k))))).
    unfold no_pipes_rule. cbn [alt]. unfold map at 1. unfold join.
    cbn [join_from].
    destruct (term_ordinary (S k) p st c C O N) as (u1 & st1 & T1). rewrite T1.
    destruct (no_pipes_stops (S (S (S k))) ltac:(lia)
                (Cursor (VNode (Node u1 (DStr (String c "")) [])) (i p + 1)) st1)
      as [st2 E2]; [simpl; lia|]. rewrite E2.
    destruct (term_ordinary (S k) p st2 c C O N) as (u3 & st3 & T3). rewrite T3.
    exists (Node u3 (DStr (String c "")) []), st3.
    replace (i p + 1) with (String.length s) by lia.
    split; [reflexivity|].
    rewrite (suffix_step s (i p) c ltac:(lia) C).
    replace (S (i p)) with (String.length s) by lia.
    rewrite suffix_end. now exists u3.
  - destruct fuel as [|fuel]; [lia|].
    destruct (charAt_within s (i p) ltac:(lia)) as [c C].
    pose proof (charAt_forall ordinary s (i p) c A C) as O.
    destruct (charAt_within s (i p + 1) ltac:(lia)) as [c' C'].
    pose proof (charAt_forall ordinary s (i p + 1) c' A C') as O'.
    assert (N : inert s (i p + 1)) by (right; now exists c').
    change (no_pipes s settings_atom (S fuel))
      with (no_pipes_rule (term s settings_atom fuel)
              (no_pipes s settings_atom fuel)).
    unfold no_pipes_rule. cbn [alt]. unfold map at 1. unfold join.
    cbn [join_from].
    destruct fuel as [|[|k]]; try lia.
    destruct (term_ordinary k p st c C O N) as (u1 & st1 & T1). rewrite T1.
    destruct (IH (S (S k))
                (Cursor (VNode (Node u1 (DStr (String c "")) [])) (i p + 1)) st1 A
                ltac:(simpl; lia) ltac:(lia)) as (t & st2 & E2 & Lt).
    rewrite E2. cbn [v i at_ nth app as_node bind node_ ret].
    eexists. eexists. split; [reflexivity|].
    rewrite (suffix_step s (i p) c ltac:(lia) C).
    cbn [i] in Lt. replace (i p + 1) with (S (i p)) in Lt by lia.
    rewrite (suffix_step s (S (i p)) c' ltac:(lia)) in *
      by (replace (S (i p)) with (i p + 1) by lia; exact C').
    cbn [literal]. eexists. eexists. eexists. split; [reflexivity|exact Lt].
Qed.

Lemma toplevel_ordinary (p : cursor) (st : state) :
  string_forall ordinary s = true ->
  s <> "" -> i p = 0 ->
  exists t st',
    toplevel s settings_atom (fuel_for s) p st
      = Success (Cursor (VNode t) (String.length s)) st' /\
    literal s t.
Proof.
  intros A Ne Z.
  assert (L : 0 < String.length s) by (destruct s; [congruence|simpl; lia]).
  unfold fuel_for.
  replace (4 * String.length s + 4) with (S (4 * String.length s + 3)) by lia.
  change (toplevel s settings_atom (S (4 * String.length s + 3)))
    with (toplevel_rule s (no_pipes s settings_atom (4 * String.length s + 3))
            (toplevel s settings_atom (4 * String.length s + 3))).
  unfold toplevel_rule. cbn [alt]. unfold map at 1. unfold join.
  cbn [join_from].
  destruct (no_pipes_ordinary (String.length s - 1) (4 * String.length s + 3)
              p st A ltac:(lia) ltac:(lia)) as (t1 & st1 & E1 & _).
  rewrite E1.
  rewrite char_inert by (try reflexivity; left; simpl; lia).
  destruct (no_pipes_ordinary (String.length s - 1) (4 * String.length s + 3)
              p st1 A ltac:(lia) ltac:(lia)) as (t2 & st2 & E2 & L2).
  rewrite E2. exists t2, st2. split; [reflexivity|].
  rewrite Z, suffix_zero in L2. exact L2.
Qed.

End Ordinary.

Lemma toString_join (u : nat) (a b : node) :
  toString (Node u (DStr ",") [a; b])
    = option_bind (toString a) (fun x =>
        option_bind (toString b) (fun y => Some (x ++ y))).
Proof. reflexivity. Qed.

Lemma minimum_length_join (u : nat) (a b : node) :
  minimum_length (Node u (DStr ",") [a; b])
    = option_bind (minimum_length a) (fun x =>
        option_bind (minimum_length b) (fun y => Some (x + y)%N)).
Proof. reflexivity. Qed.

(** The leaf of an ordinary character prints as that character and has
    minimum length 1. *)
Lemma ordinary_leaf (u : nat) (c : ascii) :
  ordinary c = true ->
  toString (Node u (DStr (String c "")) []) = Some (String c "") /\
  minimum_length (Node u (DStr (String c "")) []) = Some 1%N.
Proof.
  intros O.
  destruct c as [[] [] [] [] [] [] [] []];
    try (vm_compute in O; discriminate O); split; vm_compute; reflexivity.
Qed.

Lemma literal_methods (t : string) :
  forall n,
    string_forall ordinary t = true -> literal t n ->
    toString n = Some t /\
    minimum_length n = Some (N.of_nat (String.length t)).
Proof.
  induction t as [|c rest IH]; intros n A L; [contradiction|].
  cbn [string_forall] in A. apply andb_prop in A as [O A].
  destruct rest as [|c' rest].
  - destruct L as [u E]. subst n. exact (ordinary_leaf u c O).
  - destruct L as (u & u1 & n' & E & L'). subst n.
    destruct (IH n' A L') as [T M].
    destruct (ordinary_leaf u1 c O) as [T1 M1].
    rewrite toString_join, minimum_length_join, T, M, T1, M1.
    cbn [option_bind]. split; [reflexivity|].
    f_equal. cbn [String.length]. lia.
Qed.

Lemma ordinary_pieces (s : string) :
  string_forall ordinary s = true -> pieces s = Some (s, None).
Proof.
  intros A. unfold pieces.
  assert (D : exec_delimited s = None).
  { unfold exec_delimited. destruct s as [|a s]; [reflexivity|].
    cbn [string_forall] in A. apply andb_prop in A as [O _].
    now rewrite (ordinary_not_special a "/" O eq_refl). }
  assert (B : string_exists line_terminator s = false).
  { clear D. induction s as [|a s IH]; [reflexivity|].
    cbn [string_forall] in A. apply andb_prop in A as [O A].
    cbn [string_exists]. rewrite (IH A), orb_false_r.
    unfold ordinary in O. apply andb_prop in O as [_ O].
    now apply negb_true_iff in O. }
  unfold exec_bare. now rewrite D, B.
Qed.

Lemma ordinary_no_parenthesis (s : string) :
  string_forall ordinary s = true -> string_exists (Ascii.eqb "(") s = false.
Proof.
  induction s as [|a s IH]; [reflexivity|]. intros A.
  cbn [string_forall] in A. apply andb_prop in A as [O A].
  cbn [string_exists]. rewrite (IH A), orb_false_r.
  rewrite Ascii.eqb_sym. exact (ordinary_not_special a "(" O eq_refl).
Qed.

(** X10.  A pattern of ordinary characters (none of the characters of the
    grammar, no slash, no line terminator), parsed with the default
    setting, gives the tree of its characters: one leaf for each, joined
    to the right.  No group is registered, [toString] prints the pattern
    back and [minimum_length] is its length. *)
Theorem X10_ordinary_patterns_parse_to_their_characters (s : string) :
  s <> "" ->
  string_forall ordinary s = true ->
  exists t,
    regexp_parse s None = Returns t /\
    literal s (root t) /\
    match_groups t = [] /\
    toString (root t) = Some s /\
    minimum_length (root t) = Some (N.of_nat (String.length s)).
Proof.
  intros Ne A.
  destruct (toplevel_ordinary s "character" eq_refl initial_cursor initial_state
              A Ne eq_refl) as (n & st & T & L).
  assert (G : groups st = []).
  { set (Q := fun st : state => groups st = []).
    assert (Qr : forall st1 st2, groups st2 = groups st1 -> Q st1 -> Q st2)
      by (unfold Q; intros st1 st2 E H; now rewrite E).
    assert (Gr : forall P, preserves Q P -> preserves Q (group s P)).
    { intros P _. unfold group. apply map_join_dead, string_dead.
      now apply ordinary_no_parenthesis. }
    destruct (grammar_preserves s "character" Q Qr Gr (fuel_for s))
      as (_ & _ & _ & H).
    specialize (H initial_cursor initial_state eq_refl).
    rewrite T in H. exact H. }
  exists (Tree n (Context [] (flags_of None))).
  split.
  - unfold regexp_parse. rewrite (ordinary_pieces s A).
    unfold join. cbn [join_from settings_atom_of]. rewrite T.
    unfold end_. cbn [i]. rewrite Nat.eqb_refl.
    cbn [join_from v at_ nth app as_node]. now rewrite G.
  - cbn [root match_groups tree_context context_groups].
    destruct (literal_methods s n A L) as [Ts Ms].
    repeat split; assumption.
Qed.

Lemma X10_ordinary_patterns_parse_to_their_characters_witness :
  exists t,
    regexp_parse "hello, world" None = Returns t /\
    toString (root t) = Some "hello, world" /\
    minimum_length (root t) = Some 12%N.
Proof.
  destruct (X10_ordinary_patterns_parse_to_their_characters "hello, world"
              ltac:(discriminate) eq_refl) as (t & P & _ & _ & T & M).
  exists t. repeat split; assumption.
Defined.

(** ** The [atom] setting *)

Section Setting.

Variable s : string.
Variables a a' : string.
Hypothesis same_mode : word_mode a = word_mode a'.

Ltac refine_rule :=
  repeat match goal with
    | H : refines ?P ?Q |- refines ?P ?Q => exact H
    | |- refines (map _ _) (map _ _) => apply map_refines
    | |- refines (join _) (join _) => apply join_refines
    | |- refines (alt _) (alt _) => apply alt_refines
    | |- Forall2 _ (_ :: _) (_ :: _) => apply Forall2_cons
    | |- Forall2 _ [] [] => apply Forall2_nil
    | |- refines ?P ?P => apply refines_refl
    end.

Lemma base_setting (T T' : parser) :
  refines T T' -> refines (base s a T) (base s a' T').
Proof.
  intros H.
  unfold base, maybe_munch_spaces, maybe_word, positive_lookahead,
    negative_lookahead, forgetful_group, group.
  rewrite same_mode. refine_rule.
Qed.

(** The setting is read through [settings.atom === 'word'] only. *)
Lemma grammar_setting (fuel : nat) :
  refines (atom s a fuel) (atom s a' fuel) /\
  refines (term s a fuel) (term s a' fuel) /\
  refines (no_pipes s a fuel) (no_pipes s a' fuel) /\
  refines (toplevel s a fuel) (toplevel s a' fuel).
Proof.
  induction fuel as [|k (Ha & Ht & Hn & Hp)].
  - repeat split; intros p st H; now elim H.
  - split; [|split; [|split]].
    + change (refines (base s a (toplevel s a k)) (base s a' (toplevel s a' k))).
      now apply base_setting.
    + change (refines (term_rule s (atom s a k)) (term_rule s (atom s a' k))).
      unfold term_rule. refine_rule.
    + change (refines (no_pipes_rule (term s a k) (no_pipes s a k))
                      (no_pipes_rule (term s a' k) (no_pipes s a' k))).
      unfold no_pipes_rule. refine_rule.
    + change (refines (toplevel_rule s (no_pipes s a k) (toplevel s a k))
                      (toplevel_rule s (no_pipes s a' k) (toplevel s a' k))).
      unfold toplevel_rule. refine_rule.
Qed.

End Setting.

(** X11.  Any value of the option [atom] other than ['word'] is the default:
    the parse is the one made without options. *)
Theorem X11_only_word_changes_the_atoms (r a : string) :
  a <> "word" ->
  regexp_parse r (Some a) = regexp_parse r None.
Proof.
  intros Ne. unfold regexp_parse.
  destruct (pieces r) as [[s suffix]|]; [|reflexivity].
  cbn [settings_atom_of].
  assert (M : word_mode a = word_mode "character").
  { unfold word_mode. cbn. now apply String.eqb_neq. }
  destruct (grammar_setting s a "character" M (fuel_for s)) as (_ & _ & _ & R).
  destruct (toplevel_covers s a initial_cursor initial_state) as [H1 _];
    [simpl; lia|].
  unfold join. cbn [join_from].
  now rewrite (R initial_cursor initial_state H1).
Qed.

Lemma X11_only_word_changes_the_atoms_witness :
  regexp_parse "foo bar+" (Some "Word") = regexp_parse "foo bar+" None /\
  regexp_parse "foo bar+" (Some "word") <> regexp_parse "foo bar+" None.
Proof.
  split.
  - apply (X11_only_word_changes_the_atoms "foo bar+" "Word"). discriminate.
  - vm_compute. discriminate.
Defined.

(** ** Runs of characters *)

Lemma substring_none (t : string) (k : nat) : substring k 0 t = "".
Proof.
  revert k. induction t as [|a t IH]; intros [|k]; try reflexivity. apply IH.
Qed.

Lemma last_default {A : Type} (x : A) (l : list A) (d d' : A) :
  last (x :: l) d = last (x :: l) d'.
Proof.
  revert x. induction l as [|y l IH]; intros x; [reflexivity|].
  change (last (y :: l) d = last (y :: l) d'). apply IH.
Qed.

Lemma char_reads (s cs : string) (p r : cursor) (st st' : state) :
  char s cs p st = Success r st' ->
  exists c,
    charAt s (i p) = String c "" /\ string_exists (Ascii.eqb c) cs = true /\
    r = Cursor (VStr (String c "")) (i p + 1) /\ st' = st /\
    i p < String.length s.
Proof.
  unfold char. destruct (i p <? String.length s) eqn:L; [|discriminate].
  apply Nat.ltb_lt in L. destruct (charAt_within s (i p) L) as [c C].
  rewrite C, found_indexOf_char. cbn [andb].
  destruct (string_exists (Ascii.eqb c) cs) eqn:E; [|discriminate].
  intros H. inversion H; subst. now exists c.
Qed.

Lemma char_fails (s cs : string) (p : cursor) (st st' : state) :
  char s cs p st = Failure st' -> st' = st.
Proof.
  unfold char. destruct (_ && _); [discriminate|]. now inversion 1.
Qed.

Lemma char_cursor (s cs : string) (p q : cursor) (st : state) :
  i p = i q ->
  (exists st', char s cs p st = Failure st') ->
  char s cs q st = Failure st.
Proof.
  intros E [st' H]. unfold char in *. rewrite <- E.
  destruct (_ && _); [discriminate H|reflexivity].
Qed.

(** The unfold of [many] over a set of characters: it walks the run of
    characters of the set that starts at the cursor, to its end. *)
Lemma unfold_char (s cs : string) :
  forall budget x st it st',
    unfold (char s cs) budget x st = Some (it, st') ->
    st' = st /\
    exists rest,
      it = x :: rest /\
      i (last it x) = i x + List.length rest /\
      (rest <> [] -> i (last it x) <= String.length s) /\
      join_strings (VArr (List.map v rest))
        = substring (i x) (List.length rest) s /\
      string_forall (fun c => string_exists (Ascii.eqb c) cs)
        (substring (i x) (List.length rest) s) = true /\
      char s cs (last it x) st = Failure st.
Proof.
  induction budget as [|b IH]; intros x st it st' H; cbn [unfold] in H.
  - destruct (char s cs x st) as [y st1|st1|] eqn:C; try discriminate H.
    inversion H; subst. apply char_fails in C as E. subst st'.
    split; [reflexivity|]. exists []. cbn [List.length last List.map].
    rewrite substring_none.
    split; [reflexivity|]. split; [lia|]. split; [intros N; now elim N|].
    split; [reflexivity|]. split; [reflexivity|exact C].
  - destruct (char s cs x st) as [y st1|st1|] eqn:C.
    + destruct (unfold (char s cs) b y st1) as [[rest st2]|] eqn:U;
        try discriminate H.
      inversion H; subst it st2. clear H.
      apply char_reads in C as (c & Cc & In & Ey & Es & L). subst st1.
      destruct (IH y st rest st' U) as (E & rest' & Er & Il & Bl & J & F & M).
      subst st' rest.
      split; [reflexivity|]. exists (y :: rest').
      rewrite (last_default y rest' y x) in Il, Bl, M.
      change (last (x :: y :: rest') x) with (last (y :: rest') x).
      assert (Iy : i y = S (i x)) by (subst y; simpl; lia).
      rewrite Iy in *.
      split; [reflexivity|]. split; [cbn [List.length]; lia|].
      split.
      { intros _. destruct rest' as [|z rest'].
        - cbn [last]. lia.
        - apply Bl. discriminate. }
      cbn [List.length List.map].
      rewrite (substring_step s (i x) _ c Cc).
      split.
      { unfold join_strings in *. cbn [fold_right]. rewrite J.
        subst y. reflexivity. }
      split; [|exact M].
      cbn [string_forall]. now rewrite In, F.
    + inversion H; subst. apply char_fails in C as E. subst st'.
      split; [reflexivity|]. exists []. cbn [List.length last List.map].
      rewrite substring_none.
      split; [reflexivity|]. split; [lia|]. split; [intros N; now elim N|].
      split; [reflexivity|]. split; [reflexivity|exact C].
    + discriminate H.
Qed.

(** The double of a run of digits: exact below 2^53, rounded to the
    nearest double above (ties to even), [Infinity] from 2^1024 - 2^970
    on. *)
Lemma to_double_exact (n : N) : (n < 2 ^ 53)%N -> to_double n = Some n.
Proof.
  intros L. unfold to_double.
  now replace (n <? 2 ^ 53)%N with true by (symmetry; now apply N.ltb_lt).
Qed.

Lemma unary_plus_examples :
  unary_plus "007" = VNum 7 /\
  unary_plus "9007199254740992" = VNum 9007199254740992 /\
  unary_plus "9007199254740993" = VNum 9007199254740992 /\
  unary_plus "9007199254740995" = VNum 9007199254740996 /\
  unary_plus "27021597764222982" = VNum 27021597764222984 /\
  unary_plus "123456789012345678901234567890" = VNum 123456789012345677877719597056 /\
  unary_plus "179769313486231580793728971405303415079934132710037826936173778980444968292764750946649017977587207096330286416692887910946555547851940402630657488671505820681908902000708383676273854845817711531764475730270069855571366959622842914819860834936475292719074168444365510704342711559699508093042880177904174497791" = VNum 179769313486231570814527423731704356798070567525844996598917476803157260780028538760589558632766878171540458953514382464234321326889464182768467546703537516986049910576551282076245490090389328944075868508455133942304583236903222948165808559332123348274797826204144723168738177180919299881250404026184124858368 /\
  unary_plus "179769313486231580793728971405303415079934132710037826936173778980444968292764750946649017977587207096330286416692887910946555547851940402630657488671505820681908902000708383676273854845817711531764475730270069855571366959622842914819860834936475292719074168444365510704342711559699508093042880177904174497792" = VInfinity.
Proof. repeat split; vm_compute; reflexivity. Qed.

(** X12.  [number] reads the whole run of decimal digits that starts at
    the cursor, which is not empty and ends at the end of the pattern or
    before a character that is no digit, and leaves the state as it was.
    Its value is unary [+] of the run: the integer the run denotes, leading
    zeros included, when that is below 2^53, and the double nearest to it
    in general. *)
Theorem X12_number_reads_the_whole_run_of_digits
    (s : string) (p r : cursor) (st st' : state) :
  number s p st = Success r st' ->
  i p < i r <= String.length s /\
  string_forall (fun c => string_exists (Ascii.eqb c) "0123456789")
    (substring (i p) (i r - i p) s) = true /\
  digit s r st = Failure st /\
  v r = unary_plus (substring (i p) (i r - i p) s) /\
  ((to_number (substring (i p) (i r - i p) s) < 2 ^ 53)%N ->
   v r = VNum (to_number (substring (i p) (i r - i p) s))) /\
  st' = st.
Proof.
  unfold number, map, many.
  destruct (unfold (digit s) (String.length s) p st) as [[it st1]|] eqn:U;
    [|discriminate].
  unfold digit in U.
  destruct (unfold_char s _ _ p st it st1 U)
    as (E & rest & Ei & Il & Bl & J & F & M).
  subst st1 it. destruct rest as [|y rest]; [discriminate|].
  change (1 <? List.length (p :: y :: rest)) with true. cbn iota.
  cbn [ret tl].
  specialize (Bl ltac:(discriminate)).
  remember (last (p :: y :: rest) p) as e eqn:Ee.
  remember (List.map v (y :: rest)) as vs eqn:Ev.
  remember (List.length (y :: rest)) as n eqn:En.
  assert (Pn : 0 < n) by (subst n; simpl; lia).
  intros H. cbn [v i] in H. rewrite J in H. inversion H; subst r st'.
  cbn [v i].
  replace (i e - i p) with n by lia.
  split; [lia|].
  split; [exact F|].
  split; [unfold digit; apply (char_cursor s _ e); [reflexivity|]; now exists st|].
  split; [reflexivity|]. split; [|reflexivity].
  intros L. unfold unary_plus. now rewrite (to_double_exact _ L).
Qed.

Lemma X12_number_reads_the_whole_run_of_digits_witness :
  exists r st',
    number "a{007,9}" (Cursor VUndefined 2) initial_state = Success r st' /\
    i r = 5 /\ v r = VNum 7.
Proof.
  eexists. eexists. split; [vm_compute; reflexivity|].
  destruct (X12_number_reads_the_whole_run_of_digits "a{007,9}"
              (Cursor VUndefined 2) (Cursor (VNum 7) 5) initial_state initial_state
              eq_refl) as (_ & _ & _ & _ & V & _).
  split; [reflexivity|exact (V eq_refl)].
Defined.

(** ** Quantified terms *)

Lemma yields_alt (R : val -> Prop) (ps : list parser) :
  Forall (yields R) ps -> yields R (alt ps).
Proof.
  induction 1 as [|P ps HP _ IH]; intros p st r st' H; simpl in H;
    [discriminate H|].
  destruct (P p st) as [r1 st1|st1|] eqn:E; try discriminate H.
  - inversion H; subst. exact (HP p st r st' E).
  - exact (IH p st1 r st' H).
Qed.

Lemma yields_char (s : string) (x : ascii) :
  yields (eq (VStr (String x ""))) (char s (String x "")).
Proof.
  intros p st r st' H. apply char_reads in H as (c & _ & In & E & _).
  subst r. cbn [v]. cbn [string_exists] in In. rewrite orb_false_r in In.
  apply Ascii.eqb_eq in In. now subst.
Qed.

Lemma yields_number (s : string) :
  yields (fun x => (exists n, x = VNum n) \/ x = VInfinity) (number s).
Proof.
  intros p st r st' H. unfold number, map in H.
  destruct (many s (digit s) p st) as [r1 st1|st1|]; try discriminate H.
  cbn [ret] in H. inversion H; subst. cbn [v]. unfold unary_plus.
  destruct (to_double _); [left; eexists|right]; reflexivity.
Qed.

(** Taking a successful sequence apart. *)
Ltac crack H :=
  unfold map, join in H; cbn [join_from] in H;
  repeat match type of H with
    | context [match ?P ?x ?st with
               | Success _ _ => _ | Failure _ => _ | OutOfFuel => _ end] =>
        let E := fresh "E" in
        destruct (P x st) eqn:E; try discriminate H; cbn [join_from] in H
    end.

(** The values of the numbers read, one case for each. *)
Ltac number_values H :=
  repeat match goal with
    | E : number _ _ _ = Success _ _ |- _ =>
        apply yields_number in E as [[? E]|E]
    end;
  cbn [v at_ nth app] in H;
  repeat match goal with
    | E : v _ = VNum _ |- _ => rewrite E in H; clear E
    | E : v _ = VInfinity |- _ => rewrite E in H; clear E
    end.

Lemma yields_repetition (s : string) :
  yields (fun x => exists q, x = VNode q /\ plain_quantifier q = true)
    (repetition s).
Proof.
  unfold repetition. apply yields_alt.
  repeat apply Forall_cons; try apply Forall_nil; intros p st r st' H;
    crack H; number_values H;
    cbn in H; inversion H; subst; cbn [v]; eexists; split; reflexivity.
Qed.

Lemma yields_leaf (s : string) (x : ascii) :
  yields (fun y => exists u, y = VNode (Node u (DStr (String x "")) []))
    (map (char s (String x "")) leaf).
Proof.
  intros p st r st' H. unfold map in H.
  destruct (char s _ p st) as [r1 st1|st1|] eqn:E; try discriminate H.
  apply yields_char in E. rewrite <- E in H. cbn in H.
  inversion H; subst. cbn [v]. eexists. reflexivity.
Qed.

Lemma yields_modifier (s : string) :
  yields (fun x => exists q, x = VNode q /\ plain_quantifier q = true)
    (modifier s).
Proof.
  unfold modifier. apply yields_alt.
  repeat apply Forall_cons; try apply Forall_nil.
  - intros p st r st' H. apply yields_leaf in H as [u E]. rewrite E.
    eexists. split; reflexivity.
  - intros p st r st' H. apply yields_leaf in H as [u E]. rewrite E.
    eexists. split; reflexivity.
  - apply yields_repetition.
Qed.

Lemma yields_modifiers (s : string) :
  yields (fun x => exists q, x = VNode q /\ quantifier q = true) (modifiers s).
Proof.
  unfold modifiers. apply yields_alt.
  repeat apply Forall_cons; try apply Forall_nil; intros p st r st' H.
  - crack H.
    match goal with E : modifier s _ _ = _ |- _ =>
      apply yields_modifier in E as (q & Eq & Pq) end.
    match goal with E : non_greedy s _ _ = _ |- _ =>
      apply yields_char in E end.
    cbn [v at_ nth app ret] in H.
    match goal with E : _ = v _ |- _ => rewrite <- E in H end.
    rewrite Eq in H. inversion H; subst. cbn [v as_node val_to_string].
    eexists. split; [reflexivity|].
    destruct q as [|u [d| |] [|lo [|hi [|]]]]; try discriminate Pq;
      cbn [plain_quantifier] in Pq; cbn [append_data data_to_string quantifier].
    + apply orb_prop in Pq as [Pq|Pq]; apply String.eqb_eq in Pq; subst d;
        reflexivity.
    + apply andb_prop in Pq as [Pq Hi]. apply andb_prop in Pq as [Pq Lo].
      apply String.eqb_eq in Pq. subst d. cbn. now rewrite Lo, Hi.
  - apply yields_modifier in H as (q & Eq & Pq). exists q. split; [exact Eq|].
    destruct q as [|u [d| |] [|lo [|hi [|]]]]; try discriminate Pq;
      cbn [plain_quantifier] in Pq; cbn [quantifier].
    + apply orb_prop in Pq as [Pq|Pq]; rewrite Pq; now rewrite ?orb_true_r.
    + apply andb_prop in Pq as [Pq Hi]. apply andb_prop in Pq as [Pq Lo].
      now rewrite Pq, Lo, Hi.
  - apply yields_leaf in H as [u E]. rewrite E. eexists. split; reflexivity.
Qed.

(** The methods on a quantifier node that holds its body. *)
Lemma quantifier_methods (q a : node) :
  quantifier q = true ->
  is_repetition (push q a) = true /\
  repeated_child (push q a) = a /\
  (exists d, lower_limit (push q a) = Some d /\
             (d = DInfinity \/ exists m, d = DNum m)) /\
  (exists d, upper_limit (push q a) = Some d /\
             (d = DInfinity \/ exists m, d = DNum m)).
Proof.
  intros Q.
  destruct q as [|u [d| |] [|lo [|hi [|]]]]; try discriminate Q;
    cbn [quantifier] in Q.
  - repeat (apply orb_prop in Q as [Q|Q]); apply String.eqb_eq in Q; subst d;
      (split; [reflexivity|]); (split; [reflexivity|]);
      split; eexists; (split; [reflexivity|]); eauto.
  - apply andb_prop in Q as [Q Hi]. apply andb_prop in Q as [Q Lo].
    destruct lo as [|ul [|nl|] [|]]; try discriminate Lo;
      destruct hi as [|uh [|nh|] [|]]; try discriminate Hi;
      apply orb_prop in Q as [Q|Q]; apply String.eqb_eq in Q; subst d;
      (split; [reflexivity|]); (split; [reflexivity|]);
      split; eexists; (split; [reflexivity|]); eauto.
Qed.

(** X13.  A term is the atom alone, or the node of a quantifier with the
    node of the atom pushed as its last child.  The methods understand every
    such node: [is_repetition()] holds, [repeated_child()] is the atom, and
    [lower_limit()] and [upper_limit()] return a number or [Infinity]
    (a bound whose digits overflow is [Infinity] too); neither raises. *)
Theorem X13_quantified_term_is_a_repetition
    (s : string) (A : parser) (p r : cursor) (st st' : state) :
  term_rule s A p st = Success r st' ->
  (exists st1, A p st1 = Success r st') \/
  (exists ra st1 t,
     A p st = Success ra st1 /\ v r = VNode t /\
     is_repetition t = true /\
     repeated_child t = as_node (v ra) /\
     (exists d, lower_limit t = Some d /\
                (d = DInfinity \/ exists m, d = DNum m)) /\
     (exists d, upper_limit t = Some d /\
                (d = DInfinity \/ exists m, d = DNum m))).
Proof.
  unfold term_rule. cbn [alt]. intros H.
  destruct (map _ _ p st) as [r1 st1|st1|] eqn:E; try discriminate H.
  - inversion H; subst r1 st1. clear H. right.
    unfold map, join in E. cbn [join_from] in E.
    destruct (A p st) as [ra sta|sta|] eqn:Ea; try discriminate E.
    destruct (modifiers s ra sta) as [rm stm|stm|] eqn:Em; try discriminate E.
    cbn [app v at_ nth ret] in E. inversion E; subst r st'. clear E.
    apply yields_modifiers in Em as (q & Eq & Q). rewrite Eq.
    cbn [as_node v i].
    exists ra, sta, (push q (as_node (v ra))).
    split; [reflexivity|]. split; [reflexivity|].
    exact (quantifier_methods q (as_node (v ra)) Q).
  - left. destruct (A p st1) as [r2 st2|st2|] eqn:E2; try discriminate H.
    inversion H; subst. now exists st1.
Qed.

Lemma X13_quantified_term_is_a_repetition_witness :
  exists r st',
    term_rule "ab{2,}?c" (atom "ab{2,}?c" "character" 3)
      (Cursor VUndefined 1) initial_state = Success r st' /\
    ((exists st1, atom "ab{2,}?c" "character" 3 (Cursor VUndefined 1) st1
                  = Success r st') \/
     (exists ra st1 t,
        atom "ab{2,}?c" "character" 3 (Cursor VUndefined 1) initial_state
          = Success ra st1 /\
        v r = VNode t /\
        is_repetition t = true /\
        repeated_child t = as_node (v ra) /\
        (exists d, lower_limit t = Some d /\
                   (d = DInfinity \/ exists m, d = DNum m)) /\
        (exists d, upper_limit t = Some d /\
                   (d = DInfinity \/ exists m, d = DNum m)))).
Proof.
  eexists. eexists. split; [vm_compute; reflexivity|].
  apply (X13_quantified_term_is_a_repetition "ab{2,}?c"). vm_compute. reflexivity.
Defined.

(** ** The lazy suffix *)

Lemma reads_last_alt (s cs : string) (ps : list parser) :
  Forall (reads_last s cs) ps -> reads_last s cs (alt ps).
Proof.
  induction 1 as [|P ps HP _ IH]; intros p st r st' H; simpl in H;
    [discriminate H|].
  destruct (P p st) as [r1 st1|st1|] eqn:E; try discriminate H.
  - inversion H; subst. exact (HP p st r st' E).
  - exact (IH p st1 r st' H).
Qed.

Lemma reads_last_map (s cs : string) (P : parser) (f : action) :
  reads_last s cs P -> reads_last s cs (map P f).
Proof.
  intros HP p st r st' H. unfold map in H.
  destruct (P p st) as [r1 st1|st1|] eqn:E; try discriminate H.
  destruct (f (v r1) st1) as [y st2]. inversion H; subst. cbn [i].
  exact (HP p st r1 st1 E).
Qed.

Lemma reads_last_char (s cs : string) (x : ascii) :
  string_exists (Ascii.eqb x) cs = true ->
  reads_last s cs (char s (String x "")).
Proof.
  intros In p st r st' H. apply char_reads in H as (c & C & Ic & E & _).
  subst r. cbn [i]. replace (i p + 1 - 1) with (i p) by lia.
  exists c. split; [exact C|].
  cbn [string_exists] in Ic. rewrite orb_false_r in Ic.
  apply Ascii.eqb_eq in Ic. now subst.
Qed.

Lemma reads_last_join_from (s cs : string) (x : ascii) (ps : list parser) :
  string_exists (Ascii.eqb x) cs = true ->
  forall ns, reads_last s cs
               (fun p st => join_from (ps ++ [char s (String x "")]) p ns st).
Proof.
  intros In. induction ps as [|P ps IH]; intros ns p st r st' H.
  - cbn [app join_from] in H.
    destruct (char s _ p st) as [r1 st1|st1|] eqn:E; try discriminate H.
    inversion H; subst. cbn [i].
    exact (reads_last_char s cs x In p st r1 st' E).
  - cbn [app join_from] in H.
    destruct (P p st) as [r1 st1|st1|] eqn:E; try discriminate H.
    exact (IH _ r1 st1 r st' H).
Qed.

Lemma reads_last_join (s cs : string) (x : ascii) (ps : list parser) :
  string_exists (Ascii.eqb x) cs = true ->
  reads_last s cs (join (ps ++ [char s (String x "")])).
Proof. intros In. exact (reads_last_join_from s cs x ps In []). Qed.

(** A quantifier without the lazy suffix ends with a star, a plus or a
    closing brace. *)
Lemma modifier_reads_last (s : string) : reads_last s "*+}" (modifier s).
Proof.
  unfold modifier, star, plus, repetition.
  apply reads_last_alt. repeat apply Forall_cons; try apply Forall_nil.
  - apply reads_last_map, reads_last_char. reflexivity.
  - apply reads_last_map, reads_last_char. reflexivity.
  - apply reads_last_alt. repeat apply Forall_cons; try apply Forall_nil;
      apply reads_last_map.
    + exact (reads_last_join s "*+}" "}" [char s "{"; number s] eq_refl).
    + exact (reads_last_join s "*+}" "}" [char s "{"; number s; char s ","]
               eq_refl).
    + exact (reads_last_join s "*+}" "}"
               [char s "{"; number s; char s ","; number s] eq_refl).
Qed.

Lemma plain_quantifier_is_greedy (q : node) :
  plain_quantifier q = true ->
  quantifier q = true /\ is_non_greedy q = false /\
  quantifier (append_data q "?") = true /\
  is_non_greedy (append_data q "?") = true /\
  is_optional (append_data q "?") = false.
Proof.
  intros Q.
  destruct q as [|u [d| |] [|lo [|hi [|]]]]; try discriminate Q;
    cbn [plain_quantifier] in Q.
  - apply orb_prop in Q as [Q|Q]; apply String.eqb_eq in Q; subst d;
      repeat split; reflexivity.
  - apply andb_prop in Q as [Q Hi]. apply andb_prop in Q as [Q Lo].
    apply String.eqb_eq in Q. subst d.
    cbn [append_data data_to_string quantifier]. cbn. rewrite Lo, Hi.
    repeat split; reflexivity.
Qed.

(** X14.  [modifiers] returns a quantifier node, and [is_non_greedy()] is
    true of it exactly when the quantifier was written with the lazy suffix:
    the last character read is a question mark and the node is not that of
    the optional [?] itself. *)
Theorem X14_non_greedy_marks_the_lazy_suffix
    (s : string) (p r : cursor) (st st' : state) :
  modifiers s p st = Success r st' ->
  exists q,
    v r = VNode q /\ quantifier q = true /\
    (is_non_greedy q = true <->
     charAt s (i r - 1) = "?" /\ is_optional q = false).
Proof.
  unfold modifiers. cbn [alt]. intros H.
  destruct (map _ _ p st) as [r1 st1|st1|] eqn:E1; try discriminate H.
  - inversion H; subst r1 st1. clear H.
    unfold map, join in E1. cbn [join_from] in E1.
    destruct (modifier s p st) as [rm stm|stm|] eqn:Em; try discriminate E1.
    destruct (non_greedy s rm stm) as [rn stn|stn|] eqn:En; try discriminate E1.
    cbn [app v at_ nth ret] in E1. inversion E1; subst r st'. clear E1.
    apply yields_modifier in Em as (q & Eq & Q).
    apply char_reads in En as (c & C & Ic & Er & _).
    cbn [string_exists] in Ic. rewrite orb_false_r in Ic.
    apply Ascii.eqb_eq in Ic. subst c rn. rewrite Eq.
    cbn [v i as_node val_to_string].
    destruct (plain_quantifier_is_greedy q Q) as (_ & _ & Q' & N & O).
    exists (append_data q "?"). split; [reflexivity|]. split; [exact Q'|].
    replace (i rm + 1 - 1) with (i rm) by lia.
    split; [intros _; split; [exact C|exact O]|intros _; exact N].
  - destruct (modifier s p st1) as [r2 st2|st2|] eqn:E2; try discriminate H.
    + inversion H; subst r2 st2. clear H.
      destruct (modifier_reads_last s p st1 r st' E2) as (c & C & Ic).
      apply yields_modifier in E2 as (q & Eq & Q).
      destruct (plain_quantifier_is_greedy q Q) as (Q' & N & _).
      exists q. split; [exact Eq|]. split; [exact Q'|].
      split; [rewrite N; discriminate|].
      intros [L _]. rewrite C in L. inversion L; subst c. discriminate Ic.
    + destruct (question_mark s p st2) as [r3 st3|st3|] eqn:E3;
        try discriminate H.
      inversion H; subst r3 st3. clear H.
      apply yields_leaf in E3 as [u E]. rewrite E.
      eexists. split; [reflexivity|]. split; [reflexivity|].
      split; [discriminate|]. intros [_ O]. discriminate O.
Qed.

Lemma X14_non_greedy_marks_the_lazy_suffix_witness :
  exists r st' q,
    modifiers "a{2,5}?" (Cursor VUndefined 1) initial_state = Success r st' /\
    v r = VNode q /\ quantifier q = true /\
    (is_non_greedy q = true <->
     charAt "a{2,5}?" (i r - 1) = "?" /\ is_optional q = false).
Proof.
  eexists. eexists.
  assert (H : modifiers "a{2,5}?" (Cursor VUndefined 1) initial_state
              = Success (Cursor (VNode (Node 2 (DStr "{?")
                                          [Node 0 (DNum 2) []; Node 1 (DNum 5) []]))
                           7)
                  (State [] 3))
    by (vm_compute; reflexivity).
  destruct (X14_non_greedy_marks_the_lazy_suffix _ _ _ _ _ H) as (q & E & Q).
  exists q. split; [exact H|]. split; [exact E|exact Q].
Defined.

(** ** The flags of an input without delimiters *)

(** X15.  For an input that is not in the delimited form there are no
    flags to read, and the three tests run on the text of [undefined]:
    whatever the pattern, [i()] is true, [m()] and [g()] are false. *)
Theorem X15_undelimited_input_reports_ignore_case
    (r : string) (options : option string) (t : tree) :
  exec_delimited r = None ->
  regexp_parse r options = Returns t ->
  method_i t = true /\ method_m t = false /\ method_g t = false.
Proof.
  intros D H. unfold regexp_parse, pieces in H. rewrite D in H.
  destruct (exec_bare r) as [body|]; [|discriminate H].
  destruct (join _ _ _) as [it st|st|]; try discriminate H.
  inversion H; subst. repeat split.
Qed.

Lemma X15_undelimited_input_reports_ignore_case_witness :
  exists t,
    regexp_parse "(a|b)*/m" None = Returns t /\
    method_i t = true /\ method_m t = false /\ method_g t = false.
Proof.
  eexists. split; [vm_compute; reflexivity|].
  eapply (X15_undelimited_input_reports_ignore_case "(a|b)*/m" None);
    [reflexivity|vm_compute; reflexivity].
Defined.

(** ** Identifiers in word mode *)

Lemma word_char_ordinary (c : ascii) :
  word_char c = true -> ordinary c = true /\ Ascii.eqb c " " = false.
Proof.
  intros W. destruct c as [[] [] [] [] [] [] [] []];
    try (vm_compute in W; discriminate W); split; reflexivity.
Qed.

Lemma word_inert (s : string) (k : nat) :
  string_forall word_char s = true -> inert s k.
Proof.
  intros A. destruct (Nat.lt_ge_cases k (String.length s)) as [L|L];
    [right|left; exact L].
  destruct (charAt_within s k L) as [c C]. exists c. split; [exact C|].
  exact (proj1 (word_char_ordinary c (charAt_forall word_char s k c A C))).
Qed.

Lemma unfold_fails (f : parser) (budget : nat) (x : cursor) (st st1 : state) :
  f x st = Failure st1 -> unfold f budget x st = Some ([x], st1).
Proof. intros H. destruct budget; simpl; now rewrite H. Qed.

(** Over a text of characters of [cs] the unfold of [char cs] takes one
    step for each character that is left. *)
Lemma unfold_run (s cs : string) :
  string_forall (fun c => string_exists (Ascii.eqb c) cs) s = true ->
  forall n budget x st,
    i x + n = String.length s -> n <= budget ->
    exists rest,
      unfold (char s cs) budget x st = Some (x :: rest, st) /\
      List.length rest = n.
Proof.
  intros A. induction n as [|n IH]; intros budget x st L B.
  - exists []. split; [|reflexivity]. apply unfold_fails. unfold char.
    replace (i x <? String.length s) with false
      by (symmetry; apply Nat.ltb_ge; lia). reflexivity.
  - destruct budget as [|b]; [lia|].
    destruct (charAt_within s (i x) ltac:(lia)) as [c C].
    pose proof (charAt_forall _ s (i x) c A C) as In. cbv beta in In.
    assert (E : char s cs x st
                = Success (Cursor (VStr (String c "")) (i x + 1)) st).
    { unfold char. rewrite C, found_indexOf_char, In.
      replace (i x <? String.length s) with true
        by (symmetry; apply Nat.ltb_lt; lia). reflexivity. }
    destruct (IH b (Cursor (VStr (String c "")) (i x + 1)) st
                ltac:(simpl; lia) ltac:(lia)) as (rest & U & Len).
    eexists. split; [simpl; rewrite E, U; reflexivity|]. simpl. lia.
Qed.

(** [many] then reads the text to its end. *)
Lemma many_run (s cs : string) (p : cursor) (st : state) :
  string_forall (fun c => string_exists (Ascii.eqb c) cs) s = true ->
  i p < String.length s ->
  exists vs,
    many s (char s cs) p st = Success (Cursor (VArr vs) (String.length s)) st /\
    join_strings (VArr vs) = suffix s (i p).
Proof.
  intros A L.
  destruct (unfold_run s cs A (String.length s - i p) (String.length s) p st
              ltac:(lia) ltac:(lia)) as (rest & U & Len).
  destruct (unfold_char s cs _ _ _ _ _ U) as (_ & rest' & E & La & _ & J & _).
  inversion E; subst rest'. clear E.
  unfold many. rewrite U.
  replace (1 <? List.length (p :: rest)) with true
    by (symmetry; apply Nat.ltb_lt; simpl; lia).
  cbn [tl]. rewrite La, Len.
  replace (i p + (String.length s - i p)) with (String.length s) by lia.
  exists (List.map v rest). split; [reflexivity|].
  rewrite J, Len. reflexivity.
Qed.

Lemma word_char_ident (s : string) :
  string_forall word_char s = true ->
  string_forall
    (fun c => string_exists (Ascii.eqb c)
       "0123456789ABCDEFGHIJKLMNOPQRSTUVWXYZabcdefghijklmnopqrstuvwxyz_") s
    = true.
Proof.
  induction s as [|a s IH]; [reflexivity|]. cbn [string_forall]. intros H.
  apply andb_prop in H as [W H]. rewrite (IH H), andb_true_r.
  unfold word_char in W. now rewrite found_indexOf_char in W.
Qed.

Section Word.

Variable s : string.
Hypothesis identifier : string_forall word_char s = true.

(** At a character of an identifier [atom], in word mode, reads the
    identifier to its end and returns one leaf that holds it. *)
Lemma atom_word (fuel : nat) (p : cursor) (st : state) :
  i p < String.length s ->
  atom s "word" (S fuel) p st
    = Success (Cursor (VNode (Node (next_uid st) (DStr (suffix s (i p))) []))
                 (String.length s))
        (State (groups st) (S (next_uid st))).
Proof.
  intros L.
  pose proof (word_inert s (i p) identifier) as H.
  destruct (charAt_within s (i p) L) as [c C].
  pose proof (charAt_forall word_char s (i p) c identifier C) as W.
  destruct (word_char_ordinary c W) as [_ Sp].
  change (atom s "word" (S fuel)) with (base s "word" (toplevel s "word" fuel)).
  unfold base, maybe_munch_spaces, maybe_word.
  change (word_mode "word") with true. cbv iota.
  unfold map at 1. unfold join. cbn [join_from].
  assert (M : many s (char s " ") p st = Failure st).
  { unfold many. rewrite (unfold_fails _ _ p st st); [reflexivity|].
    unfold char. rewrite C, found_indexOf_char. cbn [string_exists].
    rewrite Sp. now rewrite andb_false_r. }
  rewrite alt_skip by exact M.
  change (alt [zero] p st) with (Success p st). cbv iota.
  unfold positive_lookahead, negative_lookahead, forgetful_group, group,
    character_not_in, character_in.
  rewrite !alt_skip
    by (apply map_join_fails, string_inert; [exact H|reflexivity]).
  unfold zero_width. rewrite alt_skip
    by (apply map_fails, char_inert; [exact H|reflexivity]).
  unfold escaped. rewrite alt_skip
    by (apply map_join_fails, char_inert; [exact H|reflexivity]).
  unfold escaped_slash. rewrite alt_skip
    by (apply map_fails, string_inert; [exact H|reflexivity]).
  unfold control, hex_code, unicode. rewrite !alt_skip
    by (apply map_join_fails, string_inert; [exact H|reflexivity]).
  rewrite alt_skip.
  2:{ unfold backreference, two_digit_ordinal.
      rewrite map_join_fails by (apply char_inert; [exact H|reflexivity]).
      unfold single_digit_backreference.
      apply map_join_fails, char_inert; [exact H|reflexivity]. }
  unfold dot. rewrite alt_skip
    by (apply map_fails, char_inert; [exact H|reflexivity]).
  cbn [alt]. unfold map, ident.
  destruct (many_run s _ p st (word_char_ident s identifier) L) as (vs & E & J).
  rewrite E. cbn [v i bind node_ ret]. rewrite J. reflexivity.
Qed.

(** The identifier is the whole of what is left, so no quantifier, no
    further term and no alternative follow it. *)
Lemma term_word (fuel : nat) (p : cursor) (st : state) :
  i p < String.length s ->
  exists u st',
    term s "word" (S (S fuel)) p st
      = Success (Cursor (VNode (Node u (DStr (suffix s (i p))) []))
                   (String.length s)) st'.
Proof.
  intros L.
  change (term s "word" (S (S fuel))) with (term_rule s (atom s "word" (S fuel))).
  unfold term_rule. cbn [alt]. unfold map at 1. unfold join. cbn [join_from].
  rewrite (atom_word fuel p st L).
  rewrite modifiers_inert by (left; simpl; lia).
  rewrite (atom_word fuel p _ L).
  eexists. eexists. reflexivity.
Qed.

Lemma no_pipes_word (fuel : nat) (p : cursor) (st : state) :
  i p < String.length s ->
  exists u st',
    no_pipes s "word" (S (S (S (S fuel)))) p st
      = Success (Cursor (VNode (Node u (DStr (suffix s (i p))) []))
                   (String.length s)) st'.
Proof.
  intros L.
  change (no_pipes s "word" (S (S (S (S fuel)))))
    with (no_pipes_rule (term s "word" (S (S (S fuel))))
            (no_pipes s "word" (S (S (S fuel))))).
  unfold no_pipes_rule. cbn [alt]. unfold map at 1. unfold join.
  cbn [join_from].
  destruct (term_word (S fuel) p st L) as (u1 & st1 & T1). rewrite T1.
  destruct (no_pipes_stops s "word" (S (S (S fuel))) ltac:(lia)
              (Cursor (VNode (Node u1 (DStr (suffix s (i p))) []))
                 (String.length s)) st1)
    as [st2 E2]; [simpl; lia|]. rewrite E2.
  destruct (term_word (S fuel) p st2 L) as (u3 & st3 & T3). rewrite T3.
  now exists u3, st3.
Qed.

Lemma toplevel_word (p : cursor) (st : state) :
  s <> "" -> i p = 0 ->
  exists u st',
    toplevel s "word" (fuel_for s) p st
      = Success (Cursor (VNode (Node u (DStr s) [])) (String.length s)) st'.
Proof.
  intros Ne Z.
  assert (L : 0 < String.length s) by (destruct s; [congruence|simpl; lia]).
  unfold fuel_for.
  replace (4 * String.length s + 4)
    with (S (S (S (S (S (4 * String.length s - 1)))))) by lia.
  set (k := 4 * String.length s - 1).
  change (toplevel s "word" (S (S (S (S (S k))))))
    with (toplevel_rule s (no_pipes s "word" (S (S (S (S k)))))
            (toplevel s "word" (S (S (S (S k)))))).
  unfold toplevel_rule. cbn [alt]. unfold map at 1. unfold join.
  cbn [join_from].
  destruct (no_pipes_word k p st ltac:(lia)) as (u1 & st1 & E1). rewrite E1.
  rewrite char_inert by (try reflexivity; left; simpl; lia).
  destruct (no_pipes_word k p st1 ltac:(lia)) as (u2 & st2 & E2). rewrite E2.
  exists u2, st2. now rewrite Z, suffix_zero.
Qed.

End Word.

(** The leaf of an identifier: no test of the methods takes it for
    anything but an atom. *)
Lemma word_leaf (u : nat) (c : ascii) (rest : string) :
  word_char c = true ->
  toString (Node u (DStr (String c rest)) [])
    = Some (if is_long_word (String c rest)
            then "(?:" ++ String c rest ++ ")" else String c rest) /\
  minimum_length (Node u (DStr (String c rest)) [])
    = Some (N.of_nat (String.length (String c rest))).
Proof.
  intros W.
  destruct c as [[] [] [] [] [] [] [] []];
    try (vm_compute in W; discriminate W);
    destruct rest as [|b rest]; (split; [|reflexivity]);
    match goal with
    | |- toString (Node _ (DStr ?x) _) = _ =>
        change (toString (Node u (DStr x) []))
          with (if is_long_word x then Some ("(?:" ++ x ++ ")") else Some x);
        now destruct (is_long_word x)
    end.
Qed.

Lemma word_ordinary (s : string) :
  string_forall word_char s = true -> string_forall ordinary s = true.
Proof.
  induction s as [|a s IH]; [reflexivity|]. cbn [string_forall]. intros H.
  apply andb_prop in H as [W H].
  now rewrite (proj1 (word_char_ordinary a W)), (IH H).
Qed.

(** X16.  With the setting [atom: 'word'] a pattern that is one identifier
    (letters, digits and underscores) parses to a single leaf that holds the
    identifier.  No group is registered, [minimum_length()] is the length of
    the identifier, and [toString()] wraps an identifier of two characters
    or more in a forgetful group. *)
Theorem X16_word_mode_reads_an_identifier_as_one_atom (s : string) :
  s <> "" ->
  string_forall word_char s = true ->
  exists t u,
    regexp_parse s (Some "word") = Returns t /\
    root t = Node u (DStr s) [] /\
    match_groups t = [] /\
    toString (root t)
      = Some (if 2 <=? String.length s then "(?:" ++ s ++ ")" else s) /\
    minimum_length (root t) = Some (N.of_nat (String.length s)).
Proof.
  intros Ne A.
  destruct (toplevel_word s A initial_cursor initial_state Ne eq_refl)
    as (u & st & T).
  pose proof (word_ordinary s A) as O.
  assert (G : groups st = []).
  { set (Q := fun st : state => groups st = []).
    assert (Qr : forall st1 st2, groups st2 = groups st1 -> Q st1 -> Q st2)
      by (unfold Q; intros st1 st2 E H; now rewrite E).
    assert (Gr : forall P, preserves Q P -> preserves Q (group s P)).
    { intros P _. unfold group. apply map_join_dead, string_dead.
      now apply ordinary_no_parenthesis. }
    destruct (grammar_preserves s "word" Q Qr Gr (fuel_for s))
      as (_ & _ & _ & H).
    specialize (H initial_cursor initial_state eq_refl).
    rewrite T in H. exact H. }
  exists (Tree (Node u (DStr s) []) (Context [] (flags_of None))), u.
  split.
  - unfold regexp_parse. rewrite (ordinary_pieces s O).
    unfold join. cbn [join_from settings_atom_of]. rewrite T.
    unfold end_. cbn [i]. rewrite Nat.eqb_refl.
    cbn [join_from v at_ nth app as_node]. now rewrite G.
  - cbn [root match_groups tree_context context_groups].
    split; [reflexivity|]. split; [reflexivity|].
    destruct s as [|c rest]; [congruence|].
    pose proof A as A'. cbn [string_forall] in A'.
    apply andb_prop in A' as [W _].
    destruct (word_leaf u c rest W) as [Ts Ms].
    split; [|exact Ms].
    rewrite Ts. unfold is_long_word. now rewrite A, andb_true_r.
Qed.

Lemma X16_word_mode_reads_an_identifier_as_one_atom_witness :
  exists t u,
    regexp_parse "foo_1" (Some "word") = Returns t /\
    root t = Node u (DStr "foo_1") [] /\
    toString (root t) = Some "(?:foo_1)" /\
    minimum_length (root t) = Some 5%N.
Proof.
  destruct (X16_word_mode_reads_an_identifier_as_one_atom "foo_1"
              ltac:(discriminate) eq_refl) as (t & u & P & R & _ & T & M).
  exists t, u. repeat split; assumption.
Defined.

(** ** The values of the rules *)

Lemma yields_map (R : val -> Prop) (P : parser) (f : action) :
  (forall x st, R (fst (f x st))) -> yields R (map P f).
Proof.
  intros Hf p st r st' H. unfold map in H.
  destruct (P p st) as [r1 st1|st1|]; try discriminate H.
  specialize (Hf (v r1) st1). destruct (f (v r1) st1) as [y st2].
  inversion H; subst. exact Hf.
Qed.

(** An action that ends with the allocation of a node returns it. *)
Ltac builds_node :=
  apply yields_map; intros x st; eexists; eexists; eexists; reflexivity.

Lemma yields_backreference (s : string) : yields proper (backreference s).
Proof.
  assert (S1 : yields proper (single_digit_backreference s))
    by (unfold single_digit_backreference; builds_node).
  intros p st r st' H. unfold backreference in H.
  destruct (two_digit_ordinal s p st) as [it st1|st1|]; try discriminate H;
    [|exact (S1 _ _ _ _ H)].
  destruct (v it) as [| |n| | |]; try exact (S1 _ _ _ _ H).
  destruct (n <=? N.of_nat (List.length (groups st1)))%N;
    [|exact (S1 _ _ _ _ H)].
  cbn in H. inversion H; subst. cbn [v]. eexists. eexists. eexists. reflexivity.
Qed.

Lemma yields_each (s : string) : yields proper (each s).
Proof.
  unfold each. apply yields_alt.
  repeat apply Forall_cons; try apply Forall_nil; builds_node.
Qed.

Lemma yields_character_class (s : string) (fuel : nat) :
  yields proper (character_class_fuel s fuel).
Proof.
  induction fuel as [|k IH]; intros p st r st' H; [discriminate H|].
  change (character_class_rule s (character_class_fuel s k) p st
          = Success r st') in H.
  revert p st r st' H. unfold character_class_rule. apply yields_alt.
  repeat apply Forall_cons; try apply Forall_nil;
    [builds_node|apply yields_each].
Qed.

Lemma yields_maybe_word (s settings_atom : string) :
  yields proper (maybe_word s settings_atom).
Proof.
  unfold maybe_word, other.
  destruct (word_mode settings_atom); [apply yields_alt|]; 
    repeat apply Forall_cons; try apply Forall_nil; builds_node.
Qed.

Lemma yields_base (s settings_atom : string) (T : parser) :
  yields proper (base s settings_atom T).
Proof.
  assert (A : yields proper
                (alt [positive_lookahead s T; negative_lookahead s T;
                      forgetful_group s T; group s T;
                      character_not_in s; character_in s; zero_width s;
                      escaped s; escaped_slash s; control s; hex_code s;
                      unicode s; backreference s; dot s;
                      maybe_word s settings_atom])).
  { apply yields_alt.
    repeat apply Forall_cons; try apply Forall_nil;
      try (first [apply yields_backreference | apply yields_maybe_word]);
      builds_node. }
  intros p st r st' H. unfold base, map, join in H. cbn [join_from] in H.
  destruct (maybe_munch_spaces s settings_atom p st) as [r1 st1|st1|];
    try discriminate H.
  destruct (alt _ r1 st1) as [r2 st2|st2|] eqn:E; try discriminate H.
  cbn [app ret] in H. inversion H; subst. cbn [v at_ nth].
  exact (A _ _ _ _ E).
Qed.

Lemma yields_term_rule (s : string) (A : parser) :
  yields proper A -> yields proper (term_rule s A).
Proof.
  intros HA. unfold term_rule. apply yields_alt.
  repeat apply Forall_cons; try apply Forall_nil; [|exact HA].
  intros p st r st' H. unfold map, join in H. cbn [join_from] in H.
  destruct (A p st) as [ra sta|sta|]; try discriminate H.
  destruct (modifiers s ra sta) as [rm stm|stm|] eqn:Em; try discriminate H.
  cbn [app v at_ nth ret] in H. inversion H; subst. cbn [v].
  apply yields_modifiers in Em as (q & Eq & Q). rewrite Eq. cbn [as_node].
  destruct q as [|u d xs]; [discriminate Q|].
  eexists. eexists. eexists. reflexivity.
Qed.

Lemma grammar_yields_nodes (s settings_atom : string) (fuel : nat) :
  yields proper (atom s settings_atom fuel) /\
  yields proper (term s settings_atom fuel) /\
  yields proper (no_pipes s settings_atom fuel) /\
  yields proper (toplevel s settings_atom fuel).
Proof.
  induction fuel as [|k (Ha & Ht & Hn & Hp)].
  - repeat split; intros p st r st' H; discriminate H.
  - split; [|split; [|split]].
    + change (yields proper (base s settings_atom (toplevel s settings_atom k))).
      apply yields_base.
    + change (yields proper (term_rule s (atom s settings_atom k))).
      now apply yields_term_rule.
    + change (yields proper (no_pipes_rule (term s settings_atom k)
                               (no_pipes s settings_atom k))).
      unfold no_pipes_rule. apply yields_alt.
      repeat apply Forall_cons; try apply Forall_nil; [builds_node|exact Ht].
    + change (yields proper (toplevel_rule s (no_pipes s settings_atom k)
                               (toplevel s settings_atom k))).
      unfold toplevel_rule. apply yields_alt.
      repeat apply Forall_cons; try apply Forall_nil; [builds_node|exact Hn].
Qed.

(** X17.  Every rule of the grammar hands on a syntax node as its value, so
    the tree [regexp_parse] returns is a node, with an identity, data and
    children, and never [undefined]. *)
Theorem X17_parse_returns_a_node
    (r : string) (options : option string) (t : tree) :
  regexp_parse r options = Returns t ->
  exists u d xs, root t = Node u d xs.
Proof.
  intros H.
  apply regexp_parse_returns in H as (s & suffix & it & st & _ & T & _ & E).
  subst t. cbn [root].
  destruct (grammar_yields_nodes s (settings_atom_of options) (fuel_for s))
    as (_ & _ & _ & Hp).
  destruct (Hp _ _ _ _ T) as (u & d & xs & Ev). rewrite Ev.
  now exists u, d, xs.
Qed.

Lemma X17_parse_returns_a_node_witness :
  exists t u d xs,
    regexp_parse "/^(a|[b-d])\1{2,}$/g" None = Returns t /\
    root t = Node u d xs.
Proof.
  eexists.
  assert (H : regexp_parse "/^(a|[b-d])\1{2,}$/g" None = Returns _)
    by (vm_compute; reflexivity).
  destruct (X17_parse_returns_a_node _ _ _ H) as (u & d & xs & E).
  exists u, d, xs. split; [exact H|exact E].
Defined.

(** ** Escapes *)

Lemma substring_app (t : string) :
  forall k n m,
    substring k (n + m) t = substring k n t ++ substring (k + n) m t.
Proof.
  induction t as [|a t IH]; intros k n m.
  - destruct k, n, m; reflexivity.
  - destruct k as [|k]; [|exact (IH k n m)].
    destruct n as [|n]; [reflexivity|].
    cbn [Nat.add substring append]. f_equal. exact (IH 0 n m).
Qed.

Lemma string_exists_substring (f : ascii -> bool) (t : string) :
  string_exists f t = false ->
  forall k n, string_exists f (substring k n t) = false.
Proof.
  induction t as [|a t IH]; intros H k n.
  - destruct k, n; reflexivity.
  - cbn [string_exists] in H. apply orb_false_elim in H as [Ha H].
    destruct k as [|k]; [|exact (IH H k n)].
    destruct n as [|n]; [reflexivity|].
    cbn [substring string_exists]. now rewrite Ha, (IH H 0 n).
Qed.

Lemma reads_text_char (s cs : string) : reads_text s (char s cs).
Proof.
  intros p st r st' H. apply char_reads in H as (c & C & _ & E & _).
  subst r. cbn [v i val_to_string]. split; [lia|].
  replace (i p + 1 - i p) with 1 by lia. symmetry. exact C.
Qed.

Lemma reads_text_string (s cs : string) : reads_text s (string_ s cs).
Proof.
  intros p st r st' H. unfold string_ in H.
  destruct (_ && _); [|discriminate H]. inversion H; subst.
  cbn [v i val_to_string]. split; [lia|].
  now replace (i p + String.length cs - i p) with (String.length cs) by lia.
Qed.

Lemma reads_text_any (s : string) (n : nat) : reads_text s (any s n).
Proof.
  intros p st r st' H. unfold any in H.
  destruct (i p <? String.length s); [|discriminate H]. inversion H; subst.
  cbn [v i val_to_string]. split; [lia|].
  now replace (i p + n - i p) with n by lia.
Qed.

(** A sequence of such parsers gathers the pieces of the text it reads. *)
Lemma join_from_text (s : string) (ps : list parser) :
  Forall (reads_text s) ps ->
  forall x0 ns st r st',
    join_from ps x0 ns st = Success r st' ->
    exists ms,
      v r = VArr (ns ++ ms) /\ i x0 <= i r /\
      join_strings (VArr ms) = substring (i x0) (i r - i x0) s.
Proof.
  induction 1 as [|P ps HP _ IH]; intros x0 ns st r st' H;
    cbn [join_from] in H.
  - inversion H; subst. exists []. cbn [v i]. rewrite app_nil_r, Nat.sub_diag.
    split; [reflexivity|]. split; [lia|]. now rewrite substring_none.
  - destruct (P x0 st) as [it st1|st1|] eqn:E; try discriminate H.
    destruct (HP _ _ _ _ E) as [L1 T1].
    destruct (IH _ _ _ _ _ H) as (ms & Ev & L2 & T2).
    exists (v it :: ms). rewrite Ev, <- app_assoc.
    split; [reflexivity|]. split; [lia|].
    cbn [join_strings fold_right]. cbn [join_strings] in T2. rewrite T1, T2.
    replace (i r - i x0) with ((i it - i x0) + (i r - i it)) by lia.
    rewrite substring_app.
    now replace (i x0 + (i it - i x0)) with (i it) by lia.
Qed.

(** The escapes that hold the text read: the four rules without
    [escaped_slash], whose node holds the slash alone. *)
Lemma escape_holds_text (s : string) (ps : list parser)
    (p r : cursor) (st st' : state) :
  Forall (reads_text s) ps ->
  map (join ps)
    (fun x => n <- node_ (DStr (join_strings x)) [] ;; ret (VNode n)) p st
    = Success r st' ->
  exists u, v r = VNode (Node u (DStr (substring (i p) (i r - i p) s)) []).
Proof.
  intros F H. unfold map, join in H.
  destruct (join_from ps p [] st) as [r1 st1|st1|] eqn:E; try discriminate H.
  destruct (join_from_text s ps F _ _ _ _ _ E) as (ms & Ev & _ & T).
  cbn [bind node_ ret] in H. inversion H; subst. cbn [v i].
  rewrite Ev. cbn [app]. rewrite T. now eexists.
Qed.

Lemma string_reads (s cs : string) (p r : cursor) (st st' : state) :
  string_ s cs p st = Success r st' -> v r = VStr cs.
Proof.
  unfold string_. intros H.
  destruct (i p <? String.length s); [|discriminate H]. cbn [andb] in H.
  destruct (String.eqb (substr s (i p) (String.length cs)) cs) eqn:Q;
    [|discriminate H].
  apply String.eqb_eq in Q. inversion H; subst. cbn [v]. now rewrite Q.
Qed.

Lemma any_reads (s : string) (p r : cursor) (st st' : state) :
  any s 1 p st = Success r st' -> exists a, v r = VStr (String a "").
Proof.
  unfold any. intros H.
  destruct (i p <? String.length s) eqn:L; [|discriminate H].
  apply Nat.ltb_lt in L. destruct (charAt_within s (i p) L) as [a C].
  exists a. inversion H; subst. cbn [v]. exact (f_equal VStr C).
Qed.

Lemma char_value (s cs : string) (p r : cursor) (st st' : state) :
  char s cs p st = Success r st' ->
  exists a, v r = VStr (String a "") /\ string_exists (Ascii.eqb a) cs = true.
Proof.
  intros H. apply char_reads in H as (c & _ & In & E & _).
  exists c. subst r. now split.
Qed.

(** Each of the four starts with a backslash and reads a character after it. *)
Lemma escape_starts_with_backslash (s : string) (P : parser)
    (p r : cursor) (st st' : state) :
  In P [escaped s; control s; hex_code s; unicode s] ->
  P p st = Success r st' ->
  exists u b rest,
    v r = VNode (Node u (DStr (String (ascii_of_nat 92) (String b rest))) []).
Proof.
  intros I H.
  repeat (destruct I as [I|I]; [subst P|]); [| | | |contradiction I];
    unfold escaped, control, hex_code, unicode, hex in H; crack H;
    repeat match goal with
      | E : char s backslash _ _ = Success _ _ |- _ =>
          let In := fresh "In" in
          apply char_value in E as (? & E & In);
          cbn [backslash string_exists] in In; rewrite orb_false_r in In;
          apply Ascii.eqb_eq in In; subst;
          rewrite E in H; clear E
      | E : char s _ _ _ = Success _ _ |- _ =>
          apply char_value in E as (? & E & _); rewrite E in H; clear E
      | E : string_ s _ _ _ = Success _ _ |- _ =>
          apply string_reads in E; rewrite E in H; clear E
      | E : any s 1 _ _ = Success _ _ |- _ =>
          apply any_reads in E as [? E]; rewrite E in H; clear E
      end;
    cbn in H; inversion H; subst; cbn [v];
    eexists; eexists; eexists; reflexivity.
Qed.

(** The methods on the leaf of an escape. *)
Lemma escape_leaf (u : nat) (b : ascii) (rest : string) :
  string_exists line_terminator (String b rest) = false ->
  toString (Node u (DStr (String (ascii_of_nat 92) (String b rest))) [])
    = Some (String (ascii_of_nat 92) (String b rest)) /\
  minimum_length (Node u (DStr (String (ascii_of_nat 92) (String b rest))) [])
    = Some (if is_zero_width
                 (Node u (DStr (String (ascii_of_nat 92) (String b rest))) [])
            then 0%N else 1%N).
Proof.
  intros L. set (n := Node u (DStr (String (ascii_of_nat 92) (String b rest))) []).
  split.
  - change (toString n)
      with (if is_zero_width n then Some (text n) else Some (text n)).
    now destruct (is_zero_width n).
  - assert (SE : is_single_escape n = true).
    { unfold is_single_escape, n. cbn [text data_to_string].
      rewrite L. reflexivity. }
    unfold n at 1. cbn [minimum_length]. fold n.
    destruct (is_zero_width n); [reflexivity|]. now rewrite SE.
Qed.

(** X18.  The rules of the escapes (a backslash and one of the characters
    listed, a control character, a hexadecimal code, a unicode code) return
    a leaf that holds the text they have read.  [toString()] prints that
    text back, and [minimum_length()] is 1, or 0 for the two word
    boundaries, which are zero-width. *)
Theorem X18_escapes_hold_the_text_read
    (s : string) (P : parser) (p r : cursor) (st st' : state) :
  string_exists line_terminator s = false ->
  In P [escaped s; control s; hex_code s; unicode s] ->
  P p st = Success r st' ->
  exists n,
    v r = VNode n /\ is_atom n = true /\
    text n = substring (i p) (i r - i p) s /\
    toString n = Some (text n) /\
    minimum_length n = Some (if is_zero_width n then 0%N else 1%N).
Proof.
  intros L I H.
  destruct (escape_starts_with_backslash s P p r st st' I H)
    as (u & b & rest & Ev).
  assert (T : exists u', v r
                = VNode (Node u' (DStr (substring (i p) (i r - i p) s)) [])).
  { repeat (destruct I as [I|I]; [subst P|]); [| | | |contradiction I];
      unfold escaped, control, hex_code, unicode in H;
      (eapply (escape_holds_text s); [|exact H]);
      repeat apply Forall_cons; try apply Forall_nil;
      first [apply reads_text_char | apply reads_text_string
            | apply reads_text_any]. }
  destruct T as [u' Et]. rewrite Ev in Et. inversion Et as [[Eu Ed]].
  pose proof (string_exists_substring line_terminator s L (i p) (i r - i p))
    as Ls.
  rewrite <- Ed in Ls. cbn [string_exists] in Ls.
  apply orb_false_elim in Ls as [_ Ls].
  destruct (escape_leaf u b rest Ls) as [Ts Ms].
  eexists. split; [exact Ev|]. split; [reflexivity|].
  split; [first [exact Ed|reflexivity]|]. split; [exact Ts|exact Ms].
Qed.

Lemma X18_escapes_hold_the_text_read_witness :
  exists r st' n,
    unicode "a\u00e9+" (Cursor VUndefined 1) initial_state = Success r st' /\
    v r = VNode n /\ i r = 7 /\ text n = "\u00e9" /\
    toString n = Some "\u00e9" /\ minimum_length n = Some 1%N.
Proof.
  assert (H : unicode "a\u00e9+" (Cursor VUndefined 1) initial_state
              = Success (Cursor (VNode (Node 0 (DStr "\u00e9") [])) 7)
                  (State [] 1))
    by (vm_compute; reflexivity).
  destruct (X18_escapes_hold_the_text_read "a\u00e9+" (unicode "a\u00e9+")
              _ _ _ _ eq_refl ltac:(simpl; auto) H)
    as (n & Ev & _ & Et & Ts & Ms).
  cbn [v] in Ev. inversion Ev; subst n.
  eexists. eexists. eexists. split; [exact H|].
  split; [reflexivity|]. split; [reflexivity|]. split; [reflexivity|].
  split; [exact Ts|exact Ms].
Defined.

(** ** Character classes *)

(** X19.  The two rules of the character classes return a node whose data
    is the opening bracket, with the caret when the class is negated, and
    whose one child is the node of the content.  [is_character_class()]
    holds of it and [minimum_length()] is 1, whatever the class lists. *)
Theorem X19_character_class_has_length_one
    (s : string) (P : parser) (p r : cursor) (st st' : state) :
  In P [character_in s; character_not_in s] ->
  P p st = Success r st' ->
  exists n u d xs,
    v r = VNode n /\
    (text n = "[" \/ text n = "[^") /\
    arity n = 1 /\ child n 0 = Node u d xs /\
    is_character_class n = true /\
    minimum_length n = Some 1%N.
Proof.
  intros I H.
  assert (C : forall r1 st1 r2 st2,
             character_class s r1 st1 = Success r2 st2 -> proper (v r2))
    by (intros r1 st1 r2 st2 E; exact (yields_character_class s _ _ _ _ _ E)).
  repeat (destruct I as [I|I]; [subst P|]); [| |contradiction I];
    unfold character_in, character_not_in in H; crack H;
    match goal with
    | E : character_class s _ _ = Success _ _ |- _ =>
        apply C in E as (u & d & xs & E); rewrite E in H
    end;
    cbn in H; inversion H; subst; cbn [v];
    eexists; exists u, d, xs; (split; [reflexivity|]);
    (split; [|repeat split; reflexivity]); cbn [text data_to_string];
    [left|right]; reflexivity.
Qed.

Lemma X19_character_class_has_length_one_witness :
  exists r st' n,
    character_not_in "x[^a-f0]+" (Cursor VUndefined 1) initial_state
      = Success r st' /\
    v r = VNode n /\ i r = 8 /\ text n = "[^" /\
    minimum_length n = Some 1%N.
Proof.
  eexists. eexists.
  assert (H : character_not_in "x[^a-f0]+" (Cursor VUndefined 1) initial_state
              = Success _ _) by (vm_compute; reflexivity).
  destruct (X19_character_class_has_length_one "x[^a-f0]+"
              (character_not_in "x[^a-f0]+") _ _ _ _
              ltac:(simpl; auto) H)
    as (n & u & d & xs & Ev & _ & _ & _ & _ & M).
  exists n. split; [exact H|]. split; [exact Ev|].
  split; [reflexivity|]. split; [|exact M].
  cbn [v] in Ev. inversion Ev. reflexivity.
Defined.

(** ** Backreferences, in general *)

Lemma char_accepts (s cs : string) (p : cursor) (st : state) (c : ascii) :
  charAt s (i p) = String c "" ->
  string_exists (Ascii.eqb c) cs = true ->
  char s cs p st = Success (Cursor (VStr (String c "")) (i p + 1)) st.
Proof.
  intros C In.
  assert (L : i p < String.length s).
  { destruct (Nat.lt_ge_cases (i p) (String.length s)) as [L|L]; [exact L|].
    unfold charAt in C. pose proof (substring_length_le s (i p) 1) as B.
    rewrite C in B. simpl in B. lia. }
  unfold char. rewrite C, found_indexOf_char, In.
  now replace (i p <? String.length s) with true
    by (symmetry; apply Nat.ltb_lt; exact L).
Qed.

(** The value of one digit and of two, from the codes of the digits. *)
Lemma to_number_one (d : ascii) :
  to_number (String d "") = (N_of_ascii d - 48)%N.
Proof. unfold to_number. cbn [to_number_from]. unfold digit_value. lia. Qed.

Lemma to_number_two (d1 d2 : ascii) :
  to_number (String d1 "" ++ String d2 "")
    = (10 * (N_of_ascii d1 - 48) + (N_of_ascii d2 - 48))%N.
Proof.
  unfold to_number. cbn [append to_number_from]. unfold digit_value. lia.
Qed.

(** What the single-digit reading accepts, and what it returns. *)
Lemma single_digit_reads (s : string) (p it : cursor) (st st' : state) :
  single_digit_backreference s p st = Success it st' ->
  charAt s (i p) = backslash /\
  exists d,
    decimal d = true /\ charAt s (i p + 1) = String d "" /\
    i it = i p + 2 /\
    v it = VNode (Node (S (next_uid st)) (DStr backslash)
                    [Node (next_uid st) (DNum (N_of_ascii d - 48)) [];
                     nth (N.to_nat (N_of_ascii d - 48)) (groups st) Undefined]) /\
    groups st' = groups st.
Proof.
  intros H. unfold single_digit_backreference, map, join in H.
  cbn [join_from] in H.
  destruct (char s backslash p st) as [r1 st1|st1|] eqn:E0; try discriminate H.
  destruct (digit s r1 st1) as [r2 st2|st2|] eqn:E1; try discriminate H.
  apply char_reads in E0 as (c0 & C0 & In0 & R1 & S1 & _).
  unfold digit in E1. apply char_reads in E1 as (d & C1 & In1 & R2 & S2 & _).
  cbn [backslash string_exists] in In0. rewrite orb_false_r in In0.
  apply Ascii.eqb_eq in In0. subst c0 r1 r2 st1 st2.
  cbn [i] in C1. cbn [app v at_ nth val_to_string] in H.
  rewrite to_number_one in H. unfold bind, ret in H.
  rewrite backreference_node_spec in H.
  inversion H; subst it st'. cbn [v i groups].
  split; [exact C0|]. exists d.
  split; [exact In1|]. split; [exact C1|]. split; [lia|].
  split; reflexivity.
Qed.

(** What the two-digit reading accepts, and the number it returns. *)
Lemma two_digit_reads (s : string) (p r : cursor) (st st1 : state) :
  two_digit_ordinal s p st = Success r st1 ->
  st1 = st /\ charAt s (i p) = backslash /\
  exists d1 d2,
    decimal d1 = true /\ decimal d2 = true /\
    charAt s (i p + 1) = String d1 "" /\ charAt s (i p + 2) = String d2 "" /\
    i r = i p + 3 /\
    v r = VNum (10 * (N_of_ascii d1 - 48) + (N_of_ascii d2 - 48)).
Proof.
  intros H. unfold two_digit_ordinal, map, join in H. cbn [join_from] in H.
  destruct (char s backslash p st) as [r1 st2|st2|] eqn:E0; try discriminate H.
  destruct (digit s r1 st2) as [r2 st3|st3|] eqn:E1; try discriminate H.
  destruct (digit s r2 st3) as [r3 st4|st4|] eqn:E2; try discriminate H.
  apply char_reads in E0 as (c0 & C0 & In0 & R1 & S1 & _).
  unfold digit in E1, E2.
  apply char_reads in E1 as (d1 & C1 & In1 & R2 & S2 & _).
  apply char_reads in E2 as (d2 & C2 & In2 & R3 & S3 & _).
  cbn [backslash string_exists] in In0. rewrite orb_false_r in In0.
  apply Ascii.eqb_eq in In0. subst c0 r1 r2 r3 st2 st3 st4.
  cbn [i] in C1, C2. cbn [app v at_ nth val_to_string ret] in H.
  rewrite to_number_two in H. inversion H; subst r st1. cbn [v i].
  split; [reflexivity|]. split; [exact C0|]. exists d1, d2.
  split; [exact In1|]. split; [exact In2|]. split; [exact C1|].
  split; [now replace (i p + 2) with (i p + 1 + 1) by lia|].
  split; [lia|reflexivity].
Qed.

(** X4.  Whenever [backreference] accepts, the text at the cursor is a
    backslash and one or two decimal digits, which it has consumed, and the
    ordinal [n] in the first child of the node is the value of those
    digits; two digits are taken only when [n] is at most
    [context.groups.length].  When the registry has an entry at index [n],
    counted from zero, the second child is that entry.  The registry is
    left as it was. *)
Theorem X4_backreference_reads_registry_at_ordinal
    (s : string) (p it : cursor) (st st' : state) :
  backreference s p st = Success it st' ->
  charAt s (i p) = backslash /\
  groups st' = groups st /\
  exists n,
    is_backreference (as_node (v it)) = true /\
    data_of (child (as_node (v it)) 0) = Some (DNum n) /\
    (forall g, nth_error (groups st) (N.to_nat n) = Some g ->
               child (as_node (v it)) 1 = g) /\
    ((exists d,
        decimal d = true /\ charAt s (i p + 1) = String d "" /\
        i it = i p + 2 /\ n = (N_of_ascii d - 48)%N) \/
     (exists d1 d2,
        decimal d1 = true /\ decimal d2 = true /\
        charAt s (i p + 1) = String d1 "" /\
        charAt s (i p + 2) = String d2 "" /\
        i it = i p + 3 /\
        n = (10 * (N_of_ascii d1 - 48) + (N_of_ascii d2 - 48))%N /\
        (n <= N.of_nat (List.length (groups st)))%N)).
Proof.
  assert (Single : single_digit_backreference s p st = Success it st' ->
            charAt s (i p) = backslash /\
            groups st' = groups st /\
            exists n,
              is_backreference (as_node (v it)) = true /\
              data_of (child (as_node (v it)) 0) = Some (DNum n) /\
              (forall g, nth_error (groups st) (N.to_nat n) = Some g ->
                         child (as_node (v it)) 1 = g) /\
              ((exists d,
                  decimal d = true /\ charAt s (i p + 1) = String d "" /\
                  i it = i p + 2 /\ n = (N_of_ascii d - 48)%N) \/
               (exists d1 d2,
                  decimal d1 = true /\ decimal d2 = true /\
                  charAt s (i p + 1) = String d1 "" /\
                  charAt s (i p + 2) = String d2 "" /\
                  i it = i p + 3 /\
                  n = (10 * (N_of_ascii d1 - 48) + (N_of_ascii d2 - 48))%N /\
                  (n <= N.of_nat (List.length (groups st)))%N))).
  { intros H. apply single_digit_reads in H as (C0 & d & D & C1 & I2 & V & G).
    split; [exact C0|]. split; [exact G|].
    exists (N_of_ascii d - 48)%N. rewrite V. cbn [as_node child nth].
    split; [reflexivity|]. split; [reflexivity|].
    split; [intros g Hg; now apply nth_error_nth|].
    left. now exists d. }
  intros H. unfold backreference in H.
  destruct (two_digit_ordinal s p st) as [r st1|st1|] eqn:T;
    try discriminate H.
  - apply two_digit_reads in T
      as (S1 & C0 & d1 & d2 & D1 & D2 & C1 & C2 & I3 & V).
    subst st1. rewrite V in H.
    destruct (_ <=? _)%N eqn:B; [|exact (Single H)].
    rewrite backreference_node_spec in H. inversion H; subst it st'.
    cbn [v i groups as_node child nth].
    split; [exact C0|]. split; [reflexivity|].
    eexists. split; [reflexivity|]. split; [reflexivity|].
    split; [intros g Hg; now apply nth_error_nth|].
    right. exists d1, d2. apply N.leb_le in B. now repeat split.
  - assert (S1 : st1 = st).
    { pose proof (join_stateless [char s backslash; digit s; digit s]
                    ltac:(repeat constructor; apply char_stateless) p st) as J.
      unfold two_digit_ordinal, map in T.
      destruct (join _ p st) as [r2 st2|st2|]; try discriminate T.
      inversion T. congruence. }
    subst st1. exact (Single H).
Qed.

Lemma X4_backreference_reads_registry_at_ordinal_witness :
  exists it st',
    backreference (backslash ++ "1") initial_cursor
      (State [Node 0 (DStr "x") []; Node 1 (DStr "y") []] 2) = Success it st' /\
    data_of (child (as_node (v it)) 0) = Some (DNum 1) /\
    child (as_node (v it)) 1 = Node 1 (DStr "y") [].
Proof.
  eexists. eexists. split; [vm_compute; reflexivity|].
  destruct (X4_backreference_reads_registry_at_ordinal (backslash ++ "1")
              initial_cursor _ (State [Node 0 (DStr "x") []; Node 1 (DStr "y") []] 2)
              _ eq_refl) as (_ & _ & n & _ & D & C & _).
  vm_compute in D. inversion D; subst n.
  split; [reflexivity|]. exact (C _ eq_refl).
Defined.

(** X5.  Where a backslash and two decimal digits stand, of value [n] (ten
    times the first digit plus the second), [backreference] accepts.  When
    [n] is at most [context.groups.length] it takes all three characters as
    the reference of ordinal [n]; otherwise it takes the backslash and the
    first digit only, as the reference whose ordinal is that digit, and
    leaves the second digit to what follows.  The registry is left as it
    was. *)
Theorem X5_two_digit_reading_follows_registry_length
    (s : string) (p : cursor) (st : state) (d1 d2 : ascii) :
  charAt s (i p) = backslash ->
  charAt s (i p + 1) = String d1 "" ->
  charAt s (i p + 2) = String d2 "" ->
  decimal d1 = true -> decimal d2 = true ->
  exists it st',
    backreference s p st = Success it st' /\
    groups st' = groups st /\
    is_backreference (as_node (v it)) = true /\
    if (10 * (N_of_ascii d1 - 48) + (N_of_ascii d2 - 48)
        <=? N.of_nat (List.length (groups st)))%N
    then i it = i p + 3 /\
         data_of (child (as_node (v it)) 0)
           = Some (DNum (10 * (N_of_ascii d1 - 48) + (N_of_ascii d2 - 48)))
    else i it = i p + 2 /\
         data_of (child (as_node (v it)) 0) = Some (DNum (N_of_ascii d1 - 48)).
Proof.
  intros C0 C1 C2 D1 D2.
  assert (E0 : char s backslash p st
               = Success (Cursor (VStr backslash) (i p + 1)) st)
    by (apply (char_accepts s backslash p st (ascii_of_nat 92));
        [exact C0|reflexivity]).
  assert (E1 : char s "0123456789" (Cursor (VStr backslash) (i p + 1)) st
               = Success (Cursor (VStr (String d1 "")) (i p + 1 + 1)) st)
    by (apply (char_accepts s _ (Cursor (VStr backslash) (i p + 1)) st d1);
        [exact C1|exact D1]).
  assert (E2 : char s "0123456789" (Cursor (VStr (String d1 "")) (i p + 1 + 1)) st
               = Success (Cursor (VStr (String d2 "")) (i p + 1 + 1 + 1)) st).
  { apply (char_accepts s _ (Cursor (VStr (String d1 "")) (i p + 1 + 1)) st d2);
      [|exact D2].
    cbn [i]. now replace (i p + 1 + 1) with (i p + 2) by lia. }
  unfold backreference, two_digit_ordinal, map, join. cbn [join_from].
  unfold digit. rewrite E0, E1, E2.
  cbn [app v i at_ nth val_to_string ret]. rewrite to_number_two.
  destruct (_ <=? _)%N.
  - rewrite backreference_node_spec.
    eexists. eexists. split; [reflexivity|]. cbn [v i groups as_node child nth].
    split; [reflexivity|]. split; [reflexivity|]. split; [lia|reflexivity].
  - unfold single_digit_backreference, map, join. cbn [join_from].
    unfold digit. rewrite E0, E1.
    cbn [app v i at_ nth val_to_string]. rewrite to_number_one.
    unfold bind, ret. rewrite backreference_node_spec.
    eexists. eexists. split; [reflexivity|]. cbn [v i groups as_node child nth].
    split; [reflexivity|]. split; [reflexivity|]. split; [lia|reflexivity].
Qed.

Lemma X5_two_digit_reading_follows_registry_length_witness :
  exists it st',
    backreference ("(a)" ++ backslash ++ "12") (Cursor VUndefined 3)
      (State [Node 0 (DStr "x") []] 1) = Success it st' /\
    i it = 5 /\ data_of (child (as_node (v it)) 0) = Some (DNum 1).
Proof.
  destruct (X5_two_digit_reading_follows_registry_length
              ("(a)" ++ backslash ++ "12") (Cursor VUndefined 3)
              (State [Node 0 (DStr "x") []] 1) "1" "2"
              eq_refl eq_refl eq_refl eq_refl eq_refl)
    as (it & st' & B & _ & _ & R).
  exists it, st'. split; [exact B|]. exact R.
Defined.
